(** * hexviewer-pwa: colour conversion and AI recipe cache

    A shallow embedding of [src/utils/colorUtils.ts], of the AI colour
    service ([fetchAiCmykBatch] and its helpers), of the [useAiCmyk] hook
    and of the parts of [App.tsx] that store and paint colours, with the
    properties of the specification, and further properties of the code,
    stated over it.

    JavaScript numbers are IEEE 754 binary64 values; they are modelled by
    the Standard Library's [spec_float] with the operations of [SpecFloat]
    at precision 53, so that [/], [-], [*] round exactly as the engine does.
    (The primitive floats of the kernel, which the library specifies by
    these same operations, are used only to evaluate tables of cases
    quickly.)
    Strings are sequences of characters, maps are insertion-ordered
    association lists (as [Map] is), and the module-level cache and
    [localStorage] are threaded explicitly as a state. *)

From Stdlib Require Import ZArith List Bool Lia String Ascii PeanoNat.
From Stdlib Require Import Floats.SpecFloat.
From Stdlib Require Floats Uint63.
Import ListNotations.

Set Implicit Arguments.

(* ================================================================== *)
(** ** JavaScript numbers *)

Module Number.

Local Open Scope Z_scope.

Definition number := spec_float.

Definition prec : Z := 53.
Definition emax : Z := 1024.

Definition NaN : number := S754_nan.
Definition Infinity : number := S754_infinity false.
Definition NegInfinity : number := S754_infinity true.

(** The Number value of a mathematical integer (correctly rounded). *)
Definition of_Z (n : Z) : number := binary_normalize prec emax n 0 false.

Definition add : number -> number -> number := SFadd prec emax.
Definition sub : number -> number -> number := SFsub prec emax.
Definition mul : number -> number -> number := SFmul prec emax.
Definition div : number -> number -> number := SFdiv prec emax.

(** [a < b], [a <= b], [a >= b] and [a === b] on numbers. *)
Definition ltb : number -> number -> bool := SFltb.
Definition leb : number -> number -> bool := SFleb.
Definition geb (a b : number) : bool := leb b a.
Definition eqb : number -> number -> bool := SFeqb.

Definition is_nan (x : number) : bool :=
  match x with S754_nan => true | _ => false end.

(** Decimal literals of the source are the doubles nearest to them; the
    quotient of two exactly represented integers is correctly rounded. *)
Definition lit_1_2 : number := Eval vm_compute in div (of_Z 12) (of_Z 10).
Definition lit_1_15 : number := Eval vm_compute in div (of_Z 115) (of_Z 100).
Definition lit_0_9 : number := Eval vm_compute in div (of_Z 9) (of_Z 10).

(** [Math.max] and [Math.min]: NaN is absorbing, and [+0] is larger than
    [-0].  The n-ary functions fold from [-Infinity] (resp. [+Infinity]). *)
Definition max2 (highest x : number) : number :=
  match SFcompare highest x with
  | None => NaN
  | Some Lt => x
  | Some Gt => highest
  | Some Eq =>
      match highest, x with
      | S754_zero true, S754_zero false => x
      | _, _ => highest
      end
  end.

Definition min2 (lowest x : number) : number :=
  match SFcompare lowest x with
  | None => NaN
  | Some Lt => lowest
  | Some Gt => x
  | Some Eq =>
      match lowest, x with
      | S754_zero false, S754_zero true => x
      | _, _ => lowest
      end
  end.

Definition Math_max (args : list number) : number :=
  fold_left max2 args NegInfinity.

Definition Math_min (args : list number) : number :=
  fold_left min2 args Infinity.

(** [floor (v + 1/2)] for [v = (-1)^s * m / 2^k]. *)
Definition round_half_up (s : bool) (m k : positive) : Z :=
  (2 * cond_Zopp s (Zpos m) + 2 ^ Zpos k) / 2 ^ (Zpos k + 1).

(** [Math.round]: the integer closest to [x], ties towards [+Infinity];
    NaN, the infinities, the zeros and integral values are returned as they
    are, and a result of zero keeps the sign of [x]. *)
Definition Math_round (x : number) : number :=
  match x with
  | S754_finite s m (Zneg k) =>
      let n := round_half_up s m k in
      if n =? 0 then S754_zero s else of_Z n
  | _ => x
  end.

End Number.

Declare Scope js_scope.
Delimit Scope js_scope with js.
Notation "x + y" := (Number.add x y) : js_scope.
Notation "x - y" := (Number.sub x y) : js_scope.
Notation "x * y" := (Number.mul x y) : js_scope.
Notation "x / y" := (Number.div x y) : js_scope.
Notation "x <? y" := (Number.ltb x y) : js_scope.
Notation "x <=? y" := (Number.leb x y) : js_scope.
Notation "x >=? y" := (Number.geb x y) : js_scope.
Notation "x === y" := (Number.eqb x y) (at level 70, no associativity) : js_scope.
Notation "# n" := (Number.of_Z n) (at level 5, format "# n") : js_scope.


(* ================================================================== *)
(** ** JavaScript strings

    A string is a sequence of characters.  The functions below look at
    ASCII characters only ('#', hexadecimal digits, white space, backquotes);
    a code unit beyond ASCII is any other character and is never one of
    these. *)

Module JsString.

Import Number.
Local Open Scope string_scope.

Definition code (ch : ascii) : nat := nat_of_ascii ch.

Definition between (lo hi : nat) (ch : ascii) : bool :=
  ((lo <=? code ch) && (code ch <=? hi))%nat.

(** [[0-9A-Fa-f]] *)
Definition is_hex_digit (ch : ascii) : bool :=
  between 48 57 ch || between 65 70 ch || between 97 102 ch.

(** [s.startsWith('#')] *)
Definition startsWith_hash (s : string) : bool :=
  match s with
  | String ch _ => Ascii.eqb ch "#"
  | EmptyString => false
  end.

(** The rest of [s] after a leading '#', if it has one. *)
Definition strip_hash (s : string) : string :=
  match s with
  | String ch rest => if Ascii.eqb ch "#" then rest else s
  | EmptyString => s
  end.

Definition upper_char (ch : ascii) : ascii :=
  if between 97 122 ch then ascii_of_nat (code ch - 32) else ch.

(** [s.toUpperCase()]; it is only applied to strings that passed
    [isValidHex], which are ASCII. *)
Fixpoint toUpperCase (s : string) : string :=
  match s with
  | EmptyString => EmptyString
  | String ch rest => String (upper_char ch) (toUpperCase rest)
  end.

(** [s.replace('#', '')]: the first '#' is removed, wherever it is. *)
Fixpoint remove_first_hash (s : string) : string :=
  match s with
  | EmptyString => EmptyString
  | String ch rest =>
      if Ascii.eqb ch "#" then rest else String ch (remove_first_hash rest)
  end.

(** [s.split('').map(char => char + char).join('')] *)
Fixpoint double_chars (s : string) : string :=
  match s with
  | EmptyString => EmptyString
  | String ch rest => String ch (String ch (double_chars rest))
  end.

(** [s.substring(i, j)] for [i <= j]. *)
Definition substring (i j : nat) (s : string) : string :=
  String.substring i (j - i) s.

Definition is_space (ch : ascii) : bool :=
  between 9 13 ch || (code ch =? 32)%nat.

Fixpoint skip_spaces (s : string) : string :=
  match s with
  | String ch rest => if is_space ch then skip_spaces rest else s
  | EmptyString => s
  end.

Definition hex_value (ch : ascii) : option Z :=
  if between 48 57 ch then Some (Z.of_nat (code ch - 48))
  else if between 65 70 ch then Some (Z.of_nat (code ch - 55))
  else if between 97 102 ch then Some (Z.of_nat (code ch - 87))
  else None.

(** The value of the longest prefix of hexadecimal digits, if there is one. *)
Fixpoint digits16 (acc : option Z) (s : string) : option Z :=
  match s with
  | String ch rest =>
      match hex_value ch with
      | Some d =>
          digits16 (Some (16 * match acc with Some a => a | None => 0 end + d)%Z) rest
      | None => acc
      end
  | EmptyString => acc
  end.

(** [parseInt(s, 16)]: leading white space, a sign and a [0x] prefix are
    skipped; no digit gives NaN.  ([hexToRgb] passes substrings of at most
    two characters, whose value is exact.) *)
Definition parseInt16 (s : string) : number :=
  let s1 := skip_spaces s in
  let '(neg, s2) :=
    match s1 with
    | String ch rest =>
        if Ascii.eqb ch "-" then (true, rest)
        else if Ascii.eqb ch "+" then (false, rest)
        else (false, s1)
    | EmptyString => (false, s1)
    end in
  let s3 :=
    match s2 with
    | String c0 (String c1 rest) =>
        if Ascii.eqb c0 "0" && (Ascii.eqb c1 "x" || Ascii.eqb c1 "X")
        then rest else s2
    | _ => s2
    end in
  match digits16 None s3 with
  | None => NaN
  | Some n => if (n =? 0)%Z then S754_zero neg else of_Z (cond_Zopp neg n)
  end.

End JsString.

(* ================================================================== *)
(** ** types.ts *)

Module Types.

Import Number.

Record CmykValues := { c : number; m : number; y : number; k : number }.

(** [CmykValues & { description: string }] *)
Record StandardAuto := {
  standard_cmyk :> CmykValues;
  description : string
}.

(** [CmykValues & { modifications_made: string; paper_type: string }] *)
Record SmartPrintRecipe := {
  smart_cmyk :> CmykValues;
  modifications_made : string;
  paper_type : string
}.

Record Conversions := {
  standard_auto : StandardAuto;
  smart_print_recipe : SmartPrintRecipe
}.

Record PrintConversion := {
  input_hex : string;
  conversions : Conversions
}.

End Types.

(* ================================================================== *)
(** ** utils/colorUtils.ts *)

Module ColorUtils.

Import Number JsString Types.
Local Open Scope string_scope.
Local Open Scope js_scope.

(** [/^#?([0-9A-Fa-f]{3}){1,2}$/i.test(hex)]: an optional '#', then three
    or six hexadecimal digits, then the end of the string. *)
Definition isValidHex (hex : string) : bool :=
  let digits := strip_hash hex in
  ((String.length digits =? 3)%nat || (String.length digits =? 6)%nat)
  && forallb is_hex_digit (list_ascii_of_string digits).

Definition normalizeHex (hex : string) : string :=
  let cleaned := if startsWith_hash hex then hex else String "#" hex in
  if negb (isValidHex cleaned) then "#FFFFFF"
  else toUpperCase cleaned.

Record Rgb := { r : number; g : number; b : number }.

Definition hexToRgb (hex : string) : Rgb :=
  let color := remove_first_hash hex in
  let color :=
    if (String.length color =? 3)%nat then double_chars color else color in
  {| r := parseInt16 (substring 0 2 color);
     g := parseInt16 (substring 2 4 color);
     b := parseInt16 (substring 4 6 color) |}.

Definition getHue (r g b : number) : number :=
  let r := r / #255 in
  let g := g / #255 in
  let b := b / #255 in
  let max := Math_max [r; g; b] in
  let min := Math_min [r; g; b] in
  let h := #0 in
  let h :=
    if negb (max === min) then
      let d := max - min in
      let h :=
        if max === r then (g - b) / d + (if g <? b then #6 else #0)
        else if max === g then (b - r) / d + #2
        else if max === b then (r - g) / d + #4
        else h in
      h / #6
    else h in
  h * #360.

(** The standard conversion of one channel:
    [kStd === 1 ? 0 : Math.round(((1 - xPrime - kStd) / (1 - kStd)) * 100)]. *)
Definition channelStd (xPrime kStd : number) : number :=
  if kStd === #1 then #0
  else Math_round (((#1 - xPrime - kStd) / (#1 - kStd)) * #100).

(** The branch of the heuristic smart recipe that applies. *)
Inductive rule := RichBlack | AntiMud | AntiPurple | CleanGreen | NoRule.

(** The conditions of the [if ... else if ...] chain, in its order. *)
Definition select_rule (normalized : string) (hue : number) : rule :=
  if String.eqb normalized "#000000" then RichBlack
  else if ((hue >=? #0) && (hue <=? #50)) || ((hue >=? #330) && (hue <=? #360))
  then AntiMud
  else if (hue >=? #190) && (hue <=? #260) then AntiPurple
  else if (hue >=? #70) && (hue <=? #165) then CleanGreen
  else NoRule.

(** The bodies of the chain: what each branch assigns to
    [cSmart], [mSmart], [ySmart], [kSmart] and [mods]. *)
Definition apply_rule (rl : rule) (cStd mStd yStd kFinalStd : number)
  : SmartPrintRecipe :=
  let cSmart := cStd in
  let mSmart := mStd in
  let ySmart := yStd in
  let kSmart := kFinalStd in
  let mods := "Standard conversion applied." in
  let paper := "Regular Stock" in
  match rl with
  | RichBlack =>
      {| smart_cmyk := {| c := #60; m := #40; y := #40; k := #100 |};
         modifications_made :=
           "Rich Black mix applied for deeper, professional coverage.";
         paper_type := paper |}
  | AntiMud =>
      {| smart_cmyk :=
           {| c := #0;
              m := Math_min [#100; Math_round (mStd * lit_1_2)];
              y := Math_min [#100; Math_round (yStd * lit_1_15)];
              k := #0 |};
         modifications_made :=
           "Removed Cyan/Black to prevent browning; boosted vibrancy for print.";
         paper_type := paper |}
  | AntiPurple =>
      {| smart_cmyk :=
           {| c := #100;
              m := Math_min [#70; mStd];
              y := ySmart;
              k := Math_max [#5; Math_min [#15; kFinalStd + #5]] |};
         modifications_made :=
           "Capped Magenta to prevent purple shift; boosted Cyan and added depth Black.";
         paper_type := paper |}
  | CleanGreen =>
      {| smart_cmyk :=
           {| c := Math_round (cStd * lit_0_9);
              m := #0;
              y := #100;
              k := #0 |};
         modifications_made :=
           "Removed Magenta/Black to prevent mudding; relied on heavy Cyan/Yellow mix.";
         paper_type := paper |}
  | NoRule =>
      {| smart_cmyk := {| c := cSmart; m := mSmart; y := ySmart; k := kSmart |};
         modifications_made := mods;
         paper_type := paper |}
  end.

Definition std_description : string :=
  "Standard mathematical conversion. May appear duller on paper.".

(** The standard conversion of an RGB triple (components 0..255). *)
Definition standardCmyk (r g b : number) : CmykValues :=
  let rPrime := r / #255 in
  let gPrime := g / #255 in
  let bPrime := b / #255 in
  let kStd := #1 - Math_max [rPrime; gPrime; bPrime] in
  let cStd := channelStd rPrime kStd in
  let mStd := channelStd gPrime kStd in
  let yStd := channelStd bPrime kStd in
  let kFinalStd := Math_round (kStd * #100) in
  {| c := cStd; m := mStd; y := yStd; k := kFinalStd |}.

Definition getPrintConversions (hex : string) : PrintConversion :=
  let normalized := normalizeHex hex in
  let rgb := hexToRgb normalized in
  let std := standardCmyk (r rgb) (g rgb) (b rgb) in
  let hue := getHue (r rgb) (g rgb) (b rgb) in
  {| input_hex := normalized;
     conversions :=
       {| standard_auto :=
            {| standard_cmyk := std; description := std_description |};
          smart_print_recipe :=
            apply_rule (select_rule normalized hue)
                       (c std) (m std) (y std) (k std) |} |}.

End ColorUtils.


(* ================================================================== *)
(** ** [Map<string, V>]: keys in insertion order *)

Module JsMap.

Section WithValues.

Variable V : Type.

Definition t := list (string * V).

Definition empty : t := [].

Fixpoint get (key : string) (mp : t) : option V :=
  match mp with
  | [] => None
  | (key', v) :: rest => if String.eqb key' key then Some v else get key rest
  end.

Definition has (key : string) (mp : t) : bool :=
  match get key mp with Some _ => true | None => false end.

(** [mp.set(key, v)]: an existing key keeps its position, a new key goes
    to the end. *)
Fixpoint set (key : string) (v : V) (mp : t) : t :=
  match mp with
  | [] => [(key, v)]
  | (key', v') :: rest =>
      if String.eqb key' key then (key, v) :: rest
      else (key', v') :: set key v rest
  end.

(** [for (const [key, v] of src) dst.set(key, v)] *)
Definition set_all (src dst : t) : t :=
  fold_left (fun acc kv => set (fst kv) (snd kv) acc) src dst.

Definition keys (mp : t) : list string := map fst mp.

(** [arr.slice(-n)] *)
Definition slice_last (n : nat) (arr : t) : t :=
  skipn (List.length arr - n) arr.

End WithValues.

Arguments empty {V}.

End JsMap.

(* ================================================================== *)
(** ** The AI colour service ([fetchAiCmykBatch] and its helpers) *)

Module AiColorService.

Import Number JsString Types ColorUtils.
Local Open Scope string_scope.
Local Open Scope js_scope.

(** ['ai' | 'heuristic' | 'cache'] *)
Inductive Source := src_ai | src_heuristic | src_cache.

(** [interface AiPrintResult extends PrintConversion { source }] *)
Record AiPrintResult := {
  print :> PrintConversion;
  source : Source
}.

Definition Recipes := JsMap.t AiPrintResult.

(** *** The two cache tiers *)

(** What [localStorage.getItem(CACHE_KEY)] holds: nothing, text that
    [JSON.parse] or the loop over it rejects, or a serialized list of
    entries. *)
Inductive StoredItem :=
| NoItem
| Corrupt
| Entries (entries : list (string * AiPrintResult)).

Record State := {
  cache : Recipes;
  localStorage : StoredItem
}.

Definition with_source (src : Source) (v : AiPrintResult) : AiPrintResult :=
  {| print := print v; source := src |}.

(** [hydrateCache()], run once when the module is loaded, on an empty
    [cache]. *)
Definition hydrateCache (stored : StoredItem) : Recipes :=
  match stored with
  | Entries entries =>
      fold_left (fun acc kv => JsMap.set (fst kv) (with_source src_cache (snd kv)) acc)
                entries JsMap.empty
  | NoItem | Corrupt => JsMap.empty
  end.

Definition initial_state (stored : StoredItem) : State :=
  {| cache := hydrateCache stored; localStorage := stored |}.

(** [persistCache()]; [writable] tells whether [localStorage.setItem]
    succeeds (it throws when the storage is full, which is ignored). *)
Definition persistCache (writable : bool) (st : State) : State :=
  if writable
  then {| cache := cache st;
          localStorage := Entries (JsMap.slice_last 200 (cache st)) |}
  else st.

(** *** Helpers *)

Definition clamp (n : number) : number :=
  Math_max [#0; Math_min [#100; Math_round n]].

Definition heuristicFallback (hex : string) : AiPrintResult :=
  {| print := getPrintConversions hex; source := src_heuristic |}.

Definition dq : string := String (ascii_of_nat 34) EmptyString.
Definition nl : string := String (ascii_of_nat 10) EmptyString.
Definition quoted (s : string) : string := dq ++ s ++ dq.

Definition buildPrompt (hexCodes : list string) : string :=
  let hexList := String.concat ", " (map quoted hexCodes) in
  String.concat nl [
    "You are an expert print color technician specializing in offset and digital CMYK printing. For each hex color below, provide an optimized CMYK recipe for professional printing.";
    EmptyString;
    "Hex codes: [" ++ hexList ++ "]";
    EmptyString;
    "For EACH color provide:";
    "1. Optimized C, M, Y, K values (integers 0-100) for vibrant print reproduction. Apply professional knowledge:";
    "   - Rich black (C60/M40/Y40/K100) for pure black";
    "   - Remove cyan from warm colors to prevent mudding/browning";
    "   - Cap magenta for blues to prevent purple shift";
    "   - Remove magenta from greens to keep them clean";
    "   - Keep total ink coverage under 300%";
    "   - Account for CMYK gamut being smaller than RGB";
    "2. A 1-2 sentence explanation of your modifications for a designer audience";
    "3. Recommended paper type";
    EmptyString;
    "Respond with ONLY a JSON array, no markdown, no extra text. Each element:";
    "{" ++ quoted "hex" ++ ":" ++ quoted "#XXXXXX" ++ ","
        ++ quoted "c" ++ ":0," ++ quoted "m" ++ ":0,"
        ++ quoted "y" ++ ":0," ++ quoted "k" ++ ":0,"
        ++ quoted "explanation" ++ ":" ++ quoted "..." ++ ","
        ++ quoted "paper" ++ ":" ++ quoted "..." ++ "}"
  ].

(** *** Decoding the answer *)

(** [s.replace(re, '')] for a global regular expression [re] that matches
    no empty string: [match_at s] is the length of the match at the head
    of [s], or 0. *)
Fixpoint remove_matches (match_at : string -> nat) (skip : nat) (s : string)
  : string :=
  match s with
  | EmptyString => EmptyString
  | String ch rest =>
      match skip with
      | S n => remove_matches match_at n rest
      | O =>
          match match_at s with
          | O => String ch (remove_matches match_at 0 rest)
          | S n => remove_matches match_at n rest
          end
      end
  end.

Definition drop (n : nat) (s : string) : string :=
  String.substring n (String.length s - n) s.

(** [/```json?\n?/] *)
Definition match_json_fence (s : string) : nat :=
  if String.prefix "```jso" s then
    let rest := drop 6 s in
    let '(n1, rest) :=
      match rest with
      | String "n" rest' => (1, rest')
      | _ => (0, rest)
      end%nat in
    let n2 :=
      match rest with
      | String ch _ => if (code ch =? 10)%nat then 1 else 0
      | EmptyString => 0
      end%nat in
    (6 + n1 + n2)%nat
  else 0%nat.

(** [/```/] *)
Definition match_fence (s : string) : nat :=
  if String.prefix "```" s then 3%nat else 0%nat.

Fixpoint trim_end (s : string) : string :=
  match s with
  | EmptyString => EmptyString
  | String ch rest =>
      match trim_end rest with
      | EmptyString => if is_space ch then EmptyString else String ch EmptyString
      | rest' => String ch rest'
      end
  end.

Definition trim (s : string) : string := trim_end (skip_spaces s).

(** [text.replace(/```json?\n?/g, '').replace(/```/g, '').trim()] *)
Definition clean (text : string) : string :=
  trim (remove_matches match_fence 0 (remove_matches match_json_fence 0 text)).

(** An element of the decoded array, as the annotation of [parsed]
    declares it: [{ hex: string; c: number; m: number; y: number;
    k: number; explanation: string; paper: string }].  The numbers are the
    values [Math.round] receives; an absent [paper] is the empty string,
    which [||] treats alike. *)
Record AiItem := {
  item_hex : string;
  item_c : number;
  item_m : number;
  item_y : number;
  item_k : number;
  item_explanation : string;
  item_paper : string
}.

(** What the loop of [parseAiResponse] meets in an array slot: an element
    of the declared shape, or one on which the body throws ([null], or a
    [hex] that is no string). *)
Inductive Element :=
| Item (item : AiItem)
| Malformed.

(** What [JSON.parse(cleaned)] gives: a [SyntaxError], a value that
    [for ... of] cannot iterate, or an array. *)
Inductive Parsed :=
| SyntaxError
| NotIterable
| Elements (elements : list Element).

Definition truthy_or (s default : string) : string :=
  if String.eqb s EmptyString then default else s.

(** The value [parseAiResponse] stores for one element. *)
Definition aiResultOf (item : AiItem) : string * AiPrintResult :=
  let normalized := normalizeHex (item_hex item) in
  let rgb := hexToRgb normalized in
  (normalized,
   {| print :=
        {| input_hex := normalized;
           conversions :=
             {| standard_auto :=
                  {| standard_cmyk := standardCmyk (r rgb) (g rgb) (b rgb);
                     description := std_description |};
                smart_print_recipe :=
                  {| smart_cmyk :=
                       {| c := clamp (item_c item);
                          m := clamp (item_m item);
                          y := clamp (item_y item);
                          k := clamp (item_k item) |};
                     modifications_made := item_explanation item;
                     paper_type := truthy_or (item_paper item) "Regular Stock" |}
             |} |};
      source := src_ai |}).

(** The [for (const item of parsed)] loop: the map so far, and whether an
    exception ended the loop. *)
Fixpoint parseLoop (elements : list Element) (results : Recipes)
  : Recipes * bool :=
  match elements with
  | [] => (results, false)
  | Malformed :: _ => (results, true)
  | Item item :: rest =>
      let '(normalized, res) := aiResultOf item in
      parseLoop rest (JsMap.set normalized res results)
  end.

(** The [catch] block of [parseAiResponse]. *)
Definition fillMissing (requestedHexes : list string) (results : Recipes)
  : Recipes :=
  fold_left
    (fun acc hex =>
       if negb (JsMap.has hex acc)
       then JsMap.set hex (heuristicFallback hex) acc else acc)
    requestedHexes results.

Section WithJsonParse.

(** [JSON.parse], followed by the reading of the result at the annotated
    type. *)
Variable JSON_parse : string -> Parsed.

Definition parseAiResponse (text : string) (requestedHexes : list string)
  : Recipes :=
  let results : Recipes := JsMap.empty in
  let '(results, thrown) :=
    match JSON_parse (clean text) with
    | SyntaxError | NotIterable => (results, true)
    | Elements elements => parseLoop elements results
    end in
  if thrown then fillMissing requestedHexes results else results.

(** *** The remote call *)

Record Request := {
  url : string;
  prompt : string
}.

(** What [response.json()] and the reading of
    [data.candidates?.[0]?.content?.parts?.[0]?.text || ''] give: an
    exception, or the text. *)
Inductive Body :=
| BodyThrows
| BodyText (text : string).

(** What [await fetch(...)] gives: a rejection, or a response. *)
Inductive FetchResult :=
| Rejects
| Response (ok : bool) (body : Body).

Record Env := {
  GEMINI_API_KEY : option string;
  fetch : Request -> FetchResult;
  storage_writable : bool
}.

Definition endpoint : string :=
  "https://generativelanguage.googleapis.com/v1beta/models/gemini-2.0-flash:generateContent?key=".

(** [!apiKey || apiKey === 'PLACEHOLDER_API_KEY'] *)
Definition no_credential (apiKey : option string) : bool :=
  match apiKey with
  | None => true
  | Some key => String.eqb key EmptyString || String.eqb key "PLACEHOLDER_API_KEY"
  end.

(** The first loop of [fetchAiCmykBatch]: the cached results and the
    [uncached] list. *)
Fixpoint partition (cache : Recipes) (hexCodes : list string)
  (results : Recipes) (uncached : list string) : Recipes * list string :=
  match hexCodes with
  | [] => (results, uncached)
  | hex :: rest =>
      let normalized := normalizeHex hex in
      match JsMap.get normalized cache with
      | Some cached => partition cache rest (JsMap.set normalized cached results) uncached
      | None => partition cache rest results (uncached ++ [normalized])
      end
  end.

(** [for (const hex of uncached) results.set(hex, heuristicFallback(hex))] *)
Definition fallbackAll (uncached : list string) (results : Recipes) : Recipes :=
  fold_left (fun acc hex => JsMap.set hex (heuristicFallback hex) acc)
            uncached results.

Record Outcome := {
  results : Recipes;
  state : State;
  requests : list Request
}.

Definition with_cache (st : State) (cache' : Recipes) : State :=
  {| cache := cache'; localStorage := localStorage st |}.

Definition fetchAiCmykBatch (env : Env) (st : State) (hexCodes : list string)
  : Outcome :=
  let '(results, uncached) := partition (cache st) hexCodes JsMap.empty [] in
  if (List.length uncached =? 0)%nat then
    {| results := results; state := st; requests := [] |}
  else if no_credential (GEMINI_API_KEY env) then
    let results := fallbackAll uncached results in
    let st := with_cache st (fallbackAll uncached (cache st)) in
    {| results := results;
       state := persistCache (storage_writable env) st;
       requests := [] |}
  else
    let apiKey := match GEMINI_API_KEY env with Some key => key | None => EmptyString end in
    let request := {| url := endpoint ++ apiKey; prompt := buildPrompt uncached |} in
    match fetch env request with
    | Response true (BodyText text) =>
        let parsed := parseAiResponse text uncached in
        {| results := JsMap.set_all parsed results;
           state := persistCache (storage_writable env)
                      (with_cache st (JsMap.set_all parsed (cache st)));
           requests := [request] |}
    | Rejects | Response false _ | Response true BodyThrows =>
        {| results := fallbackAll uncached results;
           state := st;
           requests := [request] |}
    end.

Definition getCachedResult (st : State) (hex : string) : option AiPrintResult :=
  JsMap.get (normalizeHex hex) (cache st).

End WithJsonParse.

End AiColorService.

(* ================================================================== *)
(** ** hooks/useAiCmyk.ts

    The hook is a transition system.  React runs the effect after the
    first render and after every render whose [hexKey] differs from the one
    of the previous run; before it runs the effect again, and when the
    component is unmounted, it calls the cleanup function the previous run
    returned.  Every run of the effect has its own [cancelled] variable;
    the promise of its fetch settles at some later time, in any order. *)

Module UseAiCmyk.

Import AiColorService.
Local Open Scope string_scope.

Record ColorRecord := {
  id : string;
  hex : string
}.

Record Hook := {
  aiResults : Recipes;
  isLoading : bool;
  (** the [cancelled] variable of every run of the effect that started a
      fetch, oldest first *)
  cancelled : list bool;
  (** the run whose cleanup function React holds *)
  cleanup : option nat;
  (** the dependency of the last run of the effect *)
  hexKey : option string;
  unmounted : bool
}.

(** [useState(new Map())], [useState(false)], before the first render. *)
Definition initial : Hook :=
  {| aiResults := JsMap.empty; isLoading := false; cancelled := [];
     cleanup := None; hexKey := None; unmounted := false |}.

Inductive Event :=
| Render (colors : list ColorRecord)
(** cleanup and effect run again with the same key, as [React.StrictMode]
    does once after the mount in development *)
| Rerun (colors : list ColorRecord)
| Resolved (run : nat) (results : Recipes)
| Rejected (run : nat)
| Unmount.

Fixpoint set_flag (run : nat) (flags : list bool) : list bool :=
  match flags, run with
  | [], _ => []
  | _ :: rest, O => true :: rest
  | flag :: rest, S run' => flag :: set_flag run' rest
  end.

(** [() => { cancelled = true; }] of the run React holds, if any. *)
Definition run_cleanup (h : Hook) : list bool :=
  match cleanup h with
  | Some run => set_flag run (cancelled h)
  | None => cancelled h
  end.

Definition is_cancelled (run : nat) (h : Hook) : bool :=
  nth run (cancelled h) true.

Definition same_key (previous : option string) (key : string) : bool :=
  match previous with
  | Some key' => String.eqb key' key
  | None => false
  end.

(** One run of the effect, after the cleanup of the previous run. *)
Definition run_effect (key : string) (colors : list ColorRecord) (h : Hook) : Hook :=
  let flags := run_cleanup h in
  match colors with
  | [] =>
      (* [if (colors.length === 0) return;] *)
      {| aiResults := aiResults h; isLoading := isLoading h;
         cancelled := flags; cleanup := None;
         hexKey := Some key; unmounted := false |}
  | _ :: _ =>
      (* [let cancelled = false; setIsLoading(true); fetchAiCmykBatch(...)] *)
      {| aiResults := aiResults h; isLoading := true;
         cancelled := flags ++ [false];
         cleanup := Some (List.length flags);
         hexKey := Some key; unmounted := false |}
  end.

Definition step (h : Hook) (ev : Event) : Hook :=
  match ev with
  | Render colors =>
      let key := String.concat "," (map hex colors) in
      if unmounted h || same_key (hexKey h) key then h
      else run_effect key colors h
  | Rerun colors =>
      let key := String.concat "," (map hex colors) in
      if unmounted h then h else run_effect key colors h
  | Resolved run results =>
      if is_cancelled run h then h
      else
        {| aiResults := JsMap.set_all results (aiResults h);
           isLoading := false;
           cancelled := cancelled h; cleanup := cleanup h;
           hexKey := hexKey h; unmounted := unmounted h |}
  | Rejected run =>
      if is_cancelled run h then h
      else
        {| aiResults := aiResults h; isLoading := false;
           cancelled := cancelled h; cleanup := cleanup h;
           hexKey := hexKey h; unmounted := unmounted h |}
  | Unmount =>
      {| aiResults := aiResults h; isLoading := isLoading h;
         cancelled := run_cleanup h; cleanup := None;
         hexKey := hexKey h; unmounted := true |}
  end.

Definition run_events (events : list Event) : Hook :=
  fold_left step events initial.

(** What the component that uses the hook can observe. *)
Definition observed (h : Hook) : Recipes * bool := (aiResults h, isLoading h).

(** The run of the effect that was started last, if its fetch is still
    the current one. *)
Definition current (h : Hook) : option nat := cleanup h.

End UseAiCmyk.

(* ================================================================== *)
(** ** utils/colorUtils.ts: [getContrastType] *)

Module Contrast.

Import Number JsString Types ColorUtils.
Local Open Scope js_scope.

(** [enum ContrastType { LIGHT, DARK }] *)
Inductive ContrastType := LIGHT | DARK.

Definition getContrastType (hex : string) : ContrastType :=
  if negb (isValidHex hex) then DARK
  else
    let rgb := hexToRgb hex in
    let yiq := (r rgb * #299 + g rgb * #587 + b rgb * #114) / #1000 in
    if yiq >=? #128 then DARK else LIGHT.

End Contrast.

(* ================================================================== *)
(** ** hooks/useAiCmyk.ts: [getResult]

    [getResult] closes over [aiResults] and reads the module-level cache
    through [getCachedResult].  It upper-cases whatever string it is given;
    the case mapping of the engine is a parameter, and coincides with
    [toUpperCase] on strings of ASCII characters. *)

Module Accessor.

Import JsString Types ColorUtils AiColorService.

Section WithCaseMapping.

(** [String.prototype.toUpperCase] *)
Variable toUpperCase_js : string -> string.

(** [hex.toUpperCase().startsWith('#') ? hex.toUpperCase()
     : `#${hex.toUpperCase()}`] *)
Definition accessKey (hex : string) : string :=
  if startsWith_hash (toUpperCase_js hex) then toUpperCase_js hex
  else String "#" (toUpperCase_js hex).

Definition getResult (aiResults : Recipes) (st : State) (hex : string)
  : AiPrintResult :=
  let normalized := accessKey hex in
  match JsMap.get normalized aiResults with
  | Some aiResult => aiResult
  | None =>
      match getCachedResult st hex with
      | Some cached => cached
      | None => {| print := getPrintConversions hex; source := src_heuristic |}
      end
  end.

End WithCaseMapping.

Definition is_ascii (s : string) : bool :=
  forallb (fun ch => (code ch <? 128)%nat) (list_ascii_of_string s).

End Accessor.

(* ================================================================== *)
(** ** App.tsx: adding colours, and the fill colour of the PDF export *)

Module App.

Import Number JsString Types ColorUtils.
Local Open Scope string_scope.

Record ColorRecord := {
  id : string;
  hex : string
}.

Record Collection := {
  col_id : string;
  name : string;
  colors : list ColorRecord;
  selectedIds : list string
}.

(** [collections.find(c => c.id === activeCollectionId) || collections[0]] *)
Definition activeCollectionOf (collections : list Collection)
  (activeCollectionId : string) : option Collection :=
  match find (fun c => String.eqb (col_id c) activeCollectionId) collections with
  | Some c => Some c
  | None => hd_error collections
  end.

(** [s.split('\n')]: the pieces between line feeds; at least one piece. *)
Fixpoint split_lines (s : string) : list string :=
  match s with
  | EmptyString => [EmptyString]
  | String ch rest =>
      if (code ch =? 10)%nat then EmptyString :: split_lines rest
      else
        match split_lines rest with
        | line :: others => String ch line :: others
        | [] => [String ch EmptyString]
        end
  end.

(** [for (const record of newRecords)
       if (updatedSelected.length < 12) updatedSelected.push(record.id)] *)
Definition selectNew (newRecords : list ColorRecord) (selected : list string)
  : list string :=
  fold_left
    (fun updatedSelected record =>
       if (List.length updatedSelected <? 12)%nat
       then (updatedSelected ++ [id record])%list else updatedSelected)
    newRecords selected.

Section WithTrim.

(** [String.prototype.trim] *)
Variable trim_js : string -> string.

(** [inputValue.split('\n').map(line => line.trim())
     .filter(line => line !== '' && isValidHex(line))] *)
Definition validLines (inputValue : string) : list string :=
  filter (fun line => negb (String.eqb line EmptyString) && isValidHex line)
         (map trim_js (split_lines inputValue)).

(** [inputValue.split('\n').some(line => isValidHex(line.trim()))] *)
Definition hasValidInput (inputValue : string) : bool :=
  existsb (fun line => isValidHex (trim_js line)) (split_lines inputValue).

(** The records [handleAddColors] builds; [fresh_id n] is the id drawn
    for the [n]-th of them ([Math.random().toString(36).substring(7)]). *)
Definition newRecordsOf (fresh_id : nat -> string) (lines : list string)
  : list ColorRecord :=
  map (fun nl => {| id := fresh_id (fst nl); hex := normalizeHex (snd nl) |})
      (combine (seq 0 (List.length lines)) lines).

(** [handleAddColors]: [activeCollection] is the value of the memo in the
    render the handler belongs to, [prev] the state the updater receives. *)
Definition handleAddColors (fresh_id : nat -> string) (inputValue : string)
  (activeCollectionId : string) (activeCollection : option Collection)
  (prev : list Collection) : list Collection :=
  let lines := validLines inputValue in
  if (0 <? List.length lines)%nat
     && match activeCollection with Some _ => true | None => false end
  then
    let newRecords := newRecordsOf fresh_id lines in
    map (fun col =>
           if negb (String.eqb (col_id col) activeCollectionId) then col
           else
             {| col_id := col_id col; name := name col;
                colors := (newRecords ++ colors col)%list;
                selectedIds := selectNew newRecords (selectedIds col) |})
        prev
  else prev.

End WithTrim.

(** [s.slice(i, j)] for [0 <= i <= j]. *)
Definition slice (i j : nat) (s : string) : string :=
  String.substring i (j - i) s.

(** The fill colour [exportToPdf] computes:
    [parseInt(color.hex.slice(1, 3), 16)] and so on. *)
Definition pdfFill (color_hex : string) : Rgb :=
  {| r := parseInt16 (slice 1 3 color_hex);
     g := parseInt16 (slice 3 5 color_hex);
     b := parseInt16 (slice 5 7 color_hex) |}.

End App.

(* ================================================================== *)
(** * Properties *)

Unset Implicit Arguments.

Import Number JsString Types ColorUtils.
Open Scope string_scope.

(** ** Characters and [normalizeHex] *)

Section NormalizeHex.

Lemma upper_char_idem ch : upper_char (upper_char ch) = upper_char ch.
Proof.
  destruct ch as [[] [] [] [] [] [] [] []]; reflexivity.
Qed.

Lemma upper_char_hex ch : is_hex_digit (upper_char ch) = is_hex_digit ch.
Proof.
  destruct ch as [[] [] [] [] [] [] [] []]; reflexivity.
Qed.

Lemma upper_char_hash ch :
  Ascii.eqb (upper_char ch) "#" = Ascii.eqb ch "#".
Proof.
  destruct ch as [[] [] [] [] [] [] [] []]; reflexivity.
Qed.

Lemma toUpperCase_idem s : toUpperCase (toUpperCase s) = toUpperCase s.
Proof.
  induction s as [|ch s IH]; simpl; [reflexivity|].
  now rewrite upper_char_idem, IH.
Qed.

Lemma toUpperCase_length s : String.length (toUpperCase s) = String.length s.
Proof.
  induction s as [|ch s IH]; simpl; congruence.
Qed.

Lemma toUpperCase_hex s :
  forallb is_hex_digit (list_ascii_of_string (toUpperCase s))
  = forallb is_hex_digit (list_ascii_of_string s).
Proof.
  induction s as [|ch s IH]; simpl; [reflexivity|].
  now rewrite upper_char_hex, IH.
Qed.

Lemma toUpperCase_startsWith s :
  startsWith_hash (toUpperCase s) = startsWith_hash s.
Proof.
  destruct s as [|ch s]; simpl; [reflexivity|apply upper_char_hash].
Qed.

Lemma strip_hash_toUpperCase s :
  strip_hash (toUpperCase s) = toUpperCase (strip_hash s).
Proof.
  destruct s as [|ch s]; [reflexivity|].
  cbn [toUpperCase strip_hash]. rewrite upper_char_hash.
  destruct (Ascii.eqb ch "#"); reflexivity.
Qed.

Lemma isValidHex_toUpperCase s : isValidHex (toUpperCase s) = isValidHex s.
Proof.
  unfold isValidHex. cbv zeta.
  now rewrite strip_hash_toUpperCase, toUpperCase_length, toUpperCase_hex.
Qed.

Lemma normalizeHex_valid s :
  isValidHex (normalizeHex s) = true /\ startsWith_hash (normalizeHex s) = true.
Proof.
  unfold normalizeHex.
  destruct (startsWith_hash s) eqn:Hs.
  - destruct (isValidHex s) eqn:Hv; cbn [negb].
    + now rewrite isValidHex_toUpperCase, toUpperCase_startsWith.
    + split; reflexivity.
  - destruct (isValidHex (String "#" s)) eqn:Hv; cbn [negb].
    + rewrite isValidHex_toUpperCase, toUpperCase_startsWith. now split.
    + split; reflexivity.
Qed.

Lemma normalizeHex_idem s : normalizeHex (normalizeHex s) = normalizeHex s.
Proof.
  destruct (normalizeHex_valid s) as [Hv Hs].
  unfold normalizeHex at 1. rewrite Hs, Hv. cbn [negb].
  unfold normalizeHex.
  destruct (startsWith_hash s);
    match goal with |- context [isValidHex ?x] => destruct (isValidHex x) end;
    cbn [negb]; try reflexivity; apply toUpperCase_idem.
Qed.

Definition is_upper_hex_digit (ch : ascii) : bool :=
  between 48 57 ch || between 65 70 ch.

(** ['#'] followed by exactly [n] digits among [0-9A-F]. *)
Definition upper_hex_form (n : nat) (s : string) : Prop :=
  exists digits,
    s = String "#" digits /\ String.length digits = n /\
    forallb is_upper_hex_digit (list_ascii_of_string digits) = true.

Lemma upper_char_upper_hex ch :
  is_hex_digit ch = true -> is_upper_hex_digit (upper_char ch) = true.
Proof.
  destruct ch as [[] [] [] [] [] [] [] []]; intros H; try reflexivity;
    discriminate H.
Qed.

Lemma toUpperCase_upper_hex s :
  forallb is_hex_digit (list_ascii_of_string s) = true ->
  forallb is_upper_hex_digit (list_ascii_of_string (toUpperCase s)) = true.
Proof.
  induction s as [|ch s IH]; simpl; [reflexivity|].
  intros H. apply andb_true_iff in H as [H1 H2].
  now rewrite upper_char_upper_hex, IH.
Qed.

(** The value of [normalizeHex] on a valid string: '#' and the digits in
    upper case, as many as were given. *)
Lemma normalizeHex_of_valid s :
  isValidHex s = true ->
  normalizeHex s = String "#" (toUpperCase (strip_hash s)).
Proof.
  intros Hv. unfold normalizeHex.
  destruct s as [|ch s].
  - discriminate Hv.
  - cbn [startsWith_hash strip_hash] in *.
    destruct (Ascii.eqb ch "#") eqn:E.
    + rewrite Hv. cbn [negb toUpperCase]. rewrite <- (upper_char_hash ch) in E.
      apply Ascii.eqb_eq in E. now rewrite E.
    + assert (Hv' : isValidHex (String "#" (String ch s)) = true).
      { unfold isValidHex in *. cbn [strip_hash] in *.
        rewrite E in Hv. exact Hv. }
      rewrite Hv'. reflexivity.
Qed.

Lemma normalizeHex_of_invalid s :
  isValidHex s = false -> normalizeHex s = "#FFFFFF".
Proof.
  intros Hv. unfold normalizeHex.
  destruct s as [|ch s]; [reflexivity|].
  cbn [startsWith_hash].
  destruct (Ascii.eqb ch "#") eqn:E.
  - now rewrite Hv.
  - assert (Hv' : isValidHex (String "#" (String ch s)) = false).
    { unfold isValidHex in *. cbn [strip_hash] in *.
      rewrite E in Hv. exact Hv. }
    now rewrite Hv'.
Qed.

Lemma normalizeHex_form s n :
  isValidHex s = true -> String.length (strip_hash s) = n ->
  upper_hex_form n (normalizeHex s).
Proof.
  intros Hv Hn. rewrite (normalizeHex_of_valid _ Hv).
  exists (toUpperCase (strip_hash s)). split; [reflexivity|]. split.
  - now rewrite toUpperCase_length.
  - apply toUpperCase_upper_hex.
    unfold isValidHex in Hv. now apply andb_true_iff in Hv as [_ Hv].
Qed.

End NormalizeHex.

(** C4, as stated, fails: a valid three-digit string is normalized to four
    characters, not seven. *)
Lemma normalizeHex_short_form_not_expanded :
  isValidHex "abc" = true /\ normalizeHex "abc" = "#ABC" /\
  String.length (normalizeHex "abc") <> 7%nat.
Proof.
  repeat split; try reflexivity. cbn. discriminate.
Qed.

(** C4 (amended): [normalizeHex] is idempotent on every string; a valid
    six-digit string, with or without '#', becomes the seven-character
    upper-case [#RRGGBB]; a valid three-digit string becomes the
    four-character upper-case [#RGB] and is not expanded; every invalid
    string becomes exactly [#FFFFFF]. *)
Theorem normalizeHex_contract (x : string) :
  normalizeHex (normalizeHex x) = normalizeHex x /\
  (isValidHex x = true -> String.length (strip_hash x) = 6%nat ->
   upper_hex_form 6 (normalizeHex x) /\ String.length (normalizeHex x) = 7%nat) /\
  (isValidHex x = true -> String.length (strip_hash x) = 3%nat ->
   upper_hex_form 3 (normalizeHex x) /\ String.length (normalizeHex x) = 4%nat) /\
  (isValidHex x = true ->
   String.length (strip_hash x) = 3%nat \/ String.length (strip_hash x) = 6%nat) /\
  (isValidHex x = false -> normalizeHex x = "#FFFFFF").
Proof.
  split; [apply normalizeHex_idem|].
  assert (Hlen : forall n, isValidHex x = true -> String.length (strip_hash x) = n ->
            upper_hex_form n (normalizeHex x) /\ String.length (normalizeHex x) = S n).
  { intros n Hv Hn. split; [now apply normalizeHex_form|].
    rewrite (normalizeHex_of_valid _ Hv). cbn [String.length].
    now rewrite toUpperCase_length, Hn. }
  split; [apply Hlen|]. split; [apply Hlen|]. split.
  - intros Hv. unfold isValidHex in Hv. apply andb_true_iff in Hv as [Hv _].
    apply orb_true_iff in Hv as [Hv|Hv]; apply Nat.eqb_eq in Hv; auto.
  - apply normalizeHex_of_invalid.
Qed.

Lemma normalizeHex_contract_witness :
  (upper_hex_form 6 (normalizeHex "6366f1") /\
   String.length (normalizeHex "6366f1") = 7%nat) /\
  (upper_hex_form 3 (normalizeHex "#abc") /\
   String.length (normalizeHex "#abc") = 4%nat) /\
  normalizeHex "#12345g" = "#FFFFFF".
Proof.
  split; [|split].
  - apply (proj1 (proj2 (normalizeHex_contract "6366f1"))); reflexivity.
  - apply (proj1 (proj2 (proj2 (normalizeHex_contract "#abc")))); reflexivity.
  - apply (proj2 (proj2 (proj2 (proj2 (normalizeHex_contract "#12345g"))))).
    reflexivity.
Defined.

(* ================================================================== *)
(** ** Numbers: the order and the encoding of integers *)

Section NumberFacts.

Local Open Scope Z_scope.

Definition finite_pos (mant : positive) (e : Z) : number := S754_finite false mant e.

(** The comparison of two positive finite numbers is lexicographic. *)
Definition lex_lt (e1 : Z) (m1 : positive) (e2 : Z) (m2 : positive) : Prop :=
  e1 < e2 \/ (e1 = e2 /\ (m1 < m2)%positive).

Lemma compare_finite_pos m1 e1 m2 e2 :
  match SFcompare (finite_pos m1 e1) (finite_pos m2 e2) with
  | Some Lt => lex_lt e1 m1 e2 m2
  | Some Eq => e1 = e2 /\ m1 = m2
  | Some Gt => lex_lt e2 m2 e1 m1
  | None => False
  end.
Proof.
  unfold finite_pos, SFcompare, lex_lt.
  change (Pos.compare_cont Eq m1 m2) with (Pos.compare m1 m2).
  destruct (Z.compare_spec e1 e2); try lia.
  destruct (Pos.compare_spec m1 m2); lia.
Qed.

Lemma compare_antisym (a x : number) :
  SFcompare x a = match SFcompare a x with
                  | Some o => Some (CompOpp o)
                  | None => None
                  end.
Proof.
  destruct a as [[]|[]| |[] ma ea], x as [[]|[]| |[] mx ex]; try reflexivity;
    unfold SFcompare;
    rewrite (Z.compare_antisym ex ea);
    change (Pos.compare_cont Eq ?p ?q) with (Pos.compare p q);
    rewrite (Pos.compare_antisym mx ma);
    destruct (ex ?= ea); cbn; try reflexivity;
    destruct (mx ?= ma)%positive; reflexivity.
Qed.

Lemma ltb_leb a x : ltb a x = true -> leb a x = true.
Proof.
  unfold ltb, leb, SFltb, SFleb. destruct (SFcompare a x) as [[]|]; congruence.
Qed.

Lemma ltb_not_leb a x : ltb a x = true -> leb x a = false.
Proof.
  unfold ltb, leb, SFltb, SFleb. rewrite (compare_antisym a x).
  destruct (SFcompare a x) as [[]|]; cbn; congruence.
Qed.

(** For constants [c1 < c2]: above [c2] is not below [c1]. *)
Lemma leb_above m1 e1 m2 e2 x :
  ltb (finite_pos m1 e1) (finite_pos m2 e2) = true ->
  leb (finite_pos m2 e2) x = true -> leb x (finite_pos m1 e1) = false.
Proof.
  unfold ltb, leb, SFltb, SFleb. intros H12 H2x.
  rewrite (compare_antisym (finite_pos m1 e1) x).
  destruct x as [[]|[]| |[] mx ex]; try reflexivity; try discriminate H2x.
  fold (finite_pos mx ex) in *.
  pose proof (compare_finite_pos m1 e1 m2 e2) as A.
  pose proof (compare_finite_pos m2 e2 mx ex) as B.
  pose proof (compare_finite_pos m1 e1 mx ex) as C.
  destruct (SFcompare (finite_pos m1 e1) (finite_pos m2 e2)) as [[]|];
    try discriminate H12.
  destruct (SFcompare (finite_pos m2 e2) (finite_pos mx ex)) as [[]|];
    try discriminate H2x;
    destruct (SFcompare (finite_pos m1 e1) (finite_pos mx ex)) as [[]|];
    cbn; try reflexivity; unfold lex_lt in *; try lia; try contradiction.
Qed.

(** For constants [c1 < c2]: below [c1] is not above [c2]. *)
Lemma leb_below m1 e1 m2 e2 x :
  ltb (finite_pos m1 e1) (finite_pos m2 e2) = true ->
  leb x (finite_pos m1 e1) = true -> leb (finite_pos m2 e2) x = false.
Proof.
  intros H12 Hx1.
  destruct (leb (finite_pos m2 e2) x) eqn:E; [|reflexivity].
  rewrite (leb_above _ _ _ _ x H12 E) in Hx1. discriminate.
Qed.

End NumberFacts.

(* ================================================================== *)
(** ** The heuristic rule chain *)

Section RuleSelection.

Local Open Scope js_scope.

Ltac hue_constants :=
  repeat match goal with
         | |- context [of_Z ?n] =>
             let v := eval vm_compute in (of_Z n) in change (of_Z n) with v
         | H : context [of_Z ?n] |- _ =>
             let v := eval vm_compute in (of_Z n) in change (of_Z n) with v in H
         end;
  repeat match goal with
         | |- context [S754_finite false ?mant ?e] =>
             change (S754_finite false mant e) with (finite_pos mant e)
         | H : context [S754_finite false ?mant ?e] |- _ =>
             change (S754_finite false mant e) with (finite_pos mant e) in H
         end.

Lemma pass_through cS mS yS kS :
  smart_cmyk (apply_rule NoRule cS mS yS kS)
  = {| c := cS; m := mS; y := yS; k := kS |}.
Proof. reflexivity. Qed.

Lemma not_black normalized :
  normalized <> "#000000" -> String.eqb normalized "#000000" = false.
Proof. intros H. now apply String.eqb_neq. Qed.

Ltac refute_leb :=
  match goal with
  | H : leb ?hi ?x = true |- context [leb ?x ?lo] =>
      rewrite (leb_above _ _ _ _ x (eq_refl : ltb lo hi = true) H)
  | H : leb ?x ?lo = true |- context [leb ?hi ?x] =>
      rewrite (leb_below _ _ _ _ x (eq_refl : ltb lo hi = true) H)
  | H : ltb ?lo ?x = true |- context [leb ?x ?lo] =>
      rewrite (ltb_not_leb _ _ H)
  | H : ltb ?x ?hi = true |- context [leb ?hi ?x] =>
      rewrite (ltb_not_leb _ _ H)
  end.

Ltac with_leb :=
  repeat match goal with
         | H : ltb ?a ?x = true |- _ =>
             lazymatch goal with
             | _ : leb a x = true |- _ => fail
             | _ => pose proof (ltb_leb _ _ H)
             end
         end.

Ltac rule_chain :=
  unfold select_rule, geb; hue_constants;
  intros; with_leb;
  repeat match goal with
         | H : ?t = _ |- context [?t] => rewrite H
         end;
  repeat refute_leb;
  rewrite ?andb_false_r, ?orb_false_r; cbn [andb orb];
  rewrite ?andb_false_r, ?orb_false_r; cbn [andb orb];
  try reflexivity.

Lemma rule_warm_low normalized hue :
  normalized <> "#000000" ->
  (#0 <=? hue) = true -> (hue <=? #50) = true ->
  select_rule normalized hue = AntiMud.
Proof.
  intros Hn H0 H50. unfold select_rule, geb.
  now rewrite (not_black _ Hn), H0, H50.
Qed.

Lemma rule_warm_high normalized hue :
  normalized <> "#000000" ->
  (#330 <=? hue) = true -> (hue <=? #360) = true ->
  select_rule normalized hue = AntiMud.
Proof.
  intros Hn H0 H50. unfold select_rule, geb.
  rewrite (not_black _ Hn), H0, H50. cbn. now rewrite orb_true_r.
Qed.

Lemma rule_blue normalized hue :
  normalized <> "#000000" ->
  (#190 <=? hue) = true -> (hue <=? #260) = true ->
  select_rule normalized hue = AntiPurple.
Proof.
  intros Hn. unfold select_rule. rewrite (not_black _ Hn). clear Hn.
  rule_chain.
Qed.

Lemma rule_green normalized hue :
  normalized <> "#000000" ->
  (#70 <=? hue) = true -> (hue <=? #165) = true ->
  select_rule normalized hue = CleanGreen.
Proof.
  intros Hn. unfold select_rule. rewrite (not_black _ Hn). clear Hn.
  rule_chain.
Qed.

Lemma rule_gap_50_70 normalized hue :
  normalized <> "#000000" ->
  (#50 <? hue) = true -> (hue <? #70) = true ->
  select_rule normalized hue = NoRule.
Proof.
  intros Hn. unfold select_rule. rewrite (not_black _ Hn). clear Hn.
  rule_chain.
Qed.

Lemma rule_gap_165_190 normalized hue :
  normalized <> "#000000" ->
  (#165 <? hue) = true -> (hue <? #190) = true ->
  select_rule normalized hue = NoRule.
Proof.
  intros Hn. unfold select_rule. rewrite (not_black _ Hn). clear Hn.
  rule_chain.
Qed.

Lemma rule_gap_260_330 normalized hue :
  normalized <> "#000000" ->
  (#260 <? hue) = true -> (hue <? #330) = true ->
  select_rule normalized hue = NoRule.
Proof.
  intros Hn. unfold select_rule. rewrite (not_black _ Hn). clear Hn.
  rule_chain.
Qed.

End RuleSelection.

Definition hue_of (hex : string) : number :=
  let rgb := hexToRgb (normalizeHex hex) in getHue (r rgb) (g rgb) (b rgb).

Definition smart_of (hex : string) : CmykValues :=
  smart_cmyk (smart_print_recipe (conversions (getPrintConversions hex))).

Definition standard_of (hex : string) : CmykValues :=
  standard_cmyk (standard_auto (conversions (getPrintConversions hex))).

Definition rule_of (hex : string) : rule :=
  select_rule (normalizeHex hex) (hue_of hex).

Lemma rule_warm_points normalized hue :
  normalized <> "#000000" ->
  (hue = #0 \/ hue = #50 -> select_rule normalized hue = AntiMud)%js.
Proof.
  intros Hn [-> | ->]; apply rule_warm_low; trivial; vm_compute; reflexivity.
Qed.

Lemma rule_blue_points normalized hue :
  normalized <> "#000000" ->
  (hue = #190 \/ hue = #260 -> select_rule normalized hue = AntiPurple)%js.
Proof.
  intros Hn [-> | ->]; apply rule_blue; trivial; vm_compute; reflexivity.
Qed.

Lemma rule_green_points normalized hue :
  normalized <> "#000000" ->
  (hue = #70 \/ hue = #165 -> select_rule normalized hue = CleanGreen)%js.
Proof.
  intros Hn [-> | ->]; apply rule_green; trivial; vm_compute; reflexivity.
Qed.

Lemma standard_of_unfold hex :
  standard_of hex
  = let rgb := hexToRgb (normalizeHex hex) in
    standardCmyk (r rgb) (g rgb) (b rgb).
Proof. reflexivity. Qed.

Lemma smart_of_rule hex :
  smart_of hex
  = smart_cmyk (apply_rule (rule_of hex)
                           (c (standard_of hex)) (m (standard_of hex))
                           (y (standard_of hex)) (k (standard_of hex))).
Proof.
  rewrite standard_of_unfold.
  unfold smart_of, rule_of, hue_of, getPrintConversions.
  cbv zeta. cbn [conversions smart_print_recipe]. reflexivity.
Qed.

Lemma no_rule_pass_through hex :
  rule_of hex = NoRule -> smart_of hex = standard_of hex.
Proof.
  intros H. rewrite smart_of_rule, H, pass_through.
  now destruct (standard_of hex).
Qed.



(* ================================================================== *)
(** ** [Math.round] and [clamp] *)

Section Clamp.

Local Open Scope Z_scope.

Lemma digits2_bounds p :
  2 ^ (Zpos (digits2_pos p) - 1) <= Zpos p < 2 ^ Zpos (digits2_pos p).
Proof.
  induction p as [p IH|p IH|]; cbn [digits2_pos].
  - rewrite Pos2Z.inj_succ.
    replace (Z.succ (Zpos (digits2_pos p)) - 1) with (Z.succ (Zpos (digits2_pos p) - 1)) by lia.
    rewrite !Z.pow_succ_r by lia. lia.
  - rewrite Pos2Z.inj_succ.
    replace (Z.succ (Zpos (digits2_pos p)) - 1) with (Z.succ (Zpos (digits2_pos p) - 1)) by lia.
    rewrite !Z.pow_succ_r by lia. lia.
  - cbn. lia.
Qed.

Lemma digits2_le_53 p : Zpos p < 2 ^ 53 -> Zpos (digits2_pos p) <= 53.
Proof.
  intros H. pose proof (digits2_bounds p) as [L _].
  destruct (Z_le_gt_dec (Zpos (digits2_pos p)) 53) as [|G]; [assumption|exfalso].
  assert (2 ^ 53 <= 2 ^ (Zpos (digits2_pos p) - 1)) by (apply Z.pow_le_mono_r; lia).
  lia.
Qed.

Lemma iter_xO_digits p q :
  digits2_pos (Pos.iter xO p q) = (digits2_pos p + q)%positive.
Proof.
  induction q as [|q IH] using Pos.peano_ind.
  - cbn. lia.
  - rewrite Pos.iter_succ. cbn [digits2_pos]. rewrite IH. lia.
Qed.

Lemma iter_xO_value p q : Zpos (Pos.iter xO p q) = Zpos p * 2 ^ Zpos q.
Proof.
  induction q as [|q IH] using Pos.peano_ind.
  - cbn. lia.
  - rewrite Pos.iter_succ, Pos2Z.inj_xO, IH, Pos2Z.inj_succ, Z.pow_succ_r by lia.
    lia.
Qed.

(** The mantissa and the exponent of the double that is the integer [p]. *)
Definition int_mantissa (p : positive) : positive :=
  match (53 - Zpos (digits2_pos p))%Z with
  | Zpos q => Pos.iter xO p q
  | _ => p
  end.

Definition int_exponent (p : positive) : Z := Zpos (digits2_pos p) - 53.

Lemma int_mantissa_digits p :
  Zpos (digits2_pos p) <= 53 -> Zpos (digits2_pos (int_mantissa p)) = 53.
Proof.
  intros H. unfold int_mantissa.
  destruct (53 - Zpos (digits2_pos p)) as [|q|q] eqn:E; try lia.
  rewrite iter_xO_digits. lia.
Qed.

Lemma int_mantissa_value p :
  Zpos (digits2_pos p) <= 53 ->
  Zpos (int_mantissa p) = Zpos p * 2 ^ (53 - Zpos (digits2_pos p)).
Proof.
  intros H. unfold int_mantissa.
  destruct (53 - Zpos (digits2_pos p)) as [|q|q] eqn:E; try lia.
  apply iter_xO_value.
Qed.

Lemma round_aux_canonical s mz ez :
  Zpos (digits2_pos mz) = 53 -> -1074 <= ez <= 971 ->
  binary_round_aux prec emax s (Zpos mz) ez loc_Exact = S754_finite s mz ez.
Proof.
  intros Hd He.
  unfold binary_round_aux, shr_fexp, fexp, emin, Zdigits2, prec, emax.
  rewrite Hd.
  replace (Z.max (53 + ez - 53) (3 - 1024 - 53) - ez) with 0 by lia.
  cbn [shr shr_record_of_loc loc_of_shr_record shr_m round_nearest_even Zdigits2].
  rewrite Hd.
  replace (Z.max (53 + ez - 53) (3 - 1024 - 53) - ez) with 0 by lia.
  cbn [shr shr_record_of_loc shr_m].
  destruct (Z.leb_spec ez (1024 - 53)); [reflexivity|lia].
Qed.

Lemma binary_round_int s p :
  Zpos (digits2_pos p) <= 53 ->
  binary_round prec emax s p 0 = S754_finite s (int_mantissa p) (int_exponent p).
Proof.
  intros H. unfold binary_round, shl_align, fexp, emin, prec, emax.
  pose proof (int_mantissa_digits p H) as Hm.
  unfold int_mantissa, int_exponent in *.
  replace (Z.max (Zpos (digits2_pos p) + 0 - 53) (3 - 1024 - 53) - 0)
    with (Zpos (digits2_pos p) - 53) by lia.
  replace (Z.max (Zpos (digits2_pos p) + 0 - 53) (3 - 1024 - 53))
    with (Zpos (digits2_pos p) - 53) by lia.
  destruct (53 - Zpos (digits2_pos p)) as [|q|q] eqn:E; try lia.
  - replace (Zpos (digits2_pos p) - 53) with 0 by lia.
    apply round_aux_canonical; [assumption|lia].
  - replace (Zpos (digits2_pos p) - 53) with (Zneg q) by lia.
    apply round_aux_canonical; [assumption|lia].
Qed.

Lemma of_Z_pos p :
  Zpos p < 2 ^ 53 ->
  of_Z (Zpos p) = S754_finite false (int_mantissa p) (int_exponent p).
Proof.
  intros H. apply binary_round_int. now apply digits2_le_53.
Qed.

Lemma of_Z_neg p :
  Zpos p < 2 ^ 53 ->
  of_Z (Zneg p) = S754_finite true (int_mantissa p) (int_exponent p).
Proof.
  intros H. apply binary_round_int. now apply digits2_le_53.
Qed.

Lemma int_lex_lt a b :
  Zpos a < 2 ^ 53 -> Zpos b < 2 ^ 53 ->
  lex_lt (int_exponent a) (int_mantissa a) (int_exponent b) (int_mantissa b) ->
  Zpos a < Zpos b.
Proof.
  intros Ha Hb [Hlt | [Heq Hlt]]; unfold int_exponent in *.
  - pose proof (digits2_bounds a) as [_ Ua].
    pose proof (digits2_bounds b) as [Lb _].
    assert (2 ^ Zpos (digits2_pos a) <= 2 ^ (Zpos (digits2_pos b) - 1))
      by (apply Z.pow_le_mono_r; lia).
    lia.
  - pose proof (int_mantissa_value a (digits2_le_53 a Ha)) as Va.
    pose proof (int_mantissa_value b (digits2_le_53 b Hb)) as Vb.
    assert (E : Zpos (digits2_pos a) = Zpos (digits2_pos b)) by lia.
    rewrite E in Va.
    assert (0 < 2 ^ (53 - Zpos (digits2_pos b))).
    { apply Z.pow_pos_nonneg; [lia|]. pose proof (digits2_le_53 b Hb). lia. }
    assert (Zpos (int_mantissa a) < Zpos (int_mantissa b)) by lia.
    nia.
Qed.

Lemma int_lex_eq a b :
  Zpos a < 2 ^ 53 -> Zpos b < 2 ^ 53 ->
  int_exponent a = int_exponent b -> int_mantissa a = int_mantissa b ->
  Zpos a = Zpos b.
Proof.
  intros Ha Hb He Hm. unfold int_exponent in *.
  pose proof (int_mantissa_value a (digits2_le_53 a Ha)) as Va.
  pose proof (int_mantissa_value b (digits2_le_53 b Hb)) as Vb.
  assert (E : Zpos (digits2_pos a) = Zpos (digits2_pos b)) by lia.
  rewrite E, Hm in Va.
  assert (0 < 2 ^ (53 - Zpos (digits2_pos b))).
  { apply Z.pow_pos_nonneg; [lia|]. pose proof (digits2_le_53 b Hb). lia. }
  nia.
Qed.

(** On integers below 2^53 the order of numbers is the order of integers. *)
Lemma compare_of_Z a b :
  Zpos a < 2 ^ 53 -> Zpos b < 2 ^ 53 ->
  SFcompare (of_Z (Zpos a)) (of_Z (Zpos b)) = Some (Zpos a ?= Zpos b).
Proof.
  intros Ha Hb. rewrite (of_Z_pos a Ha), (of_Z_pos b Hb).
  pose proof (compare_finite_pos (int_mantissa a) (int_exponent a)
                                 (int_mantissa b) (int_exponent b)) as C.
  unfold finite_pos in C.
  destruct (SFcompare _ _) as [[]|]; [| | |contradiction]; f_equal; symmetry.
  - destruct C as [He Hm]. pose proof (int_lex_eq a b Ha Hb He Hm).
    apply Z.compare_eq_iff. assumption.
  - apply Z.compare_lt_iff. now apply int_lex_lt.
  - apply Z.compare_gt_iff. now apply int_lex_lt.
Qed.

(** The integer [Math.round] computes: [floor (x + 1/2)]. *)
Definition nearest_integer (x : number) : option Z :=
  match x with
  | S754_zero _ => Some 0
  | S754_finite s mant (Zneg q) => Some (round_half_up s mant q)
  | S754_finite s mant e => Some (cond_Zopp s (Zpos mant * 2 ^ e))
  | S754_infinity _ | S754_nan => None
  end.

(** [round_half_up] is the nearest integer, the upper one at a tie:
    [n - 1/2 <= v < n + 1/2] for [v = sm / 2^q]. *)
Lemma round_half_up_nearest s mant q :
  let n := round_half_up s mant q in
  let sm := cond_Zopp s (Zpos mant) in
  2 ^ Zpos q * (2 * n - 1) <= 2 * sm < 2 ^ Zpos q * (2 * n + 1).
Proof.
  cbv zeta. unfold round_half_up.
  set (sm := cond_Zopp s (Zpos mant)).
  assert (P : 0 < 2 ^ Zpos q) by (apply Z.pow_pos_nonneg; lia).
  replace (Zpos q + 1) with (Z.succ (Zpos q)) by lia.
  rewrite Z.pow_succ_r by lia.
  pose proof (Z.mul_div_le (2 * sm + 2 ^ Zpos q) (2 * 2 ^ Zpos q) ltac:(lia)).
  pose proof (Z.mul_succ_div_gt (2 * sm + 2 ^ Zpos q) (2 * 2 ^ Zpos q) ltac:(lia)).
  nia.
Qed.

Lemma valid_mantissa s mant e :
  valid_binary prec emax (S754_finite s mant e) = true ->
  Zpos mant < 2 ^ 53 /\ (0 <= e -> 2 ^ 52 <= Zpos mant).
Proof.
  unfold valid_binary, bounded, canonical_mantissa, fexp, emin, prec, emax.
  intros H. apply andb_true_iff in H as [H _]. apply Z.eqb_eq in H.
  pose proof (digits2_bounds mant) as [L U].
  split.
  - assert (Zpos (digits2_pos mant) <= 53) by lia.
    assert (2 ^ Zpos (digits2_pos mant) <= 2 ^ 53) by (apply Z.pow_le_mono_r; lia).
    lia.
  - intros He. assert (Zpos (digits2_pos mant) = 53) by lia.
    replace (Zpos (digits2_pos mant) - 1) with 52 in L by lia. exact L.
Qed.

Import AiColorService.

Lemma clamp_unfold x : clamp x = max2 (of_Z 0) (min2 (of_Z 100) (Math_round x)).
Proof. reflexivity. Qed.

Lemma min2_100_pos p :
  Zpos p < 2 ^ 53 -> min2 (of_Z 100) (of_Z (Zpos p)) = of_Z (Z.min 100 (Zpos p)).
Proof.
  intros Hp. unfold min2. rewrite (compare_of_Z 100 p) by (cbn; lia || assumption).
  destruct (Z.compare_spec 100 (Zpos p)) as [E|L|G].
  - rewrite <- E. reflexivity.
  - rewrite Z.min_l by lia. reflexivity.
  - rewrite Z.min_r by lia. reflexivity.
Qed.

Lemma max2_0_pos p : Zpos p < 2 ^ 53 -> max2 (of_Z 0) (of_Z (Zpos p)) = of_Z (Zpos p).
Proof.
  intros Hp. rewrite (of_Z_pos p Hp). reflexivity.
Qed.

Lemma clamp_of_pos p : Zpos p < 2 ^ 53 ->
  max2 (of_Z 0) (min2 (of_Z 100) (of_Z (Zpos p))) = of_Z (Z.max 0 (Z.min 100 (Zpos p))).
Proof.
  intros Hp. rewrite (min2_100_pos p Hp).
  destruct (Z.min 100 (Zpos p)) as [|r|r] eqn:E; try lia.
  rewrite max2_0_pos by lia. reflexivity.
Qed.

Lemma clamp_of_neg p : Zpos p < 2 ^ 53 ->
  max2 (of_Z 0) (min2 (of_Z 100) (of_Z (Zneg p))) = of_Z 0.
Proof.
  intros Hp. rewrite (of_Z_neg p Hp). reflexivity.
Qed.

Lemma round_half_up_bound s mant q :
  Zpos mant < 2 ^ 53 -> - 2 ^ 53 < round_half_up s mant q < 2 ^ 53.
Proof.
  intros Hm. pose proof (round_half_up_nearest s mant q) as N. cbv zeta in N.
  set (n := round_half_up s mant q) in *.
  assert (P : 2 <= 2 ^ Zpos q).
  { change 2 with (2 ^ 1) at 1. apply Z.pow_le_mono_r; lia. }
  assert (B : - 2 ^ 53 < cond_Zopp s (Zpos mant) < 2 ^ 53)
    by (destruct s; cbn [cond_Zopp]; lia).
  set (sm := cond_Zopp s (Zpos mant)) in *.
  set (t := 2 ^ Zpos q) in *.
  set (u := 2 ^ 53) in *.
  assert (0 < u) by (subst u; lia).
  split; nia.
Qed.

(** NaN, which is what [Math.round] makes of an absent component, passes
    through [clamp]. *)
Lemma clamp_nan : clamp NaN = NaN.
Proof. reflexivity. Qed.

(** [clamp] on a number that is not NaN: an integer in [0,100], the
    nearest integer of the argument brought into that range. *)
Lemma clamp_value x :
  valid_binary prec emax x = true -> is_nan x = false ->
  exists n, 0 <= n <= 100 /\ clamp x = of_Z n /\
            (forall z, nearest_integer x = Some z -> n = Z.max 0 (Z.min 100 z)).
Proof.
  intros Hv Hn. rewrite clamp_unfold.
  destruct x as [s|s| |s mant e]; [| |discriminate Hn|].
  - exists 0. split; [lia|]. split; [destruct s; reflexivity|].
    intros z [= <-]. reflexivity.
  - destruct s.
    + exists 0. split; [lia|]. split; [reflexivity|discriminate].
    + exists 100. split; [lia|]. split; [reflexivity|discriminate].
  - destruct (valid_mantissa s mant e Hv) as [Hm Hbig].
    destruct e as [|e|q].
    + specialize (Hbig ltac:(lia)).
      destruct s.
      * exists 0. split; [lia|]. split; [reflexivity|].
        intros z [= <-]. cbn [cond_Zopp]. lia.
      * exists 100. split; [lia|]. split; [reflexivity|].
        intros z [= <-]. cbn [cond_Zopp]. lia.
    + specialize (Hbig ltac:(lia)).
      assert (0 < 2 ^ Zpos e) by (apply Z.pow_pos_nonneg; lia).
      assert (Zpos mant <= Zpos mant * 2 ^ Zpos e) by nia.
      assert (Ez : forall z, nearest_integer (S754_finite s mant (Zpos e)) = Some z ->
                   z = cond_Zopp s (Zpos mant * 2 ^ Zpos e))
        by (intros z Hz; unfold nearest_integer in Hz; congruence).
      destruct s.
      * exists 0. split; [lia|]. split; [reflexivity|].
        intros z Hz. rewrite (Ez z Hz). unfold cond_Zopp. lia.
      * exists 100. split; [lia|]. split; [reflexivity|].
        intros z Hz. rewrite (Ez z Hz). unfold cond_Zopp. lia.
    + cbn [Math_round nearest_integer].
      pose proof (round_half_up_bound s mant q Hm) as B.
      destruct (round_half_up s mant q) as [|r|r] eqn:E; cbn [Z.eqb].
      * exists 0. split; [lia|]. split; [destruct s; reflexivity|].
        intros z [= <-]. reflexivity.
      * exists (Z.max 0 (Z.min 100 (Zpos r))). split; [lia|].
        split; [apply clamp_of_pos; lia|]. now intros z [= <-].
      * exists 0. split; [lia|]. split; [apply clamp_of_neg; lia|].
        intros z [= <-]. lia.
Qed.

End Clamp.

(* ================================================================== *)
(** ** The standard conversion stays within [0,100] *)

Section StandardConversion.

Local Open Scope Z_scope.

(** An integer percentage. *)
Definition percent (v : number) : Prop :=
  exists n, 0 <= n <= 100 /\ v = of_Z n.

Definition percent_cmyk (v : CmykValues) : Prop :=
  percent (c v) /\ percent (m v) /\ percent (y v) /\ percent (k v).

(** [x / 255] for a channel value [x]. *)
Definition prime (a : Z) : number := div (of_Z a) (of_Z 255).

Definition range256 : list Z := map Z.of_nat (seq 0 256).

Lemma in_range256 a : 0 <= a < 256 -> In a range256.
Proof.
  intros H. unfold range256. rewrite <- (Z2Nat.id a) by lia.
  apply in_map, in_seq. lia.
Qed.

Definition is_comparison (o : option comparison) (cmp : comparison) : bool :=
  match o, cmp with
  | Some Lt, Lt | Some Eq, Eq | Some Gt, Gt => true
  | _, _ => false
  end.

Lemma forallb2_sound (A : Type) (f : A -> A -> bool) (l : list A) :
  forallb (fun p => forallb (f p) l) l = true ->
  forall p q, In p l -> In q l -> f p q = true.
Proof.
  intros T p q Hp Hq. rewrite forallb_forall in T.
  specialize (T p Hp). rewrite forallb_forall in T. exact (T q Hq).
Qed.

(** The 256 quotients, each with its channel value. *)
Definition labelled_primes : list (Z * number) :=
  Eval vm_compute in map (fun a => (a, prime a)) range256.

Lemma labelled_primes_eq :
  labelled_primes = map (fun a => (a, prime a)) range256.
Proof. vm_compute. reflexivity. Qed.

Definition ordered_as_integers (p q : Z * number) : bool :=
  is_comparison (SFcompare (snd p) (snd q)) (fst p ?= fst q).

(** The 256 quotients are ordered as the channel values are. *)
Lemma primes_ordered_true :
  forallb (fun p => forallb (ordered_as_integers p) labelled_primes) labelled_primes
  = true.
Proof. vm_compute. reflexivity. Qed.

Lemma in_labelled_primes a : 0 <= a < 256 -> In (a, prime a) labelled_primes.
Proof.
  intros Ha. rewrite labelled_primes_eq.
  apply (in_map (fun a => (a, prime a))). now apply in_range256.
Qed.

Lemma compare_primes a b :
  0 <= a < 256 -> 0 <= b < 256 -> SFcompare (prime a) (prime b) = Some (a ?= b).
Proof.
  intros Ha Hb.
  pose proof (forallb2_sound _ ordered_as_integers labelled_primes
                primes_ordered_true (a, prime a) (b, prime b)
                (in_labelled_primes a Ha) (in_labelled_primes b Hb)) as T.
  unfold ordered_as_integers in T. cbn [fst snd] in T.
  destruct (SFcompare (prime a) (prime b)) as [[]|], (a ?= b);
    try discriminate T; reflexivity.
Qed.

Lemma max2_neg_infinity v : max2 NegInfinity v = v.
Proof. destruct v as [[]|[]| |[] mant e]; reflexivity. Qed.

Lemma max2_primes a b :
  0 <= a < 256 -> 0 <= b < 256 -> max2 (prime a) (prime b) = prime (Z.max a b).
Proof.
  intros Ha Hb. unfold max2. rewrite (compare_primes a b Ha Hb).
  destruct (Z.compare_spec a b) as [E|L|G].
  - subst b. rewrite Z.max_id.
    destruct (prime a) as [[]|[]| |[] mant e]; reflexivity.
  - now rewrite Z.max_r by lia.
  - now rewrite Z.max_l by lia.
Qed.

Lemma Math_max_primes r g b :
  0 <= r < 256 -> 0 <= g < 256 -> 0 <= b < 256 ->
  Math_max [prime r; prime g; prime b] = prime (Z.max (Z.max r g) b).
Proof.
  intros Hr Hg Hb. unfold Math_max. cbn [fold_left].
  rewrite max2_neg_infinity, (max2_primes r g Hr Hg).
  apply max2_primes; lia.
Qed.

(** *** The table of channel values

    The 32 896 pairs of a channel value and a maximum are evaluated on the
    kernel's primitive floats; the library's specification of the
    primitive operations ([FloatAxioms]) states that they compute the
    [SpecFloat] operations the model is written with. *)

Import PrimFloat FloatOps.

Definition fprime (a : Z) : float :=
  PrimFloat.div (of_uint63 (Uint63.of_Z a)) 255%float.

(** [((1 - xPrime - kStd) / (1 - kStd)) * 100] *)
Definition fvalue (xPrime kStd : float) : float :=
  PrimFloat.mul
    (PrimFloat.div (PrimFloat.sub (PrimFloat.sub 1%float xPrime) kStd)
                   (PrimFloat.sub 1%float kStd))
    100%float.

(** [round_half_up] with shifts. *)
Definition round_shift (s : bool) (mant q : positive) : Z :=
  Z.shiftr (2 * cond_Zopp s (Zpos mant) + Z.shiftl 1 (Zpos q)) (Zpos q + 1).

Lemma round_shift_eq s mant q : round_half_up s mant q = round_shift s mant q.
Proof.
  unfold round_half_up, round_shift.
  rewrite Z.shiftr_div_pow2, Z.shiftl_mul_pow2 by lia. now rewrite Z.mul_1_l.
Qed.

(** Whether [Math.round v] is an integer percentage. *)
Definition rounds_to_percent (v : number) : bool :=
  match v with
  | S754_zero false => true
  | S754_finite s mant (Zneg q) =>
      let n := round_shift s mant q in
      if n =? 0 then negb s else (0 <? n) && (n <=? 100)
  | _ => false
  end.

Lemma rounds_to_percent_sound v :
  rounds_to_percent v = true -> percent (Math_round v).
Proof.
  destruct v as [[]| | |s mant [|e|q]]; try discriminate.
  - intros _. exists 0. split; [lia|reflexivity].
  - cbn [rounds_to_percent Math_round]. rewrite round_shift_eq.
    destruct (Z.eqb_spec (round_shift s mant q) 0) as [E|E].
    + destruct s; [discriminate|]. intros _. exists 0. split; [lia|reflexivity].
    + intros H. apply andb_true_iff in H as [L U].
      exists (round_shift s mant q). split; [lia|reflexivity].
Qed.

Definition black_ok (x : Z) : bool :=
  let kStd := PrimFloat.sub 1%float (fprime x) in
  rounds_to_percent (Prim2SF (PrimFloat.mul kStd 100%float)).

Definition channel_ok (x a : Z) : bool :=
  let kStd := PrimFloat.sub 1%float (fprime x) in
  if a <=? x
  then PrimFloat.eqb kStd 1%float || rounds_to_percent (Prim2SF (fvalue (fprime a) kStd))
  else true.

Lemma black_table_true : forallb black_ok range256 = true.
Proof. vm_compute. reflexivity. Qed.

Lemma channel_table_true :
  forallb (fun x => forallb (channel_ok x) range256) range256 = true.
Proof. vm_compute. reflexivity. Qed.

Lemma prime_prim a : 0 <= a < 256 -> prime a = Prim2SF (fprime a).
Proof.
  intros Ha. unfold fprime, prime.
  rewrite FloatAxioms.div_spec, FloatAxioms.of_uint63_spec, Uint63.of_Z_spec.
  rewrite Z.mod_small by (change Uint63Axioms.wB with (2 ^ 63); lia).
  reflexivity.
Qed.

Lemma one_minus_prim u :
  Number.sub (Number.of_Z 1) (Prim2SF u) = Prim2SF (PrimFloat.sub 1%float u).
Proof. rewrite FloatAxioms.sub_spec. reflexivity. Qed.

Lemma channelStd_prim xp kStd :
  channelStd (Prim2SF xp) (Prim2SF kStd)
  = if PrimFloat.eqb kStd 1%float then Number.of_Z 0
    else Math_round (Prim2SF (fvalue xp kStd)).
Proof.
  unfold channelStd, fvalue.
  rewrite FloatAxioms.eqb_spec, FloatAxioms.mul_spec, FloatAxioms.div_spec,
    !FloatAxioms.sub_spec.
  reflexivity.
Qed.

Lemma black_prim kStd :
  Number.mul (Prim2SF kStd) (Number.of_Z 100)
  = Prim2SF (PrimFloat.mul kStd 100%float).
Proof. rewrite FloatAxioms.mul_spec. reflexivity. Qed.

Lemma channel_percent a x :
  0 <= a <= x -> x < 256 ->
  percent (channelStd (prime a) (Number.sub (Number.of_Z 1) (prime x))).
Proof.
  intros Ha Hx.
  pose proof (forallb2_sound _ channel_ok range256 channel_table_true x a
                (in_range256 x ltac:(lia)) (in_range256 a ltac:(lia))) as T.
  unfold channel_ok in T. cbv zeta in T.
  destruct (Z.leb_spec a x); [|lia].
  rewrite (prime_prim a), (prime_prim x), one_minus_prim, channelStd_prim by lia.
  destruct (PrimFloat.eqb _ _).
  - exists 0. split; [lia|reflexivity].
  - now apply rounds_to_percent_sound.
Qed.

Lemma black_percent x :
  0 <= x < 256 ->
  percent (Math_round (Number.mul (Number.sub (Number.of_Z 1) (prime x)) (Number.of_Z 100))).
Proof.
  intros Hx. pose proof black_table_true as T.
  rewrite forallb_forall in T. specialize (T x (in_range256 x Hx)).
  unfold black_ok in T. cbv zeta in T.
  rewrite (prime_prim x), one_minus_prim, black_prim by lia.
  now apply rounds_to_percent_sound.
Qed.

(** Every RGB triple has a standard conversion of integer percentages. *)
Lemma standardCmyk_percent r g b :
  0 <= r < 256 -> 0 <= g < 256 -> 0 <= b < 256 ->
  percent_cmyk (standardCmyk (Number.of_Z r) (Number.of_Z g) (Number.of_Z b)).
Proof.
  intros Hr Hg Hb. unfold standardCmyk. cbv zeta.
  fold (prime r) (prime g) (prime b).
  rewrite (Math_max_primes r g b Hr Hg Hb).
  repeat split; cbn [c m y k].
  - apply channel_percent; lia.
  - apply channel_percent; lia.
  - apply channel_percent; lia.
  - apply black_percent; lia.
Qed.

End StandardConversion.

(* ================================================================== *)
(** ** [hexToRgb] on normalized strings *)

Section HexToRgb.

Local Open Scope Z_scope.

Lemma hex_digit_code ch :
  is_hex_digit ch = true ->
  (48 <= code ch <= 57 \/ 65 <= code ch <= 70 \/ 97 <= code ch <= 102)%nat.
Proof.
  unfold is_hex_digit, between. intros H.
  apply orb_true_iff in H as [H|H]; [apply orb_true_iff in H as [H|H]|];
    apply andb_true_iff in H as [L U];
    apply Nat.leb_le in L; apply Nat.leb_le in U; lia.
Qed.

Lemma hex_digit_not ch (other : ascii) :
  is_hex_digit ch = true -> is_hex_digit other = false -> Ascii.eqb ch other = false.
Proof.
  intros H1 H2. apply Ascii.eqb_neq. intros ->. congruence.
Qed.

Lemma hex_digit_not_space ch : is_hex_digit ch = true -> is_space ch = false.
Proof.
  intros H. apply hex_digit_code in H. unfold is_space, between.
  destruct (Nat.leb_spec 9 (code ch)), (Nat.leb_spec (code ch) 13),
    (Nat.eqb_spec (code ch) 32); cbn; try reflexivity; lia.
Qed.

Lemma hex_value_digit ch :
  is_hex_digit ch = true -> exists v, hex_value ch = Some v /\ 0 <= v < 16.
Proof.
  intros H. apply hex_digit_code in H. unfold hex_value, between.
  destruct (Nat.leb_spec 48 (code ch)), (Nat.leb_spec (code ch) 57); cbn [andb].
  1: { eexists. split; [reflexivity|lia]. }
  all: destruct (Nat.leb_spec 65 (code ch)), (Nat.leb_spec (code ch) 70); cbn [andb].
  all: try (eexists; split; [reflexivity|lia]).
  all: destruct (Nat.leb_spec 97 (code ch)), (Nat.leb_spec (code ch) 102); cbn [andb].
  all: try (eexists; split; [reflexivity|lia]).
  all: lia.
Qed.

(** Two hexadecimal digits parse to a channel value. *)
Lemma parseInt16_two d1 d2 :
  is_hex_digit d1 = true -> is_hex_digit d2 = true ->
  exists n, 0 <= n < 256 /\
            parseInt16 (String d1 (String d2 EmptyString)) = Number.of_Z n.
Proof.
  intros H1 H2.
  destruct (hex_value_digit d1 H1) as (v1 & E1 & B1).
  destruct (hex_value_digit d2 H2) as (v2 & E2 & B2).
  exists (16 * v1 + v2). split; [lia|].
  unfold parseInt16. cbn [skip_spaces].
  rewrite (hex_digit_not_space d1 H1).
  rewrite (hex_digit_not d1 "-" H1 eq_refl), (hex_digit_not d1 "+" H1 eq_refl).
  rewrite (hex_digit_not d2 "x" H2 eq_refl), (hex_digit_not d2 "X" H2 eq_refl).
  rewrite andb_false_r. cbn [digits16]. rewrite E1, E2.
  replace (16 * (16 * 0 + v1) + v2) with (16 * v1 + v2) by lia.
  destruct (Z.eqb_spec (16 * v1 + v2) 0) as [E|E].
  - rewrite E. reflexivity.
  - reflexivity.
Qed.

Lemma normalized_shape hex :
  exists digits,
    normalizeHex hex = String "#" digits /\
    (String.length digits = 3%nat \/ String.length digits = 6%nat) /\
    forallb is_hex_digit (list_ascii_of_string digits) = true.
Proof.
  destruct (normalizeHex_valid hex) as [Hv Hs].
  destruct (normalizeHex hex) as [|ch digits]; [discriminate Hs|].
  cbn [startsWith_hash] in Hs. pose proof Hs as Hs'. apply Ascii.eqb_eq in Hs'. subst ch.
  exists digits. split; [reflexivity|].
  unfold isValidHex in Hv. cbn [strip_hash] in Hv. rewrite Hs in Hv.
  apply andb_true_iff in Hv as [Hl Hd]. split; [|exact Hd].
  apply orb_true_iff in Hl as [Hl|Hl]; apply Nat.eqb_eq in Hl; auto.
Qed.

Definition channel (v : number) : Prop := exists n, 0 <= n < 256 /\ v = Number.of_Z n.

Lemma hexToRgb_channels hex :
  let rgb := hexToRgb (normalizeHex hex) in
  channel (r rgb) /\ channel (g rgb) /\ channel (b rgb).
Proof.
  destruct (normalized_shape hex) as (digits & -> & Hl & Hd). cbv zeta.
  unfold hexToRgb. cbn [remove_first_hash]. rewrite Ascii.eqb_refl.
  destruct Hl as [Hl|Hl].
  - destruct digits as [|c1 [|c2 [|c3 [|c4 rest]]]]; try discriminate Hl.
    cbn in Hd.
    apply andb_true_iff in Hd as [H1 Hd]. apply andb_true_iff in Hd as [H2 Hd].
    apply andb_true_iff in Hd as [H3 _].
    cbn [String.length Nat.eqb double_chars r g b].
    unfold substring. cbn [Nat.sub String.substring].
    repeat split; apply parseInt16_two; assumption.
  - destruct digits as [|c1 [|c2 [|c3 [|c4 [|c5 [|c6 [|c7 rest]]]]]]];
      try discriminate Hl.
    cbn in Hd.
    apply andb_true_iff in Hd as [H1 Hd]. apply andb_true_iff in Hd as [H2 Hd].
    apply andb_true_iff in Hd as [H3 Hd]. apply andb_true_iff in Hd as [H4 Hd].
    apply andb_true_iff in Hd as [H5 Hd]. apply andb_true_iff in Hd as [H6 _].
    cbn [String.length Nat.eqb r g b].
    unfold substring. cbn [Nat.sub String.substring].
    repeat split; apply parseInt16_two; assumption.
Qed.

End HexToRgb.

(** C6: for every input (every valid hex string, and every other string,
    which is read as white) the standard conversion of
    [getPrintConversions] consists of four integers in [0,100]; for
    [#FFFFFF] they are all 0; for [#000000] they are 0, 0, 0 and 100, and
    the smart recipe is exactly 60, 40, 40, 100. *)
Theorem standard_conversion_range :
  (forall hex, percent_cmyk (standard_of hex)) /\
  standard_of "#FFFFFF" = {| c := #0; m := #0; y := #0; k := #0 |}%js /\
  standard_of "#000000" = {| c := #0; m := #0; y := #0; k := #100 |}%js /\
  smart_of "#000000" = {| c := #60; m := #40; y := #40; k := #100 |}%js.
Proof.
  split; [|repeat split; vm_compute; reflexivity].
  intros hex. rewrite standard_of_unfold.
  destruct (hexToRgb_channels hex) as ((nr & Hr & Er) & (ng & Hg & Eg) & (nb & Hb & Eb)).
  cbv zeta in *. rewrite Er, Eg, Eb.
  now apply standardCmyk_percent.
Qed.

(* ================================================================== *)
(** ** Maps *)

Section MapFacts.

Variable V : Type.

Implicit Types (mp src dst : JsMap.t V) (key : string) (v : V).

Lemma get_In key v mp : JsMap.get key mp = Some v -> In (key, v) mp.
Proof.
  induction mp as [|[key' v'] mp IH]; cbn; [discriminate|].
  destruct (String.eqb_spec key' key) as [->|N].
  - intros [= ->]. now left.
  - intros H. right. now apply IH.
Qed.

Lemma get_set_same key v mp : JsMap.get key (JsMap.set key v mp) = Some v.
Proof.
  induction mp as [|[key' v'] mp IH]; cbn.
  - now rewrite String.eqb_refl.
  - destruct (String.eqb_spec key' key) as [->|N]; cbn.
    + now rewrite String.eqb_refl.
    + destruct (String.eqb_spec key' key); [contradiction|exact IH].
Qed.

Lemma get_set_other key key' v mp :
  key <> key' -> JsMap.get key (JsMap.set key' v mp) = JsMap.get key mp.
Proof.
  intros N. induction mp as [|[key0 v0] mp IH]; cbn.
  - destruct (String.eqb_spec key' key); [congruence|reflexivity].
  - destruct (String.eqb_spec key0 key') as [->|N0]; cbn.
    + destruct (String.eqb_spec key' key); [congruence|reflexivity].
    + destruct (String.eqb_spec key0 key); [reflexivity|exact IH].
Qed.

Lemma In_set key v key' v' mp :
  In (key, v) (JsMap.set key' v' mp) -> (key = key' /\ v = v') \/ In (key, v) mp.
Proof.
  induction mp as [|[key0 v0] mp IH]; cbn.
  - intros [[= <- <-]|[]]. now left.
  - destruct (String.eqb_spec key0 key') as [->|N0]; cbn.
    + intros [[= <- <-]|H]; [now left|right; now right].
    + intros [H|H]; [right; now left|].
      destruct (IH H) as [?|?]; [now left|right; now right].
Qed.

Lemma In_set_all key v src dst :
  In (key, v) (JsMap.set_all src dst) -> In (key, v) src \/ In (key, v) dst.
Proof.
  unfold JsMap.set_all. revert dst.
  induction src as [|[key0 v0] src IH]; cbn; intros dst H; [now right|].
  destruct (IH _ H) as [H'|H']; [left; now right|].
  apply In_set in H' as [[-> ->]|H']; [left; now left|now right].
Qed.

(** A map all of whose values are determined by their keys. *)
Lemma get_set_all_determined (f : string -> V) key src dst :
  (forall key' v, In (key', v) src -> v = f key') ->
  In key (JsMap.keys src) ->
  JsMap.get key (JsMap.set_all src dst) = Some (f key).
Proof.
  unfold JsMap.set_all, JsMap.keys. intros Hf.
  assert (G : forall l dst, (forall key' v, In (key', v) l -> v = f key') ->
              JsMap.get key dst = Some (f key) ->
              JsMap.get key (fold_left (fun acc kv => JsMap.set (fst kv) (snd kv) acc) l dst)
              = Some (f key)).
  { induction l as [|[key0 v0] l IH]; cbn; intros dst0 Hl Hd; [exact Hd|].
    apply IH; [intros; apply Hl; now right|].
    destruct (String.eqb_spec key key0) as [->|N].
    - rewrite get_set_same. f_equal. apply Hl. now left.
    - now rewrite get_set_other. }
  revert dst Hf. induction src as [|[key0 v0] src IH]; cbn; intros dst Hf Hin; [contradiction|].
  destruct Hin as [->|Hin].
  - apply G; [intros; apply Hf; now right|].
    rewrite get_set_same. f_equal. apply Hf. now left.
  - apply IH; [intros; apply Hf; now right|exact Hin].
Qed.

Lemma In_slice_last (n : nat) key v mp :
  In (key, v) (JsMap.slice_last n mp) -> In (key, v) mp.
Proof.
  unfold JsMap.slice_last. intros H.
  rewrite <- (firstn_skipn (List.length mp - n) mp). apply in_or_app. now right.
Qed.

(** [for (const key of l) mp.set(key, f(key))] *)
Lemma get_fold_set_other (f : string -> V) key l mp :
  ~ In key l ->
  JsMap.get key (fold_left (fun acc key' => JsMap.set key' (f key') acc) l mp)
  = JsMap.get key mp.
Proof.
  revert mp. induction l as [|key0 l IH]; cbn; intros mp N; [reflexivity|].
  rewrite IH by tauto. apply get_set_other. intros ->. tauto.
Qed.

Lemma get_fold_set_keep (f : string -> V) key l mp :
  JsMap.get key mp = Some (f key) ->
  JsMap.get key (fold_left (fun acc key' => JsMap.set key' (f key') acc) l mp)
  = Some (f key).
Proof.
  revert mp. induction l as [|key0 l IH]; cbn; intros mp H; [exact H|].
  apply IH. destruct (string_dec key key0) as [->|N].
  - apply get_set_same.
  - now rewrite get_set_other.
Qed.

Lemma get_fold_set (f : string -> V) key l mp :
  In key l ->
  JsMap.get key (fold_left (fun acc key' => JsMap.set key' (f key') acc) l mp)
  = Some (f key).
Proof.
  revert mp. induction l as [|key0 l IH]; cbn; intros mp H; [contradiction|].
  destruct H as [->|H]; [|now apply IH].
  apply get_fold_set_keep, get_set_same.
Qed.

Lemma In_fold_set (f : string -> V) key v l mp :
  In (key, v) (fold_left (fun acc key' => JsMap.set key' (f key') acc) l mp) ->
  v = f key \/ In (key, v) mp.
Proof.
  revert mp. induction l as [|key0 l IH]; cbn; intros mp H; [now right|].
  destruct (IH _ H) as [?|H']; [now left|].
  apply In_set in H' as [[-> ->]|H']; [now left|now right].
Qed.

End MapFacts.

Section MoreMapFacts.

Variable V : Type.

Lemma In_keys_set (key key' : string) (v : V) (mp : JsMap.t V) :
  In key (JsMap.keys mp) -> In key (JsMap.keys (JsMap.set key' v mp)).
Proof.
  unfold JsMap.keys. induction mp as [|[key0 v0] mp IH]; cbn; [contradiction|].
  destruct (String.eqb_spec key0 key') as [->|N]; cbn; intros [H|H]; auto.
Qed.

Lemma In_keys_set_same (key : string) (v : V) (mp : JsMap.t V) :
  In key (JsMap.keys (JsMap.set key v mp)).
Proof.
  unfold JsMap.keys. induction mp as [|[key0 v0] mp IH]; cbn; [now left|].
  destruct (String.eqb_spec key0 key) as [->|N]; cbn; auto.
Qed.

Lemma has_In_keys (key : string) (mp : JsMap.t V) :
  JsMap.has key mp = true -> In key (JsMap.keys mp).
Proof.
  unfold JsMap.has, JsMap.keys.
  induction mp as [|[key0 v0] mp IH]; cbn; [discriminate|].
  destruct (String.eqb_spec key0 key) as [->|N]; auto.
Qed.

Lemma has_get (key : string) (mp : JsMap.t V) :
  JsMap.has key mp = true -> exists v, JsMap.get key mp = Some v.
Proof.
  unfold JsMap.has. destruct (JsMap.get key mp) as [v|]; [eauto|discriminate].
Qed.

Lemma has_false_get (key : string) (mp : JsMap.t V) :
  JsMap.has key mp = false -> JsMap.get key mp = None.
Proof.
  unfold JsMap.has. destruct (JsMap.get key mp) as [v|]; [discriminate|reflexivity].
Qed.

End MoreMapFacts.

(* ================================================================== *)
(** ** [fetchAiCmykBatch] *)

Section Service.

Import AiColorService.

Variable JSON_parse : string -> Parsed.

(** The normalized inputs that are not in the cache, in the order and
    with the multiplicity of the input. *)
Definition uncachedOf (st : State) (hexCodes : list string) : list string :=
  filter (fun hex => negb (JsMap.has hex (cache st))) (map normalizeHex hexCodes).

Lemma partition_uncached cache0 hexCodes res unc :
  snd (partition cache0 hexCodes res unc)
  = (unc ++ filter (fun hex => negb (JsMap.has hex cache0)) (map normalizeHex hexCodes))%list.
Proof.
  revert res unc. induction hexCodes as [|hex l IH]; cbn; intros res unc.
  - now rewrite app_nil_r.
  - unfold JsMap.has.
    destruct (JsMap.get (normalizeHex hex) cache0) as [e|]; cbn [negb].
    + apply IH.
    + rewrite IH, <- app_assoc. reflexivity.
Qed.

Lemma partition_results_In cache0 hexCodes res unc key e :
  In (key, e) (fst (partition cache0 hexCodes res unc)) ->
  In (key, e) res \/ JsMap.get key cache0 = Some e.
Proof.
  revert res unc. induction hexCodes as [|hex l IH]; cbn; intros res unc H.
  - now left.
  - destruct (JsMap.get (normalizeHex hex) cache0) as [e0|] eqn:G.
    + destruct (IH _ _ H) as [H'|H']; [|now right].
      apply In_set in H' as [[-> ->]|H']; [now right|now left].
    + exact (IH _ _ H).
Qed.

Lemma partition_results_keep cache0 hexCodes res unc key e :
  JsMap.get key cache0 = Some e -> JsMap.get key res = Some e ->
  JsMap.get key (fst (partition cache0 hexCodes res unc)) = Some e.
Proof.
  intros Hc. revert res unc. induction hexCodes as [|hex l IH]; cbn; intros res unc H.
  - exact H.
  - destruct (JsMap.get (normalizeHex hex) cache0) as [e0|] eqn:G.
    + apply IH. destruct (string_dec key (normalizeHex hex)) as [->|N].
      * rewrite get_set_same. congruence.
      * now rewrite get_set_other.
    + now apply IH.
Qed.

Lemma partition_results_get cache0 hexCodes res unc hex e :
  In hex hexCodes -> JsMap.get (normalizeHex hex) cache0 = Some e ->
  JsMap.get (normalizeHex hex) (fst (partition cache0 hexCodes res unc)) = Some e.
Proof.
  intros Hin Hc. revert res unc.
  induction hexCodes as [|hex0 l IH]; cbn; intros res unc; [contradiction|].
  destruct Hin as [->|Hin].
  - rewrite Hc. apply partition_results_keep; [exact Hc|apply get_set_same].
  - destruct (JsMap.get (normalizeHex hex0) cache0); now apply IH.
Qed.

(** [fetchAiCmykBatch] with the first loop named. *)
Lemma fetch_unfold env st hexCodes :
  fetchAiCmykBatch JSON_parse env st hexCodes
  = let results0 := fst (partition (cache st) hexCodes JsMap.empty []) in
    let uncached := uncachedOf st hexCodes in
    if (List.length uncached =? 0)%nat then
      {| results := results0; state := st; requests := [] |}
    else if no_credential (GEMINI_API_KEY env) then
      {| results := fallbackAll uncached results0;
         state := persistCache (storage_writable env)
                    (with_cache st (fallbackAll uncached (cache st)));
         requests := [] |}
    else
      let apiKey := match GEMINI_API_KEY env with
                    | Some key => key | None => EmptyString end in
      let request := {| url := endpoint ++ apiKey; prompt := buildPrompt uncached |} in
      match fetch env request with
      | Response true (BodyText text) =>
          let parsed := parseAiResponse JSON_parse text uncached in
          {| results := JsMap.set_all parsed results0;
             state := persistCache (storage_writable env)
                        (with_cache st (JsMap.set_all parsed (cache st)));
             requests := [request] |}
      | Rejects | Response false _ | Response true BodyThrows =>
          {| results := fallbackAll uncached results0;
             state := st;
             requests := [request] |}
      end.
Proof.
  unfold fetchAiCmykBatch, uncachedOf.
  pose proof (partition_uncached (cache st) hexCodes JsMap.empty []) as U.
  destruct (partition (cache st) hexCodes JsMap.empty []) as [results0 uncached].
  cbn [fst snd app] in *. subst uncached. reflexivity.
Qed.

(** *** The fallback loops *)

Lemma fallbackAll_get hex uncached res :
  In hex uncached ->
  JsMap.get hex (fallbackAll uncached res) = Some (heuristicFallback hex).
Proof. apply (get_fold_set _ heuristicFallback). Qed.

Lemma fallbackAll_other hex uncached res :
  ~ In hex uncached ->
  JsMap.get hex (fallbackAll uncached res) = JsMap.get hex res.
Proof. apply (get_fold_set_other _ heuristicFallback). Qed.

Lemma fallbackAll_In key e uncached res :
  In (key, e) (fallbackAll uncached res) ->
  e = heuristicFallback key \/ In (key, e) res.
Proof. apply (In_fold_set _ heuristicFallback). Qed.

Lemma fillMissing_In key e requested res :
  In (key, e) (fillMissing requested res) ->
  e = heuristicFallback key \/ In (key, e) res.
Proof.
  unfold fillMissing. revert res.
  induction requested as [|hex l IH]; cbn; intros res H; [now right|].
  destruct (IH _ H) as [?|H']; [now left|].
  destruct (JsMap.has hex res); cbn [negb] in H'; [now right|].
  apply In_set in H' as [[-> ->]|H']; [now left|now right].
Qed.

Lemma fillMissing_keys_keep key requested res :
  In key (JsMap.keys res) -> In key (JsMap.keys (fillMissing requested res)).
Proof.
  unfold fillMissing. revert res.
  induction requested as [|hex l IH]; cbn; intros res H; [exact H|].
  apply IH. destruct (JsMap.has hex res); cbn [negb]; [exact H|].
  now apply In_keys_set.
Qed.

Lemma fillMissing_keys hex requested res :
  In hex requested -> In hex (JsMap.keys (fillMissing requested res)).
Proof.
  unfold fillMissing. revert res.
  induction requested as [|hex0 l IH]; cbn; intros res H; [contradiction|].
  destruct H as [->|H]; [|now apply IH].
  apply fillMissing_keys_keep.
  destruct (JsMap.has hex res) eqn:E; cbn [negb].
  - now apply has_In_keys.
  - apply In_keys_set_same.
Qed.

(** *** The loop over the decoded array *)

Lemma parseLoop_In elements res key e :
  In (key, e) (fst (parseLoop elements res)) ->
  In (key, e) res \/
  exists item, In (Item item) elements /\ (key, e) = aiResultOf item.
Proof.
  revert res. induction elements as [|[item|] l IH]; cbn [parseLoop]; intros res H.
  - now left.
  - destruct (aiResultOf item) as [normalized r0] eqn:E.
    destruct (IH _ H) as [H'|(item' & Hi & He)].
    + apply In_set in H' as [[-> ->]|H']; [|now left].
      right. exists item. split; [now left|now rewrite E].
    + right. exists item'. split; [now right|exact He].
  - now left.
Qed.

Lemma parseAiResponse_In text requested key e :
  In (key, e) (parseAiResponse JSON_parse text requested) ->
  e = heuristicFallback key \/
  exists elements item,
    JSON_parse (clean text) = Elements elements /\
    In (Item item) elements /\ (key, e) = aiResultOf item.
Proof.
  unfold parseAiResponse.
  destruct (JSON_parse (clean text)) as [| |elements] eqn:P.
  - intros H. apply fillMissing_In in H as [?|[]]. now left.
  - intros H. apply fillMissing_In in H as [?|[]]. now left.
  - destruct (parseLoop elements JsMap.empty) as [res thrown] eqn:L.
    assert (F : forall key e, In (key, e) res ->
                exists item, In (Item item) elements /\ (key, e) = aiResultOf item).
    { intros key0 e0 H0.
      pose proof (parseLoop_In elements JsMap.empty key0 e0) as Q.
      rewrite L in Q. destruct (Q H0) as [[]|?]. assumption. }
    destruct thrown; intros H.
    + apply fillMissing_In in H as [?|H]; [now left|].
      right. exists elements. destruct (F _ _ H) as (item & ? & ?). eauto.
    + right. exists elements. destruct (F _ _ H) as (item & ? & ?). eauto.
Qed.

(** When the text is no JSON array, every requested hex gets the heuristic. *)
Lemma parseAiResponse_unparseable text requested :
  JSON_parse (clean text) = SyntaxError \/ JSON_parse (clean text) = NotIterable ->
  parseAiResponse JSON_parse text requested = fillMissing requested JsMap.empty.
Proof. unfold parseAiResponse. now intros [-> | ->]. Qed.

End Service.

Section ServiceContract.

Import AiColorService.

Variable JSON_parse : string -> Parsed.

(** The remote call gives nothing to decode: [fetch] rejects, the status
    is not ok, the body is no JSON, or the text is no JSON (or JSON that is
    no array). *)
Definition remote_failed (res : FetchResult) : Prop :=
  match res with
  | Rejects => True
  | Response false _ => True
  | Response true BodyThrows => True
  | Response true (BodyText text) =>
      JSON_parse (clean text) = SyntaxError \/ JSON_parse (clean text) = NotIterable
  end.

(** [fetch] rejects or the status is not ok. *)
Definition transport_failed (res : FetchResult) : Prop :=
  match res with
  | Rejects | Response false _ => True
  | Response true _ => False
  end.

Lemma results0_In st hexCodes key e :
  In (key, e) (fst (partition (cache st) hexCodes JsMap.empty [])) ->
  JsMap.get key (cache st) = Some e.
Proof.
  intros H. apply partition_results_In in H as [[]|H]. exact H.
Qed.

Lemma length_zero_nil (A : Type) (l : list A) :
  (List.length l =? 0)%nat = true -> l = [].
Proof. destruct l; [reflexivity|discriminate]. Qed.

(** C2: with a credential, when the remote call fails (network error,
    status not ok, a body or a text that is no JSON), every uncached hex
    is in the returned mapping with its heuristic recipe, and the mapping
    holds nothing else than heuristic recipes and entries of the cache:
    nothing of the payload. *)
Theorem remote_failure_falls_back env st hexCodes :
  no_credential (GEMINI_API_KEY env) = false ->
  (forall request, remote_failed (fetch env request)) ->
  let out := fetchAiCmykBatch JSON_parse env st hexCodes in
  (forall hex, In hex (uncachedOf st hexCodes) ->
     JsMap.get hex (results out) = Some (heuristicFallback hex)) /\
  (forall key e, In (key, e) (results out) ->
     e = heuristicFallback key \/ JsMap.get key (cache st) = Some e).
Proof.
  intros Hcred Hfail. cbv zeta. rewrite fetch_unfold. cbv zeta.
  destruct (List.length (uncachedOf st hexCodes) =? 0)%nat eqn:El.
  - apply length_zero_nil in El. rewrite El. cbn [results]. split.
    + intros hex [].
    + intros key e H. right. now apply results0_In with hexCodes.
  - rewrite Hcred.
    match goal with |- context [fetch env ?rq] => specialize (Hfail rq);
      destruct (fetch env rq) as [|[] [|text]] end;
      cbn [results remote_failed] in *.
    3: { (* the text is no JSON *)
      rewrite (parseAiResponse_unparseable _ _ _ Hfail). split.
      - intros hex Hin.
        apply (get_set_all_determined _ heuristicFallback).
        + intros key' v H. apply fillMissing_In in H as [?|[]]. assumption.
        + now apply fillMissing_keys.
      - intros key e H. apply In_set_all in H as [H|H].
        + apply fillMissing_In in H as [?|[]]. now left.
        + right. now apply results0_In with hexCodes. }
    all: split;
      [ intros hex Hin; now apply fallbackAll_get
      | intros key e H; apply fallbackAll_In in H as [?|H];
        [now left|right; now apply results0_In with hexCodes] ].
Qed.


(** C5 (amended): when every normalized input is in the cache, the call
    returns at once: no request is made and the state is untouched; the
    returned mapping holds, for every input, the entry of the cache, and
    nothing else; an entry carries the provenance under which it is in the
    cache, which is ['cache'] for every entry that [hydrateCache] loaded. *)
Theorem all_cached_returns_cache_entries env st hexCodes :
  (forall hex, In hex hexCodes -> JsMap.has (normalizeHex hex) (cache st) = true) ->
  let out := fetchAiCmykBatch JSON_parse env st hexCodes in
  requests out = [] /\ state out = st /\
  (forall hex, In hex hexCodes ->
     JsMap.get (normalizeHex hex) (results out)
     = JsMap.get (normalizeHex hex) (cache st)) /\
  (forall key e, In (key, e) (results out) -> JsMap.get key (cache st) = Some e) /\
  (forall stored key e,
     In (key, e) (hydrateCache stored) -> source e = src_cache).
Proof.
  intros Hall. cbv zeta. rewrite fetch_unfold. cbv zeta.
  assert (U : uncachedOf st hexCodes = []).
  { unfold uncachedOf. induction hexCodes as [|hex l IH]; [reflexivity|].
    cbn [map filter]. rewrite (Hall hex (or_introl eq_refl)). cbn [negb].
    apply IH. intros h Hh. apply Hall. now right. }
  rewrite U. cbn [List.length Nat.eqb results state requests].
  split; [reflexivity|]. split; [reflexivity|]. split; [|split].
  - intros hex Hin.
    destruct (has_get _ _ _ (Hall hex Hin)) as [e He]. rewrite He.
    now apply partition_results_get.
  - intros key e H. now apply results0_In with hexCodes.
  - intros stored key e. unfold hydrateCache.
    destruct stored as [| |entries]; try (intros []).
    assert (G : forall l acc,
              (forall key e, In (key, e) acc -> source e = src_cache) ->
              forall key e,
                In (key, e)
                   (fold_left (fun acc kv =>
                                 JsMap.set (fst kv) (with_source src_cache (snd kv)) acc)
                              l acc) ->
                source e = src_cache).
    { induction l as [|[k0 v0] l IH]; cbn [fold_left fst snd]; intros acc Ha k1 e1 H1.
      - now apply Ha with k1.
      - apply (IH (JsMap.set k0 (with_source src_cache v0) acc)) with k1;
          [|exact H1].
        intros k2 e2 H2. apply In_set in H2 as [[_ ->]|H2];
          [reflexivity|now apply Ha with k2]. }
    apply G. intros ? ? [].
Qed.

(** C9 (amended): the input is normalized, not deduplicated.  A call
    makes at most one request; the request it makes carries the normalized
    inputs that are not in the cache, in the order of the input and once
    for every occurrence in the input; a request is made exactly when
    there is a credential and some input is not cached. *)
Theorem batch_request_carries_uncached env st hexCodes :
  let out := fetchAiCmykBatch JSON_parse env st hexCodes in
  let uncached :=
    filter (fun hex => negb (JsMap.has hex (cache st))) (map normalizeHex hexCodes) in
  (List.length (requests out) <= 1)%nat /\
  (forall request, In request (requests out) ->
     prompt request = buildPrompt uncached) /\
  (requests out <> [] <->
   uncached <> [] /\ no_credential (GEMINI_API_KEY env) = false).
Proof.
  cbv zeta. rewrite fetch_unfold. cbv zeta. fold (uncachedOf st hexCodes).
  destruct (List.length (uncachedOf st hexCodes) =? 0)%nat eqn:El.
  - apply length_zero_nil in El. rewrite El. cbn [requests List.length].
    split; [lia|]. split; [intros ? []|]. split; [congruence|]. intros [? _]. congruence.
  - assert (Hne : uncachedOf st hexCodes <> []) by (intros E; rewrite E in El; discriminate).
    destruct (no_credential (GEMINI_API_KEY env)) eqn:Hc.
    + cbn [requests List.length]. split; [lia|]. split; [intros ? []|].
      split; [congruence|]. intros [_ ?]. congruence.
    + match goal with |- context [fetch env ?rq] =>
        destruct (fetch env rq) as [|[] [|text]] end;
        cbn [requests List.length]; (split; [lia|]);
        (split; [intros ? [<-|[]]; reflexivity|]);
        (split; [intros _; now split|intros _; discriminate]).
Qed.

End ServiceContract.

(* ================================================================== *)
(** ** The components of a remote answer *)

Section RemoteComponents.

Import AiColorService.
Local Open Scope Z_scope.

Variable JSON_parse : string -> Parsed.

(** A binary64 value that is not NaN: what a JSON number decodes to. *)
Definition numeric (x : number) : Prop :=
  valid_binary prec emax x = true /\ is_nan x = false.

Definition numeric_item (item : AiItem) : Prop :=
  numeric (item_c item) /\ numeric (item_m item) /\
  numeric (item_y item) /\ numeric (item_k item).

(** The components [JSON.parse] delivers are numbers. *)
Definition decodes_numbers : Prop :=
  forall text elements item,
    JSON_parse text = Elements elements -> In (Item item) elements ->
    numeric_item item.

Definition smart_recipe_of (e : AiPrintResult) : CmykValues :=
  smart_cmyk (smart_print_recipe (conversions (print e))).

(** The literal [130.7]. *)
Definition lit_130_7 : number := Eval vm_compute in div (of_Z 1307) (of_Z 10).

(** Where an entry comes from: it was in a cache tier before the call, it
    is the heuristic recipe of its key, or it was built from an element of
    the remote answer and its smart recipe consists of integer
    percentages. *)
Definition accounted (st : State) (key : string) (e : AiPrintResult) : Prop :=
  In (key, e) (cache st) \/
  (exists l, localStorage st = Entries l /\ In (key, e) l) \/
  e = heuristicFallback key \/
  (source e = src_ai /\ percent_cmyk (smart_recipe_of e)).

Lemma clamp_percent x : numeric x -> percent (clamp x).
Proof.
  intros [Hv Hn]. destruct (clamp_value x Hv Hn) as (n & B & E & _).
  exists n. now split.
Qed.

Lemma aiResultOf_clamped item :
  smart_recipe_of (snd (aiResultOf item))
  = {| c := clamp (item_c item); m := clamp (item_m item);
       y := clamp (item_y item); k := clamp (item_k item) |}.
Proof. reflexivity. Qed.

Lemma aiResultOf_accounted st item key e :
  numeric_item item -> (key, e) = aiResultOf item -> accounted st key e.
Proof.
  intros (Hc & Hm & Hy & Hk) E. right. right. right.
  assert (Ee : e = snd (aiResultOf item)) by now rewrite <- E.
  subst e. split; [reflexivity|].
  rewrite aiResultOf_clamped. repeat split; cbn [c m y k]; now apply clamp_percent.
Qed.

Lemma parsed_accounted st text requested key e :
  decodes_numbers ->
  In (key, e) (parseAiResponse JSON_parse text requested) -> accounted st key e.
Proof.
  intros Hd H. apply parseAiResponse_In in H as [->|(elements & item & P & Hi & E)].
  - right. right. now left.
  - apply aiResultOf_accounted with item; [|exact E]. now apply (Hd _ _ _ P).
Qed.


End RemoteComponents.

(* ================================================================== *)
(** ** Scenarios *)

Module Scenario.

Import AiColorService.

(** A remote answer inside a code fence, covering [#FF0000] only:
    [[{"hex":"#ff0000","c":130.7,"m":99.5,"y":-3.2,"k":0,"explanation":"Pure red."}]] *)
Definition answer_json : string :=
  "[{" ++ quoted "hex" ++ ":" ++ quoted "#ff0000" ++ ","
       ++ quoted "c" ++ ":130.7," ++ quoted "m" ++ ":99.5,"
       ++ quoted "y" ++ ":-3.2," ++ quoted "k" ++ ":0,"
       ++ quoted "explanation" ++ ":" ++ quoted "Pure red." ++ "}]".

Definition answer_text : string :=
  "```json" ++ nl ++ answer_json ++ nl ++ "```".

(** The literals [99.5] and [-3.2]. *)
Definition lit_99_5 : number := Eval vm_compute in div (of_Z 199) (of_Z 2).
Definition lit_minus_3_2 : number := Eval vm_compute in div (of_Z (-32)) (of_Z 10).

Definition red_item : AiItem :=
  {| item_hex := "#ff0000";
     item_c := lit_130_7;
     item_m := lit_99_5;
     item_y := lit_minus_3_2;
     item_k := of_Z 0;
     item_explanation := "Pure red.";
     item_paper := EmptyString |}.

(** [JSON.parse] on the texts of the scenarios. *)
Definition parse (text : string) : Parsed :=
  if String.eqb text answer_json then Elements [Item red_item] else SyntaxError.

Definition key : option string := Some "AIza-scenario-key".

(** The remote service answers [answer_text]. *)
Definition answering : Env :=
  {| GEMINI_API_KEY := key;
     fetch := fun _ => Response true (BodyText answer_text);
     storage_writable := true |}.

(** The remote service answers text that is no JSON. *)
Definition garbling : Env :=
  {| GEMINI_API_KEY := key;
     fetch := fun _ => Response true (BodyText "Sorry, I cannot help with that.");
     storage_writable := true |}.

(** The network is down. *)
Definition offline : Env :=
  {| GEMINI_API_KEY := key;
     fetch := fun _ => Rejects;
     storage_writable := true |}.

(** The service answers 503. *)
Definition unavailable : Env :=
  {| GEMINI_API_KEY := key;
     fetch := fun _ => Response false BodyThrows;
     storage_writable := true |}.

(** No credential is configured. *)
Definition unconfigured : Env :=
  {| GEMINI_API_KEY := Some "PLACEHOLDER_API_KEY";
     fetch := fun _ => Rejects;
     storage_writable := true |}.

(** A fresh session with nothing stored. *)
Definition fresh : State := initial_state NoItem.

Definition source_of (key : string) (mp : Recipes) : option Source :=
  option_map source (JsMap.get key mp).

Definition smart_at (key : string) (mp : Recipes) : option CmykValues :=
  option_map smart_recipe_of (JsMap.get key mp).

(** The number of places at which [needle] occurs in [hay]. *)
Fixpoint occurrences (needle hay : string) : nat :=
  match hay with
  | EmptyString => 0
  | String _ rest =>
      (if String.prefix needle hay then 1 else 0) + occurrences needle rest
  end%nat.

End Scenario.

Section ScenarioFacts.

Import AiColorService Scenario.

Lemma clean_answer : clean answer_text = answer_json.
Proof. vm_compute. reflexivity. Qed.

Lemma parse_decodes_numbers : decodes_numbers parse.
Proof.
  intros text elements item. unfold parse.
  destruct (String.eqb text answer_json); [|discriminate].
  intros [= <-] [[= <-]|[]]. repeat split.
Qed.

Lemma offline_failed request : remote_failed parse (fetch offline request).
Proof. exact I. Qed.

Lemma garbling_failed request : remote_failed parse (fetch garbling request).
Proof. left. reflexivity. Qed.

End ScenarioFacts.

Import AiColorService Scenario.

(** C1 (the defect): the service answers a JSON array that covers
    [#FF0000] only.  The call returns the AI recipe for [#FF0000] and no
    entry at all for [#00FF00], which was requested and was not cached; the
    cache receives no entry either.  Had the same answer failed to decode,
    the [catch] block of [parseAiResponse] would have given both hexes
    their heuristic recipe. *)
Theorem partial_answer_leaves_hex_unresolved :
  let hexCodes := ["#FF0000"; "#00FF00"] in
  let out := fetchAiCmykBatch parse answering fresh hexCodes in
  uncachedOf fresh hexCodes = ["#FF0000"; "#00FF00"] /\
  parse (clean answer_text) = Elements [Item red_item] /\
  JsMap.keys (results out) = ["#FF0000"] /\
  source_of "#FF0000" (results out) = Some src_ai /\
  JsMap.get "#00FF00" (results out) = None /\
  JsMap.get "#00FF00" (cache (state out)) = None /\
  JsMap.keys (results (fetchAiCmykBatch parse garbling fresh hexCodes))
  = ["#FF0000"; "#00FF00"].
Proof. vm_compute. repeat split. Qed.

Lemma remote_failure_falls_back_witness :
  (JsMap.get "#000000" (results (fetchAiCmykBatch parse offline fresh ["#000000"; "#FFFFFF"]))
   = Some (heuristicFallback "#000000")) /\
  (JsMap.get "#FFFFFF" (results (fetchAiCmykBatch parse garbling fresh ["#000000"; "#FFFFFF"]))
   = Some (heuristicFallback "#FFFFFF")).
Proof.
  split.
  - apply (proj1 (remote_failure_falls_back parse offline fresh
                    ["#000000"; "#FFFFFF"] eq_refl offline_failed)).
    left. reflexivity.
  - apply (proj1 (remote_failure_falls_back parse garbling fresh
                    ["#000000"; "#FFFFFF"] eq_refl garbling_failed)).
    right. left. reflexivity.
Defined.


(** The state after a first call without credential for [#000000]. *)
Definition after_heuristic : State :=
  state (fetchAiCmykBatch parse unconfigured fresh ["#000000"]).

(** C5, as stated, fails: [#000000] is in the cache, no request is made,
    and the returned entry carries ['heuristic'], the tag under which the
    earlier call of the session cached it, not ['cache']. *)
Lemma cached_entry_keeps_its_tag :
  let out := fetchAiCmykBatch parse offline after_heuristic ["#000000"] in
  JsMap.has (normalizeHex "#000000") (cache after_heuristic) = true /\
  requests out = [] /\
  source_of "#000000" (results out) = Some src_heuristic /\
  source_of "#000000" (results out) <> Some src_cache.
Proof. vm_compute. repeat split. discriminate. Qed.

Lemma all_cached_returns_cache_entries_witness :
  let out := fetchAiCmykBatch parse offline after_heuristic ["#000000"] in
  requests out = [] /\ state out = after_heuristic.
Proof.
  cbv zeta.
  destruct (all_cached_returns_cache_entries parse offline after_heuristic ["#000000"])
    as (H1 & H2 & _).
  - intros hex [<-|[]]. reflexivity.
  - split; assumption.
Defined.

(** C9, as stated, fails: the same colour given twice is sent twice. *)
Lemma duplicate_hex_is_sent_twice :
  let out := fetchAiCmykBatch parse offline fresh ["#ff0000"; "FF0000"] in
  map prompt (requests out) = [buildPrompt ["#FF0000"; "#FF0000"]] /\
  occurrences (quoted "#FF0000") (buildPrompt ["#FF0000"; "#FF0000"]) = 2%nat /\
  ~ NoDup ["#FF0000"; "#FF0000"].
Proof.
  split; [vm_compute; reflexivity|]. split; [vm_compute; reflexivity|].
  intros H. inversion H as [|? ? N _]. apply N. now left.
Qed.


(* ================================================================== *)
(** ** The hook: stale completions *)

Section Hook.

Import AiColorService UseAiCmyk.

Lemma nth_set_flag (i j : nat) (flags : list bool) :
  nth j (set_flag i flags) true = (Nat.eqb j i || nth j flags true)%bool.
Proof.
  revert i j. induction flags as [|flag flags IH]; intros i j.
  - destruct i; cbn [set_flag];
      replace (nth j [] true) with true by (destruct j; reflexivity);
      now rewrite orb_true_r.
  - destruct i as [|i], j as [|j]; cbn; try reflexivity. apply IH.
Qed.

Lemma set_flag_length (i : nat) (flags : list bool) :
  List.length (set_flag i flags) = List.length flags.
Proof.
  revert i. induction flags as [|flag flags IH]; intros [|i]; cbn; auto.
Qed.

(** What holds in every state the hook reaches: the run whose cleanup
    React holds has its flag down, every other run has its flag up. *)
Record Invariant (h : Hook) : Prop := {
  inv_current :
    forall run, cleanup h = Some run ->
      (run < List.length (cancelled h))%nat /\ is_cancelled run h = false;
  inv_stale :
    forall run, cleanup h <> Some run -> is_cancelled run h = true
}.

Lemma run_cleanup_all (h : Hook) :
  Invariant h -> forall run, nth run (run_cleanup h) true = true.
Proof.
  intros [Hc Hs] run. unfold run_cleanup.
  destruct (cleanup h) as [cur|] eqn:E.
  - rewrite nth_set_flag. destruct (Nat.eqb_spec run cur) as [->|N]; [reflexivity|].
    cbn. apply Hs. congruence.
  - apply Hs. discriminate.
Qed.

Lemma invariant_initial : Invariant initial.
Proof.
  split; cbn.
  - discriminate.
  - intros run _. unfold is_cancelled. cbn. now destruct run.
Qed.

Lemma invariant_effect (key : string) (colors : list ColorRecord) (h : Hook) :
  Invariant h -> Invariant (run_effect key colors h).
Proof.
  intros Hi. pose proof (run_cleanup_all h Hi) as Hall. unfold run_effect.
  destruct colors as [|color colors]; split; unfold is_cancelled; cbn.
  - discriminate.
  - intros run _. apply Hall.
  - intros run [= <-]. rewrite length_app. cbn. split; [lia|].
    rewrite app_nth2 by lia. now rewrite Nat.sub_diag.
  - intros run N.
    destruct (Nat.lt_ge_cases run (List.length (run_cleanup h))) as [L|G].
    + rewrite app_nth1 by exact L. apply Hall.
    + assert (run <> List.length (run_cleanup h)) by congruence.
      apply nth_overflow. rewrite length_app. cbn. lia.
Qed.

Lemma invariant_step (h : Hook) (ev : Event) : Invariant h -> Invariant (step h ev).
Proof.
  intros Hi. pose proof (run_cleanup_all h Hi) as Hall.
  destruct ev as [colors|colors|run results|run|]; cbn [step].
  - destruct (unmounted h || same_key (hexKey h) _)%bool;
      [exact Hi|now apply invariant_effect].
  - destruct (unmounted h); [exact Hi|now apply invariant_effect].
  - destruct (is_cancelled run h); [exact Hi|].
    destruct Hi as [Hc Hs]. split; unfold is_cancelled in *; cbn; assumption.
  - destruct (is_cancelled run h); [exact Hi|].
    destruct Hi as [Hc Hs]. split; unfold is_cancelled in *; cbn; assumption.
  - split; unfold is_cancelled; cbn.
    + discriminate.
    + intros run _. apply Hall.
Qed.

Lemma invariant_run (events : list Event) : Invariant (run_events events).
Proof.
  unfold run_events.
  assert (G : forall h, Invariant h -> Invariant (fold_left step events h)).
  { induction events as [|ev events IH]; cbn; intros h Hi; [exact Hi|].
    apply IH. now apply invariant_step. }
  apply G, invariant_initial.
Qed.

Lemma effect_retires_current (key : string) (colors : list ColorRecord)
  (h : Hook) (run : nat) :
  Invariant h -> current h = Some run ->
  current (run_effect key colors h) <> Some run.
Proof.
  intros [Hc _] E. destruct (Hc run E) as [L _].
  unfold run_effect. destruct colors as [|color colors]; unfold current; cbn.
  - discriminate.
  - unfold run_cleanup. unfold current in E. rewrite E.
    rewrite set_flag_length. intros [= Heq]. lia.
Qed.

(** C3: in every state the hook reaches, the completion (fulfilment or
    rejection) of a fetch that is not the one started last leaves the
    state, hence [aiResults] and [isLoading], as it is; the fetch started
    last does update them; once the effect has run again (for another
    colour set) the earlier fetch is no longer the last one and its
    completion changes nothing; and after the unmount every completion
    leaves the state as it is. *)
Theorem stale_completion_is_discarded (events : list Event) :
  let h := run_events events in
  (forall run results, current h <> Some run ->
     step h (Resolved run results) = h /\ step h (Rejected run) = h) /\
  (forall run results, current h = Some run ->
     observed (step h (Resolved run results))
     = (JsMap.set_all results (aiResults h), false) /\
     observed (step h (Rejected run)) = (aiResults h, false)) /\
  (forall ev run results,
     current h = Some run ->
     (exists colors, ev = Render colors \/ ev = Rerun colors) ->
     step h ev <> h ->
     let h' := step h ev in
     current h' <> Some run /\
     observed (step h' (Resolved run results)) = observed h' /\
     observed (step h' (Rejected run)) = observed h') /\
  (forall run results,
     let h' := step h Unmount in
     current h' = None /\
     observed (step h' (Resolved run results)) = observed h' /\
     observed (step h' (Rejected run)) = observed h').
Proof.
  cbv zeta. pose proof (invariant_run events) as Hi.
  set (h := run_events events) in *. clearbody h.
  assert (Stale : forall h0, Invariant h0 -> forall run results,
            current h0 <> Some run ->
            step h0 (Resolved run results) = h0 /\ step h0 (Rejected run) = h0).
  { intros h0 [Hc Hs] run results N. cbn [step].
    now rewrite (Hs run N). }
  split; [exact (Stale h Hi)|]. split; [|split].
  - intros run results E. destruct Hi as [Hc _].
    destruct (Hc run E) as [_ F]. cbn [step]. rewrite F. split; reflexivity.
  - intros ev run results E (colors & Hev) Hch.
    pose proof (invariant_step h ev Hi) as Hi'.
    assert (N : current (step h ev) <> Some run).
    { destruct Hev as [-> | ->]; revert Hch; cbn [step].
      - destruct (unmounted h || same_key (hexKey h) _)%bool; [congruence|].
        intros _. now apply effect_retires_current.
      - destruct (unmounted h); [congruence|].
        intros _. now apply effect_retires_current. }
    split; [exact N|].
    destruct (Stale _ Hi' run results N) as [-> ->]. split; reflexivity.
  - intros run results.
    pose proof (invariant_step h Unmount Hi) as Hi'.
    assert (N : current (step h Unmount) <> Some run) by (cbn; discriminate).
    split; [reflexivity|].
    destruct (Stale _ Hi' run results N) as [-> ->]. split; reflexivity.
Qed.

End Hook.

Import UseAiCmyk.

(** Two colour sets shown one after the other. *)
Definition first_set : list ColorRecord := [{| id := "1"; hex := "#000000" |}].
Definition second_set : list ColorRecord := [{| id := "2"; hex := "#FFFFFF" |}].

Lemma stale_completion_is_discarded_witness :
  let h := run_events [Render first_set; Render second_set] in
  let late := results (fetchAiCmykBatch parse offline fresh ["#000000"]) in
  current h = Some 1%nat /\
  step h (Resolved 0 late) = h /\
  observed (step h (Resolved 1 late)) = (late, false).
Proof.
  cbv zeta. split; [reflexivity|]. split.
  - apply (proj1 (stale_completion_is_discarded [Render first_set; Render second_set])).
    discriminate.
  - destruct (stale_completion_is_discarded [Render first_set; Render second_set])
      as (_ & H & _).
    apply (H 1%nat). reflexivity.
Defined.

(* ================================================================== *)
(** * Further properties *)

(** ** [hexToRgb] on every valid colour *)

Section HexToRgbValues.

Local Open Scope Z_scope.

Definition digit_value (ch : ascii) : Z :=
  match hex_value ch with Some v => v | None => 0 end.

Definition byte_value (d1 d2 : ascii) : Z := 16 * digit_value d1 + digit_value d2.

(** The channels written by three or six digits. *)
Definition channel_values (digits : string) : Z * Z * Z :=
  match list_ascii_of_string digits with
  | [d1; d2; d3] => (byte_value d1 d1, byte_value d2 d2, byte_value d3 d3)
  | [d1; d2; d3; d4; d5; d6] =>
      (byte_value d1 d2, byte_value d3 d4, byte_value d5 d6)
  | _ => (0, 0, 0)
  end.

Definition rgb_of (v : Z * Z * Z) : Rgb :=
  let '(vr, vg, vb) := v in
  {| r := Number.of_Z vr; g := Number.of_Z vg; b := Number.of_Z vb |}.

Definition in_bytes (v : Z * Z * Z) : Prop :=
  let '(vr, vg, vb) := v in 0 <= vr < 256 /\ 0 <= vg < 256 /\ 0 <= vb < 256.

Lemma digit_value_range ch : is_hex_digit ch = true -> 0 <= digit_value ch < 16.
Proof.
  intros H. destruct (hex_value_digit ch H) as (v & E & B).
  unfold digit_value. now rewrite E.
Qed.

Lemma byte_value_range d1 d2 :
  is_hex_digit d1 = true -> is_hex_digit d2 = true -> 0 <= byte_value d1 d2 < 256.
Proof.
  intros H1 H2. apply digit_value_range in H1, H2. unfold byte_value. lia.
Qed.

Lemma digit_value_upper ch :
  is_hex_digit ch = true -> digit_value (upper_char ch) = digit_value ch.
Proof.
  destruct ch as [[] [] [] [] [] [] [] []]; intros H; try reflexivity;
    discriminate H.
Qed.

Lemma parseInt16_byte d1 d2 :
  is_hex_digit d1 = true -> is_hex_digit d2 = true ->
  parseInt16 (String d1 (String d2 EmptyString)) = Number.of_Z (byte_value d1 d2).
Proof.
  intros H1 H2.
  destruct (hex_value_digit d1 H1) as (v1 & E1 & B1).
  destruct (hex_value_digit d2 H2) as (v2 & E2 & B2).
  unfold byte_value, digit_value. rewrite E1, E2.
  unfold parseInt16. cbn [skip_spaces].
  rewrite (hex_digit_not_space d1 H1).
  rewrite (hex_digit_not d1 "-" H1 eq_refl), (hex_digit_not d1 "+" H1 eq_refl).
  rewrite (hex_digit_not d2 "x" H2 eq_refl), (hex_digit_not d2 "X" H2 eq_refl).
  rewrite andb_false_r. cbn [digits16]. rewrite E1, E2.
  replace (16 * (16 * 0 + v1) + v2) with (16 * v1 + v2) by lia.
  destruct (Z.eqb_spec (16 * v1 + v2) 0) as [E|E].
  - rewrite E. reflexivity.
  - reflexivity.
Qed.

Lemma remove_first_hash_digits s :
  forallb is_hex_digit (list_ascii_of_string s) = true -> remove_first_hash s = s.
Proof.
  induction s as [|ch s IH]; cbn; [reflexivity|].
  intros H. apply andb_true_iff in H as [H1 H2].
  rewrite (hex_digit_not ch "#" H1 eq_refl). now rewrite IH.
Qed.

Lemma valid_digits x :
  isValidHex x = true ->
  (String.length (strip_hash x) = 3%nat \/ String.length (strip_hash x) = 6%nat) /\
  forallb is_hex_digit (list_ascii_of_string (strip_hash x)) = true.
Proof.
  unfold isValidHex. intros H. apply andb_true_iff in H as [Hl Hd].
  split; [|exact Hd].
  apply orb_true_iff in Hl as [Hl|Hl]; apply Nat.eqb_eq in Hl; auto.
Qed.

Lemma remove_first_hash_valid x :
  isValidHex x = true -> remove_first_hash x = strip_hash x.
Proof.
  intros Hv. destruct (valid_digits x Hv) as [_ Hd].
  destruct x as [|ch x]; [reflexivity|].
  cbn [remove_first_hash strip_hash] in *.
  destruct (Ascii.eqb ch "#"); [reflexivity|].
  cbn in Hd. apply andb_true_iff in Hd as [_ Hd].
  now rewrite remove_first_hash_digits.
Qed.

(** The channels of a string of three or six digits. *)
Lemma hexToRgb_digits x digits :
  remove_first_hash x = digits ->
  (String.length digits = 3%nat \/ String.length digits = 6%nat) ->
  forallb is_hex_digit (list_ascii_of_string digits) = true ->
  hexToRgb x = rgb_of (channel_values digits) /\ in_bytes (channel_values digits).
Proof.
  intros Hr Hl Hd. unfold hexToRgb. rewrite Hr. destruct Hl as [Hl|Hl].
  - destruct digits as [|c1 [|c2 [|c3 [|c4 rest]]]]; try discriminate Hl.
    cbn in Hd.
    apply andb_true_iff in Hd as [H1 Hd]. apply andb_true_iff in Hd as [H2 Hd].
    apply andb_true_iff in Hd as [H3 _].
    cbn [String.length Nat.eqb double_chars].
    unfold substring, channel_values. cbn [Nat.sub String.substring list_ascii_of_string].
    rewrite !parseInt16_byte by assumption. split; [reflexivity|].
    repeat split; apply byte_value_range; assumption.
  - destruct digits as [|c1 [|c2 [|c3 [|c4 [|c5 [|c6 [|c7 rest]]]]]]];
      try discriminate Hl.
    cbn in Hd.
    apply andb_true_iff in Hd as [H1 Hd]. apply andb_true_iff in Hd as [H2 Hd].
    apply andb_true_iff in Hd as [H3 Hd]. apply andb_true_iff in Hd as [H4 Hd].
    apply andb_true_iff in Hd as [H5 Hd]. apply andb_true_iff in Hd as [H6 _].
    cbn [String.length Nat.eqb].
    unfold substring, channel_values. cbn [Nat.sub String.substring list_ascii_of_string].
    rewrite !parseInt16_byte by assumption. split; [reflexivity|].
    repeat split; apply byte_value_range; assumption.
Qed.

Lemma channel_values_upper digits :
  forallb is_hex_digit (list_ascii_of_string digits) = true ->
  channel_values (toUpperCase digits) = channel_values digits.
Proof.
  intros Hd. unfold channel_values.
  destruct digits as [|c1 [|c2 [|c3 [|c4 [|c5 [|c6 [|c7 rest]]]]]]];
    try reflexivity; cbn in Hd;
    repeat (let H := fresh "H" in apply andb_true_iff in Hd as [H Hd]);
    cbn [toUpperCase list_ascii_of_string]; unfold byte_value;
    rewrite ?digit_value_upper by assumption; reflexivity.
Qed.

Lemma hexToRgb_normalizeHex_eq x :
  isValidHex x = true -> hexToRgb (normalizeHex x) = hexToRgb x.
Proof.
  intros Hv. destruct (valid_digits x Hv) as [Hl Hd].
  destruct (hexToRgb_digits x (strip_hash x) (remove_first_hash_valid x Hv) Hl Hd)
    as [-> _].
  rewrite (normalizeHex_of_valid x Hv).
  destruct (hexToRgb_digits (String "#" (toUpperCase (strip_hash x)))
              (toUpperCase (strip_hash x))) as [-> _].
  - cbn [remove_first_hash]. now rewrite Ascii.eqb_refl.
  - now rewrite toUpperCase_length.
  - rewrite toUpperCase_hex. exact Hd.
  - now rewrite channel_values_upper.
Qed.

End HexToRgbValues.

(** X1: for every string [isValidHex] accepts, in either case and with or
    without the '#', [hexToRgb] returns three integers in [0,255]: the
    values of the three digit pairs of a six-digit colour, and of each digit
    written twice for a three-digit colour. *)
Theorem hexToRgb_of_valid (x : string) :
  isValidHex x = true ->
  hexToRgb x = rgb_of (channel_values (strip_hash x)) /\
  in_bytes (channel_values (strip_hash x)).
Proof.
  intros Hv. destruct (valid_digits x Hv) as [Hl Hd].
  apply hexToRgb_digits; trivial. now apply remove_first_hash_valid.
Qed.

Lemma hexToRgb_of_valid_witness :
  hexToRgb "a1f" = rgb_of (170, 17, 255)%Z /\ in_bytes (170, 17, 255)%Z.
Proof. exact (hexToRgb_of_valid "a1f" eq_refl). Defined.

(** X2: [hexToRgb] does not depend on the spelling of a valid colour: the
    channels of [normalizeHex x] are the channels of [x]. *)
Theorem hexToRgb_normalizeHex (x : string) :
  isValidHex x = true -> hexToRgb (normalizeHex x) = hexToRgb x.
Proof. apply hexToRgb_normalizeHex_eq. Qed.

Lemma hexToRgb_normalizeHex_witness :
  hexToRgb (normalizeHex "c0ffee") = hexToRgb "c0ffee".
Proof. exact (hexToRgb_normalizeHex "c0ffee" eq_refl). Defined.

(* ================================================================== *)
(** ** The heuristic recipes of [getPrintConversions] *)

Section SmartRecipe.

Local Open Scope Z_scope.

Definition same_number (a b : number) : bool :=
  match a, b with
  | S754_zero s, S754_zero t => Bool.eqb s t
  | S754_infinity s, S754_infinity t => Bool.eqb s t
  | S754_nan, S754_nan => true
  | S754_finite s mant e, S754_finite t mant' e' =>
      Bool.eqb s t && Pos.eqb mant mant' && Z.eqb e e'
  | _, _ => false
  end.

Lemma same_number_eq a b : same_number a b = true -> a = b.
Proof.
  destruct a as [s|s| |s mant e], b as [t|t| |t mant' e']; cbn;
    try discriminate; try reflexivity.
  - intros H. apply Bool.eqb_prop in H. now subst.
  - intros H. apply Bool.eqb_prop in H. now subst.
  - intros H. apply andb_true_iff in H as [H He].
    apply andb_true_iff in H as [Hs Hm].
    apply Bool.eqb_prop in Hs. apply Pos.eqb_eq in Hm. apply Z.eqb_eq in He.
    now subst.
Qed.

Definition range101 : list Z := map Z.of_nat (seq 0 101).

Lemma in_range101 a : 0 <= a <= 100 <-> In a range101.
Proof.
  unfold range101. rewrite in_map_iff. split.
  - intros Ha. exists (Z.to_nat a). split; [lia|]. apply in_seq. lia.
  - intros (n & <- & Hn). apply in_seq in Hn. lia.
Qed.

Definition percents : list number := Eval vm_compute in map Number.of_Z range101.

Lemma percents_eq : percents = map Number.of_Z range101.
Proof. vm_compute. reflexivity. Qed.

Definition is_percent (v : number) : bool := existsb (same_number v) percents.

Lemma is_percent_sound v : is_percent v = true -> percent v.
Proof.
  unfold is_percent. rewrite percents_eq. intros H.
  apply existsb_exists in H as (x & Hx & E). apply same_number_eq in E. subst x.
  apply in_map_iff in Hx as (n & <- & Hn). apply in_range101 in Hn.
  now exists n.
Qed.

Lemma percent_of_Z n : 0 <= n <= 100 -> percent (Number.of_Z n).
Proof. intros Hn. now exists n. Qed.

(** What the branches of the chain compute from a standard component. *)
Definition branches_ok (n : Z) : bool :=
  let v := Number.of_Z n in
  (is_percent (Math_min [# 100; Math_round (v * lit_1_2)])
   && is_percent (Math_min [# 100; Math_round (v * lit_1_15)])
   && is_percent (Math_min [# 70; v])
   && is_percent (Math_max [# 5; Math_min [# 15; v + # 5]])
   && is_percent (Math_round (v * lit_0_9)))%js.

Lemma branches_table_true : forallb branches_ok range101 = true.
Proof. vm_compute. reflexivity. Qed.

Lemma branches_percent v :
  percent v ->
  (percent (Math_min [# 100; Math_round (v * lit_1_2)])
   /\ percent (Math_min [# 100; Math_round (v * lit_1_15)])
   /\ percent (Math_min [# 70; v])
   /\ percent (Math_max [# 5; Math_min [# 15; v + # 5]])
   /\ percent (Math_round (v * lit_0_9)))%js.
Proof.
  intros (n & Hn & ->). pose proof branches_table_true as T.
  rewrite forallb_forall in T. specialize (T n (proj1 (in_range101 n) Hn)).
  unfold branches_ok in T. cbv zeta in T.
  repeat (let H := fresh "H" in apply andb_true_iff in T as [T H]).
  repeat split; now apply is_percent_sound.
Qed.

Lemma apply_rule_percent rl cS mS yS kS :
  percent cS -> percent mS -> percent yS -> percent kS ->
  percent_cmyk (smart_cmyk (apply_rule rl cS mS yS kS)).
Proof.
  intros Hc Hm Hy Hk.
  destruct (branches_percent cS Hc) as (_ & _ & _ & _ & C09).
  destruct (branches_percent mS Hm) as (M12 & _ & M70 & _ & _).
  destruct (branches_percent yS Hy) as (_ & Y115 & _ & _ & _).
  destruct (branches_percent kS Hk) as (_ & _ & _ & K5 & _).
  destruct rl; cbn [apply_rule smart_cmyk]; repeat split; cbn [c m y k];
    trivial; apply percent_of_Z; lia.
Qed.

Lemma standard_of_percent hex : percent_cmyk (standard_of hex).
Proof.
  rewrite standard_of_unfold.
  destruct (hexToRgb_channels hex) as ((nr & Hr & Er) & (ng & Hg & Eg) & (nb & Hb & Eb)).
  cbv zeta in *. rewrite Er, Eg, Eb.
  now apply standardCmyk_percent.
Qed.

End SmartRecipe.

(** X3: for every input string the smart recipe computed by
    [getPrintConversions] consists of four integers in [0,100], whichever
    branch of the chain applies. *)
Theorem smart_recipe_range (hex : string) : percent_cmyk (smart_of hex).
Proof.
  rewrite smart_of_rule.
  destruct (standard_of_percent hex) as (Hc & Hm & Hy & Hk).
  now apply apply_rule_percent.
Qed.

Section TopChannel.

Import PrimFloat FloatOps.
Local Open Scope Z_scope.

(** The ink of a channel that equals the largest one. *)
Definition top_channel_ok (x : Z) : bool :=
  let kStd := PrimFloat.sub 1%float (fprime x) in
  PrimFloat.eqb kStd 1%float
  || same_number (Prim2SF (fvalue (fprime x) kStd)) (S754_zero false).

Lemma top_channel_table_true : forallb top_channel_ok range256 = true.
Proof. vm_compute. reflexivity. Qed.

Lemma top_channel_zero x :
  0 <= x < 256 ->
  channelStd (prime x) (Number.sub (Number.of_Z 1) (prime x)) = Number.of_Z 0.
Proof.
  intros Hx. pose proof top_channel_table_true as T.
  rewrite forallb_forall in T. specialize (T x (in_range256 x Hx)).
  unfold top_channel_ok in T. cbv zeta in T.
  rewrite (prime_prim x), one_minus_prim, channelStd_prim by lia.
  destruct (PrimFloat.eqb _ _); [reflexivity|].
  cbn [orb] in T. apply same_number_eq in T. rewrite T. reflexivity.
Qed.

Definition grey_hue_ok (n : Z) : bool :=
  same_number (getHue (Number.of_Z n) (Number.of_Z n) (Number.of_Z n))
              (Number.of_Z 0).

Lemma grey_hue_table_true : forallb grey_hue_ok range256 = true.
Proof. vm_compute. reflexivity. Qed.

Lemma grey_hue n :
  0 <= n < 256 ->
  getHue (Number.of_Z n) (Number.of_Z n) (Number.of_Z n) = Number.of_Z 0.
Proof.
  intros Hn. pose proof grey_hue_table_true as T.
  rewrite forallb_forall in T. specialize (T n (in_range256 n Hn)).
  now apply same_number_eq.
Qed.

Lemma standardCmyk_unfold vr vg vb :
  standardCmyk (Number.of_Z vr) (Number.of_Z vg) (Number.of_Z vb)
  = let kStd := Number.sub (Number.of_Z 1)
                           (Math_max [prime vr; prime vg; prime vb]) in
    {| c := channelStd (prime vr) kStd;
       m := channelStd (prime vg) kStd;
       y := channelStd (prime vb) kStd;
       k := Math_round (Number.mul kStd (Number.of_Z 100)) |}.
Proof. reflexivity. Qed.

End TopChannel.

(** X4: the standard conversion never uses all three coloured inks: for
    every input at least one of C, M, Y is 0 (the ink of a largest RGB
    channel). *)
Theorem standard_conversion_spares_an_ink (hex : string) :
  (c (standard_of hex) = # 0 \/ m (standard_of hex) = # 0
   \/ y (standard_of hex) = # 0)%js.
Proof.
  rewrite standard_of_unfold.
  destruct (hexToRgb_channels hex) as ((nr & Hr & Er) & (ng & Hg & Eg) & (nb & Hb & Eb)).
  cbv zeta in *. rewrite Er, Eg, Eb, standardCmyk_unfold.
  rewrite (Math_max_primes nr ng nb Hr Hg Hb). cbv zeta. cbn [c m y].
  destruct (Z.max_spec nr ng) as [[L1 E1]|[L1 E1]], (Z.max_spec (Z.max nr ng) nb) as [[L2 E2]|[L2 E2]];
    rewrite E2, ?E1.
  - right. right. now apply top_channel_zero.
  - right. left. now apply top_channel_zero.
  - right. right. now apply top_channel_zero.
  - left. now apply top_channel_zero.
Qed.

(** X5: a grey (three equal channels) other than the string [#000000]
    falls under the warm rule, because its hue is 0, and its smart recipe is
    0, 0, 0, 0: no ink at all.  This includes the short form of black,
    [#000], which [normalizeHex] does not expand. *)
Theorem grey_smart_recipe_is_blank (hex : string) :
  let rgb := hexToRgb (normalizeHex hex) in
  r rgb = g rgb -> g rgb = b rgb -> normalizeHex hex <> "#000000" ->
  rule_of hex = AntiMud /\
  (smart_of hex = {| c := # 0; m := # 0; y := # 0; k := # 0 |})%js.
Proof.
  cbv zeta. intros Hrg Hgb Hn.
  assert (Hrule : rule_of hex = AntiMud).
  { unfold rule_of, hue_of. cbv zeta. rewrite <- Hgb, <- Hrg.
    destruct (hexToRgb_channels hex) as ((nr & Hr & Er) & _).
    cbv zeta in Er. rewrite Er, (grey_hue nr Hr).
    apply rule_warm_points; auto. }
  split; [exact Hrule|].
  rewrite smart_of_rule, Hrule, standard_of_unfold. cbv zeta.
  rewrite <- Hgb, <- Hrg.
  destruct (hexToRgb_channels hex) as ((nr & Hr & Er) & _).
  cbv zeta in Er. rewrite Er, standardCmyk_unfold.
  rewrite (Math_max_primes nr nr nr Hr Hr Hr), !Z.max_id. cbv zeta. cbn [c m y k].
  rewrite (top_channel_zero nr Hr). reflexivity.
Qed.

Lemma grey_smart_recipe_is_blank_witness :
  ((rule_of "#808080" = AntiMud /\
    smart_of "#808080" = {| c := # 0; m := # 0; y := # 0; k := # 0 |}) /\
   (rule_of "000" = AntiMud /\
    smart_of "000" = {| c := # 0; m := # 0; y := # 0; k := # 0 |}))%js.
Proof.
  split.
  - apply (grey_smart_recipe_is_blank "#808080"); [reflexivity|reflexivity|discriminate].
  - apply (grey_smart_recipe_is_blank "000"); [reflexivity|reflexivity|discriminate].
Defined.

(* ================================================================== *)
(** ** More on maps: distinct keys *)

Section MapKeys.

Lemma In_keys_has (V : Type) (key : string) (mp : JsMap.t V) :
  In key (JsMap.keys mp) -> JsMap.has key mp = true.
Proof.
  unfold JsMap.has, JsMap.keys. induction mp as [|[k v] mp IH]; cbn; [contradiction|].
  intros [->|H]; [now rewrite String.eqb_refl|].
  destruct (String.eqb k key); [reflexivity|now apply IH].
Qed.

Lemma keys_set (V : Type) (key : string) (v : V) (mp : JsMap.t V) :
  JsMap.keys (JsMap.set key v mp)
  = if JsMap.has key mp then JsMap.keys mp else (JsMap.keys mp ++ [key])%list.
Proof.
  unfold JsMap.has, JsMap.keys. induction mp as [|[k v'] mp IH]; cbn; [reflexivity|].
  destruct (String.eqb k key) eqn:E.
  - apply String.eqb_eq in E. now subst.
  - cbn. rewrite IH. now destruct (JsMap.get key mp).
Qed.

Lemma NoDup_snoc (A : Type) (x : A) (l : list A) :
  NoDup l -> ~ In x l -> NoDup (l ++ [x]).
Proof.
  induction 1 as [|y l Hy Hl IH]; cbn; intros Hx.
  - constructor; [intros []|constructor].
  - constructor.
    + rewrite in_app_iff. cbn. intuition congruence.
    + apply IH. intuition.
Qed.

Lemma NoDup_set (V : Type) (key : string) (v : V) (mp : JsMap.t V) :
  NoDup (JsMap.keys mp) -> NoDup (JsMap.keys (JsMap.set key v mp)).
Proof.
  intros H. rewrite keys_set. destruct (JsMap.has key mp) eqn:E; [exact H|].
  apply NoDup_snoc; [exact H|]. intros Hin. apply In_keys_has in Hin. congruence.
Qed.

Lemma get_set_all_other (V : Type) key (src dst : JsMap.t V) :
  ~ In key (JsMap.keys src) ->
  JsMap.get key (JsMap.set_all src dst) = JsMap.get key dst.
Proof.
  unfold JsMap.set_all, JsMap.keys. revert dst.
  induction src as [|[k v] l IH]; cbn; intros dst H; [reflexivity|].
  rewrite IH by tauto. apply get_set_other. intros ->. tauto.
Qed.

Lemma get_set_all_same (V : Type) (key : string) (v : V) (src dst : JsMap.t V) :
  NoDup (JsMap.keys src) -> JsMap.get key src = Some v ->
  JsMap.get key (JsMap.set_all src dst) = Some v.
Proof.
  revert dst. induction src as [|[k v'] l IH]; intros dst Hn H; [discriminate|].
  change (JsMap.set_all ((k, v') :: l) dst)
    with (JsMap.set_all l (JsMap.set k v' dst)).
  cbn in Hn, H. apply NoDup_cons_iff in Hn as [Hk Hn].
  destruct (String.eqb_spec k key) as [->|N].
  - injection H as ->.
    rewrite (get_set_all_other V key l _ Hk). apply get_set_same.
  - now apply IH.
Qed.

Lemma set_fresh (V : Type) (key : string) (v : V) (mp : JsMap.t V) :
  ~ In key (JsMap.keys mp) -> JsMap.set key v mp = (mp ++ [(key, v)])%list.
Proof.
  unfold JsMap.keys. induction mp as [|[k v'] mp IH]; cbn; intros H; [reflexivity|].
  destruct (String.eqb_spec k key) as [->|N]; [tauto|].
  rewrite IH by tauto. reflexivity.
Qed.

Lemma NoDup_skipn (A : Type) (n : nat) (l : list A) : NoDup l -> NoDup (skipn n l).
Proof.
  intros H. rewrite <- (firstn_skipn n l) in H. now apply NoDup_app_remove_l in H.
Qed.

(** The keys of the cache stay distinct. *)
Lemma NoDup_fold_set (V A : Type) (step : JsMap.t V -> A -> JsMap.t V) :
  (forall acc x, NoDup (JsMap.keys acc) -> NoDup (JsMap.keys (step acc x))) ->
  forall l acc, NoDup (JsMap.keys acc) -> NoDup (JsMap.keys (fold_left step l acc)).
Proof.
  intros Hs l. induction l as [|x l IH]; cbn; intros acc H; [exact H|].
  apply IH. now apply Hs.
Qed.

End MapKeys.

(* ================================================================== *)
(** ** What the service keeps true of every recipe *)

Section ServiceInvariant.

Variable JSON_parse : string -> Parsed.

(** An entry is filed under its own colour, which is in normal form, and
    all eight components are integer percentages. *)
Definition entry_ok (key : string) (e : AiPrintResult) : Prop :=
  input_hex e = key /\ normalizeHex key = key /\
  percent_cmyk (standard_cmyk (standard_auto (conversions e))) /\
  percent_cmyk (smart_recipe_of e).

Definition sound_map (mp : Recipes) : Prop :=
  NoDup (JsMap.keys mp) /\ forall key e, In (key, e) mp -> entry_ok key e.

Definition sound_store (stored : StoredItem) : Prop :=
  match stored with
  | Entries entries => forall key e, In (key, e) entries -> entry_ok key e
  | NoItem | Corrupt => True
  end.

Definition sound_state (st : State) : Prop :=
  sound_map (cache st) /\ sound_store (localStorage st).

Lemma sound_set key e mp :
  sound_map mp -> entry_ok key e -> sound_map (JsMap.set key e mp).
Proof.
  intros [Hn He] Hk. split; [now apply NoDup_set|].
  intros key' e' H. apply In_set in H as [[-> ->]|H]; [exact Hk|now apply He].
Qed.

Lemma sound_empty : sound_map JsMap.empty.
Proof. split; [constructor|intros ? ? []]. Qed.

Lemma heuristic_entry_ok key :
  normalizeHex key = key -> entry_ok key (heuristicFallback key).
Proof.
  intros Hk. split; [exact Hk|]. split; [exact Hk|]. split.
  - apply (standard_of_percent key).
  - change (percent_cmyk (smart_of key)). rewrite smart_of_rule.
    destruct (standard_of_percent key) as (Hc & Hm & Hy & Hb).
    now apply apply_rule_percent.
Qed.

Lemma ai_entry_ok item :
  numeric_item item -> entry_ok (fst (aiResultOf item)) (snd (aiResultOf item)).
Proof.
  intros (Hc & Hm & Hy & Hk). split; [reflexivity|].
  split; [apply normalizeHex_idem|]. split.
  - apply (standard_of_percent (item_hex item)).
  - rewrite aiResultOf_clamped. repeat split; cbn [c m y k]; now apply clamp_percent.
Qed.

Lemma sound_fallbackAll uncached res :
  (forall hex, In hex uncached -> normalizeHex hex = hex) ->
  sound_map res -> sound_map (fallbackAll uncached res).
Proof.
  unfold fallbackAll. revert res.
  induction uncached as [|hex l IH]; cbn; intros res Hn Hs; [exact Hs|].
  apply IH; [now auto|]. apply sound_set; [exact Hs|].
  apply heuristic_entry_ok. now apply Hn; left.
Qed.

Lemma sound_fillMissing requested res :
  (forall hex, In hex requested -> normalizeHex hex = hex) ->
  sound_map res -> sound_map (fillMissing requested res).
Proof.
  unfold fillMissing. revert res.
  induction requested as [|hex l IH]; cbn; intros res Hn Hs; [exact Hs|].
  apply IH; [now auto|]. destruct (JsMap.has hex res); cbn [negb]; [exact Hs|].
  apply sound_set; [exact Hs|]. apply heuristic_entry_ok. now apply Hn; left.
Qed.

Lemma sound_parseLoop elements res :
  (forall item, In (Item item) elements -> numeric_item item) ->
  sound_map res -> sound_map (fst (parseLoop elements res)).
Proof.
  revert res. induction elements as [|[item|] l IH]; cbn [parseLoop];
    intros res Hn Hs; try exact Hs.
  pose proof (ai_entry_ok item (Hn item (or_introl eq_refl))) as Hi.
  destruct (aiResultOf item) as [normalized r0]. cbn [fst snd] in Hi.
  apply IH; [intros ? ?; apply Hn; now right|]. now apply sound_set.
Qed.

Lemma sound_parseAiResponse text requested :
  decodes_numbers JSON_parse ->
  (forall hex, In hex requested -> normalizeHex hex = hex) ->
  sound_map (parseAiResponse JSON_parse text requested).
Proof.
  intros Hd Hn. unfold parseAiResponse.
  destruct (JSON_parse (clean text)) as [| |elements] eqn:P;
    try (apply sound_fillMissing; [exact Hn|exact sound_empty]).
  pose proof (sound_parseLoop elements JsMap.empty
                (fun item Hi => Hd _ _ item P Hi) sound_empty) as Hl.
  destruct (parseLoop elements JsMap.empty) as [res thrown]. cbn [fst] in Hl.
  destruct thrown; [now apply sound_fillMissing|exact Hl].
Qed.

Lemma sound_set_all src dst :
  (forall key e, In (key, e) src -> entry_ok key e) ->
  sound_map dst -> sound_map (JsMap.set_all src dst).
Proof.
  unfold JsMap.set_all. revert dst.
  induction src as [|[k v] l IH]; cbn; intros dst Hs Hd; [exact Hd|].
  apply IH; [intros ? ? ?; apply Hs; now right|].
  apply sound_set; [exact Hd|]. apply Hs. now left.
Qed.

Lemma sound_partition cache0 hexCodes res unc :
  sound_map cache0 -> sound_map res ->
  sound_map (fst (partition cache0 hexCodes res unc)).
Proof.
  intros Hc. revert res unc.
  induction hexCodes as [|hex l IH]; cbn; intros res unc Hs; [exact Hs|].
  destruct (JsMap.get (normalizeHex hex) cache0) as [e0|] eqn:G.
  - apply IH. apply sound_set; [exact Hs|]. apply Hc. now apply get_In.
  - now apply IH.
Qed.

Lemma uncachedOf_normal st hexCodes hex :
  In hex (uncachedOf st hexCodes) -> normalizeHex hex = hex.
Proof.
  unfold uncachedOf. intros H. apply filter_In in H as [H _].
  apply in_map_iff in H as (h & <- & _). apply normalizeHex_idem.
Qed.

Lemma sound_persist w st cache' :
  sound_map cache' -> sound_store (localStorage st) ->
  sound_state (persistCache w (with_cache st cache')).
Proof.
  intros Hc Hs. destruct w; cbn; split; trivial.
  intros key e H. apply In_slice_last in H. now apply Hc.
Qed.

(** One call keeps the state sound and returns sound results. *)
Lemma sound_call env st hexCodes :
  decodes_numbers JSON_parse -> sound_state st ->
  sound_map (results (fetchAiCmykBatch JSON_parse env st hexCodes)) /\
  sound_state (state (fetchAiCmykBatch JSON_parse env st hexCodes)).
Proof.
  intros Hd [Hc Hs]. rewrite fetch_unfold. cbv zeta.
  pose proof (sound_partition (cache st) hexCodes JsMap.empty [] Hc sound_empty) as H0.
  pose proof (uncachedOf_normal st hexCodes) as Hn.
  destruct (List.length (uncachedOf st hexCodes) =? 0)%nat.
  { cbn [results state]. split; [exact H0|split; assumption]. }
  destruct (no_credential (GEMINI_API_KEY env)).
  { cbn [results state]. split; [now apply sound_fallbackAll|].
    apply sound_persist; [now apply sound_fallbackAll|exact Hs]. }
  match goal with |- context [fetch env ?rq] =>
    destruct (fetch env rq) as [|[] [|text]] end; cbn [results state];
    try (split; [now apply sound_fallbackAll|now split]).
  pose proof (sound_parseAiResponse text (uncachedOf st hexCodes) Hd Hn) as [_ Hp].
  split; [now apply sound_set_all|].
  apply sound_persist; [now apply sound_set_all|exact Hs].
Qed.

Lemma sound_hydrate stored : sound_store stored -> sound_map (hydrateCache stored).
Proof.
  destruct stored as [| |entries]; cbn [hydrateCache sound_store];
    try (intros _; exact sound_empty).
  intros Hs. generalize sound_empty. generalize (@JsMap.empty AiPrintResult).
  induction entries as [|[k v] l IH]; cbn; intros acc Ha; [exact Ha|].
  apply IH; [intros ? ? ?; apply Hs; now right|].
  apply sound_set; [exact Ha|]. apply (Hs k v). now left.
Qed.

(** The state after a sequence of calls, each in its own environment. *)
Definition after_calls (calls : list (Env * list string)) (st : State) : State :=
  fold_left
    (fun st call => state (fetchAiCmykBatch JSON_parse (fst call) st (snd call)))
    calls st.

Lemma sound_after_calls calls st :
  decodes_numbers JSON_parse -> sound_state st -> sound_state (after_calls calls st).
Proof.
  intros Hd. unfold after_calls. revert st.
  induction calls as [|[env hexCodes] l IH]; cbn; intros st Hs; [exact Hs|].
  apply IH. now apply sound_call.
Qed.

End ServiceInvariant.



(* ================================================================== *)
(** ** Heuristic recipes that are written to the cache stay *)

Section StickyHeuristics.

Variable JSON_parse : string -> Parsed.

(** The response is ok and carries a text that is no JSON array. *)
Definition undecodable (res : FetchResult) : Prop :=
  match res with
  | Response true (BodyText text) =>
      JSON_parse (clean text) = SyntaxError \/ JSON_parse (clean text) = NotIterable
  | _ => False
  end.

Lemma cache_persistCache w st : cache (persistCache w st) = cache st.
Proof. now destruct w. Qed.

Lemma uncachedOf_covered st hexCodes :
  (forall hex, In hex hexCodes -> JsMap.has (normalizeHex hex) (cache st) = true) ->
  uncachedOf st hexCodes = [].
Proof.
  unfold uncachedOf. induction hexCodes as [|hex l IH]; cbn; intros H; [reflexivity|].
  rewrite (H hex (or_introl eq_refl)). cbn [negb]. apply IH. intros; apply H; now right.
Qed.

Lemma covered_call env st hexCodes :
  (forall hex, In hex hexCodes -> JsMap.has (normalizeHex hex) (cache st) = true) ->
  fetchAiCmykBatch JSON_parse env st hexCodes
  = {| results := fst (partition (cache st) hexCodes JsMap.empty []);
       state := st; requests := [] |}.
Proof.
  intros H. rewrite fetch_unfold. cbv zeta.
  now rewrite (uncachedOf_covered st hexCodes H).
Qed.

Lemma cached_or_uncached st hexCodes hex :
  In hex hexCodes ->
  In (normalizeHex hex) (uncachedOf st hexCodes) \/
  exists e, JsMap.get (normalizeHex hex) (cache st) = Some e.
Proof.
  intros Hin. destruct (JsMap.has (normalizeHex hex) (cache st)) eqn:E.
  - right. now apply has_get.
  - left. unfold uncachedOf. apply filter_In. split; [now apply in_map|].
    now rewrite E.
Qed.

Lemma uncached_not_cached st hexCodes key :
  In key (uncachedOf st hexCodes) -> JsMap.get key (cache st) = None.
Proof.
  unfold uncachedOf. intros H. apply filter_In in H as [_ H].
  apply negb_true_iff in H. now apply has_false_get.
Qed.

Lemma fillMissing_In_requested key e requested res :
  In (key, e) (fillMissing requested res) -> In key requested \/ In (key, e) res.
Proof.
  unfold fillMissing. revert res.
  induction requested as [|hex l IH]; cbn; intros res H; [now right|].
  destruct (IH _ H) as [?|H']; [now left; right|].
  destruct (JsMap.has hex res); cbn [negb] in H'; [now right|].
  apply In_set in H' as [[-> ->]|H']; [now left; left|now right].
Qed.

(** What a write of heuristic recipes leaves in a map. *)
Lemma written_through (write : Recipes -> Recipes) st hexCodes :
  (forall key res, In key (uncachedOf st hexCodes) ->
     JsMap.get key (write res) = Some (heuristicFallback key)) ->
  (forall key res, ~ In key (uncachedOf st hexCodes) ->
     JsMap.get key (write res) = JsMap.get key res) ->
  forall hex, In hex hexCodes ->
    exists e,
      JsMap.get (normalizeHex hex)
                (write (fst (partition (cache st) hexCodes JsMap.empty []))) = Some e /\
      JsMap.get (normalizeHex hex) (write (cache st)) = Some e /\
      (In (normalizeHex hex) (uncachedOf st hexCodes) ->
       e = heuristicFallback (normalizeHex hex)).
Proof.
  intros Hin Hout hex Hh.
  destruct (in_dec string_dec (normalizeHex hex) (uncachedOf st hexCodes)) as [U|U].
  - exists (heuristicFallback (normalizeHex hex)). rewrite !Hin by exact U. auto.
  - destruct (cached_or_uncached st hexCodes hex Hh) as [?|(e & G)]; [contradiction|].
    exists e. rewrite !Hout by exact U. split; [|split; [exact G|contradiction]].
    now apply partition_results_get.
Qed.

Lemma sticky env st hexCodes :
  no_credential (GEMINI_API_KEY env) = true \/
  (forall request, undecodable (fetch env request)) ->
  forall hex, In hex hexCodes ->
    exists e,
      JsMap.get (normalizeHex hex)
                (results (fetchAiCmykBatch JSON_parse env st hexCodes)) = Some e /\
      JsMap.get (normalizeHex hex)
                (cache (state (fetchAiCmykBatch JSON_parse env st hexCodes))) = Some e /\
      (In (normalizeHex hex) (uncachedOf st hexCodes) ->
       e = heuristicFallback (normalizeHex hex)).
Proof.
  intros Hw. rewrite fetch_unfold. cbv zeta.
  destruct (List.length (uncachedOf st hexCodes) =? 0)%nat eqn:E0.
  { apply length_zero_nil in E0. cbn [results state].
    apply (written_through (fun res => res)); rewrite E0; [intros ? ? []|reflexivity]. }
  assert (Hfb : forall hex, In hex hexCodes -> exists e,
            JsMap.get (normalizeHex hex)
              (fallbackAll (uncachedOf st hexCodes)
                 (fst (partition (cache st) hexCodes JsMap.empty []))) = Some e /\
            JsMap.get (normalizeHex hex)
              (fallbackAll (uncachedOf st hexCodes) (cache st)) = Some e /\
            (In (normalizeHex hex) (uncachedOf st hexCodes) ->
             e = heuristicFallback (normalizeHex hex))).
  { apply (written_through (fallbackAll (uncachedOf st hexCodes))).
    - intros key res. apply fallbackAll_get.
    - intros key res. apply fallbackAll_other. }
  destruct (no_credential (GEMINI_API_KEY env)).
  { cbn [results state]. now rewrite cache_persistCache. }
  destruct Hw as [Hw|Hw]; [discriminate|].
  match goal with |- context [fetch env ?rq] => specialize (Hw rq);
    destruct (fetch env rq) as [|[] [|text]] end;
    cbn [undecodable] in Hw; try contradiction.
  cbn [results state]. rewrite cache_persistCache. cbn [with_cache cache].
  rewrite (parseAiResponse_unparseable JSON_parse text _ Hw).
  apply (written_through
           (JsMap.set_all (fillMissing (uncachedOf st hexCodes) JsMap.empty))).
  - intros key res U. apply get_set_all_determined.
    + intros key' v H. now apply fillMissing_In in H as [?|[]].
    + now apply fillMissing_keys.
  - intros key res U. apply get_set_all_other. intros K. apply U.
    unfold JsMap.keys in K. apply in_map_iff in K as ([k v] & <- & K).
    now apply fillMissing_In_requested in K as [?|[]].
Qed.

End StickyHeuristics.



(* ================================================================== *)
(** ** The two cache tiers: what a reload brings back *)

Section Reload.

Definition retag (kv : string * AiPrintResult) : string * AiPrintResult :=
  (fst kv, with_source src_cache (snd kv)).

Lemma hydrate_distinct entries acc :
  NoDup (JsMap.keys acc ++ JsMap.keys entries) ->
  fold_left (fun acc kv => JsMap.set (fst kv) (with_source src_cache (snd kv)) acc)
            entries acc
  = (acc ++ map retag entries)%list.
Proof.
  revert acc. induction entries as [|[k v] l IH]; cbn; intros acc H.
  - now rewrite app_nil_r.
  - assert (Hk : ~ In k (JsMap.keys acc)).
    { intros Hin. apply NoDup_remove_2 in H. apply H.
      apply in_or_app. now left. }
    rewrite (set_fresh _ k _ acc Hk), IH.
    + now rewrite <- app_assoc.
    + unfold JsMap.keys in *. rewrite map_app, <- app_assoc. exact H.
Qed.

Lemma hydrate_persisted (mp : Recipes) :
  NoDup (JsMap.keys mp) ->
  hydrateCache (Entries (JsMap.slice_last 200 mp))
  = map retag (JsMap.slice_last 200 mp).
Proof.
  intros H. cbn [hydrateCache]. rewrite hydrate_distinct; [reflexivity|].
  cbn [JsMap.keys JsMap.empty map app]. unfold JsMap.slice_last, JsMap.keys.
  rewrite <- skipn_map. now apply NoDup_skipn.
Qed.

End Reload.



(** X9: [localStorage] is never read after the module is loaded, and a
    failing [localStorage.setItem] changes nothing else: two calls that
    differ only in the stored item and in whether the storage can be written
    return the same mapping, make the same requests and leave the same
    in-memory cache. *)
Theorem storage_does_not_affect_results
  (JSON_parse : string -> Parsed) (env1 env2 : Env) (st1 st2 : State)
  (hexCodes : list string) :
  GEMINI_API_KEY env1 = GEMINI_API_KEY env2 ->
  (forall request, fetch env1 request = fetch env2 request) ->
  cache st1 = cache st2 ->
  let out1 := fetchAiCmykBatch JSON_parse env1 st1 hexCodes in
  let out2 := fetchAiCmykBatch JSON_parse env2 st2 hexCodes in
  results out1 = results out2 /\ requests out1 = requests out2 /\
  cache (state out1) = cache (state out2).
Proof.
  intros Hk Hf Hc. cbv zeta. rewrite !fetch_unfold. cbv zeta.
  unfold uncachedOf. rewrite <- Hc, <- Hk.
  destruct (List.length _ =? 0)%nat; [now repeat split|].
  destruct (no_credential (GEMINI_API_KEY env1)).
  { cbn [results requests state]. rewrite !cache_persistCache. cbn [with_cache cache].
    now rewrite Hc. }
  rewrite <- Hf.
  match goal with |- context [fetch env1 ?rq] =>
    destruct (fetch env1 rq) as [|[] [|text]] end;
    cbn [results requests state]; rewrite ?cache_persistCache;
    cbn [with_cache cache]; now rewrite ?Hc.
Qed.

Lemma storage_does_not_affect_results_witness :
  let full := {| GEMINI_API_KEY := GEMINI_API_KEY unconfigured;
                 fetch := fetch unconfigured; storage_writable := false |} in
  let st2 := {| cache := cache fresh; localStorage := Corrupt |} in
  let out1 := fetchAiCmykBatch parse unconfigured fresh ["#123456"] in
  let out2 := fetchAiCmykBatch parse full st2 ["#123456"] in
  results out1 = results out2 /\ requests out1 = requests out2 /\
  cache (state out1) = cache (state out2).
Proof.
  apply (storage_does_not_affect_results parse unconfigured
           {| GEMINI_API_KEY := GEMINI_API_KEY unconfigured;
              fetch := fetch unconfigured; storage_writable := false |}
           fresh {| cache := cache fresh; localStorage := Corrupt |} ["#123456"]);
    reflexivity.
Defined.

(* ================================================================== *)
(** ** The hook: the loading flag, and what [getResult] returns *)

Section HookState.

Definition is_settlement (ev : Event) : Prop :=
  match ev with
  | Resolved _ _ | Rejected _ => True
  | _ => False
  end.

Lemma settlements_without_current (settlements : list Event) (h : Hook) :
  Invariant h -> current h = None ->
  (forall ev, In ev settlements -> is_settlement ev) ->
  fold_left step settlements h = h.
Proof.
  intros Hi Hc. induction settlements as [|ev l IH]; cbn [fold_left]; intros Hs;
    [reflexivity|].
  assert (E : step h ev = h).
  { pose proof (Hs ev (or_introl eq_refl)) as S.
    destruct Hi as [_ Hstale].
    destruct ev as [| |run results|run|]; try contradiction; cbn [step];
      rewrite (Hstale run); trivial; unfold current in Hc; rewrite Hc; discriminate. }
  rewrite E. apply IH. intros; apply Hs; now right.
Qed.

Lemma keys_set_all_keep (V : Type) (key : string) (src dst : JsMap.t V) :
  In key (JsMap.keys dst) -> In key (JsMap.keys (JsMap.set_all src dst)).
Proof.
  unfold JsMap.set_all. revert dst.
  induction src as [|[k v] l IH]; cbn; intros dst H; [exact H|].
  apply IH. now apply In_keys_set.
Qed.

Lemma step_keeps_keys (h : Hook) (ev : Event) (key : string) :
  In key (JsMap.keys (aiResults h)) -> In key (JsMap.keys (aiResults (step h ev))).
Proof.
  intros H. destruct ev as [colors|colors|run results|run|]; cbn [step].
  - destruct (unmounted h || same_key (hexKey h) _)%bool; [exact H|].
    unfold run_effect. now destruct colors.
  - destruct (unmounted h); [exact H|]. unfold run_effect. now destruct colors.
  - destruct (is_cancelled run h); [exact H|]. cbn [aiResults].
    now apply keys_set_all_keep.
  - now destruct (is_cancelled run h).
  - exact H.
Qed.

End HookState.

(** X10: when the colour set becomes empty while [isLoading] is [true],
    the effect runs its cleanup and returns without starting a fetch; from
    then on no fulfilment and no rejection of any fetch changes the state, so
    [isLoading] stays [true]. *)
Theorem loading_flag_stays_after_empty_set
  (events settlements : list Event) :
  let h := run_events events in
  isLoading h = true -> unmounted h = false -> hexKey h <> Some EmptyString ->
  (forall ev, In ev settlements -> is_settlement ev) ->
  let h' := step h (Render []) in
  current h' = None /\ isLoading h' = true /\
  fold_left step settlements h' = h'.
Proof.
  cbv zeta. intros Hl Hu Hk Hs.
  pose proof (invariant_run events) as Hi.
  set (h := run_events events) in *. clearbody h.
  pose proof (invariant_step h (Render []) Hi) as Hi'.
  assert (E : step h (Render [])
              = run_effect EmptyString [] h).
  { cbn [step map String.concat]. rewrite Hu. cbn [orb].
    destruct (hexKey h) as [key|]; cbn [same_key]; [|reflexivity].
    destruct (String.eqb_spec key EmptyString) as [->|N]; [congruence|reflexivity]. }
  rewrite E in *.
  assert (Hc : current (run_effect EmptyString [] h) = None) by reflexivity.
  split; [exact Hc|]. split; [exact Hl|].
  now apply settlements_without_current.
Qed.

Lemma loading_flag_stays_after_empty_set_witness :
  let h := run_events [Render first_set] in
  let late := results (fetchAiCmykBatch parse answering fresh ["#000000"]) in
  let h' := step h (Render []) in
  current h' = None /\ isLoading h' = true /\
  fold_left step [Resolved 0 late; Rejected 0; Resolved 1 late] h' = h'.
Proof.
  apply (loading_flag_stays_after_empty_set [Render first_set]);
    [reflexivity|reflexivity|discriminate|].
  intros ev [<-|[<-|[<-|[]]]]; exact I.
Defined.

(** X11: the hook never forgets a recipe: a key of [aiResults] stays a key
    of [aiResults] under every event, so the recipes of colours that are no
    longer shown remain available to [getResult]. *)
Theorem aiResults_only_grow (events more : list Event) (key : string) :
  In key (JsMap.keys (aiResults (run_events events))) ->
  In key (JsMap.keys (aiResults (run_events (events ++ more)))).
Proof.
  unfold run_events. rewrite fold_left_app.
  generalize (fold_left step events initial).
  induction more as [|ev l IH]; cbn [fold_left]; intros h H; [exact H|].
  apply IH. now apply step_keeps_keys.
Qed.

Lemma aiResults_only_grow_witness :
  let late := results (fetchAiCmykBatch parse offline fresh ["#000000"]) in
  In "#000000"
     (JsMap.keys (aiResults (run_events
        ([Render first_set; Resolved 0 late] ++ [Render second_set; Unmount])))).
Proof.
  apply (aiResults_only_grow [Render first_set; Resolved 0
           (results (fetchAiCmykBatch parse offline fresh ["#000000"]))]).
  left. reflexivity.
Defined.

Section GetResult.

Import Accessor.

(** [String.prototype.toUpperCase], which agrees with [toUpperCase] on
    strings of ASCII characters. *)
Variable toUpperCase_js : string -> string.
Hypothesis toUpperCase_ascii :
  forall s, is_ascii s = true -> toUpperCase_js s = toUpperCase s.

Lemma hex_digit_ascii ch : is_hex_digit ch = true -> (code ch <? 128)%nat = true.
Proof. intros H. apply hex_digit_code in H. apply Nat.ltb_lt. lia. Qed.

Lemma digits_ascii s :
  forallb is_hex_digit (list_ascii_of_string s) = true -> is_ascii s = true.
Proof.
  unfold is_ascii. induction s as [|ch s IH]; cbn [list_ascii_of_string forallb];
    [reflexivity|].
  intros H. apply andb_true_iff in H as [H1 H2].
  now rewrite (hex_digit_ascii ch H1), IH.
Qed.

Lemma valid_ascii hex : isValidHex hex = true -> is_ascii hex = true.
Proof.
  intros Hv. destruct (valid_digits hex Hv) as [_ Hd].
  destruct hex as [|ch s]; [reflexivity|]. cbn [strip_hash] in Hd.
  destruct (Ascii.eqb_spec ch "#") as [->|N].
  - apply digits_ascii in Hd. unfold is_ascii in *.
    cbn [list_ascii_of_string forallb]. now rewrite Hd.
  - now apply digits_ascii.
Qed.

(** On a valid colour the key of [getResult] is the key of the service. *)
Lemma accessKey_valid hex :
  isValidHex hex = true -> accessKey toUpperCase_js hex = normalizeHex hex.
Proof.
  intros Hv. unfold accessKey.
  rewrite (toUpperCase_ascii hex (valid_ascii hex Hv)).
  rewrite (normalizeHex_of_valid hex Hv).
  destruct hex as [|ch s]; [discriminate Hv|].
  cbn [toUpperCase startsWith_hash strip_hash]. rewrite upper_char_hash.
  destruct (Ascii.eqb_spec ch "#") as [->|N]; reflexivity.
Qed.

Lemma getPrintConversions_normalizeHex hex :
  getPrintConversions (normalizeHex hex) = getPrintConversions hex.
Proof. unfold getPrintConversions. now rewrite normalizeHex_idem. Qed.

Lemma NoDup_partition cache0 hexCodes res unc :
  NoDup (JsMap.keys res) ->
  NoDup (JsMap.keys (fst (partition cache0 hexCodes res unc))).
Proof.
  revert res unc. induction hexCodes as [|hex l IH]; cbn; intros res unc H; [exact H|].
  destruct (JsMap.get (normalizeHex hex) cache0); apply IH; trivial.
  now apply NoDup_set.
Qed.

Lemma NoDup_results (JSON_parse : string -> Parsed) env st hexCodes :
  NoDup (JsMap.keys (results (fetchAiCmykBatch JSON_parse env st hexCodes))).
Proof.
  rewrite fetch_unfold. cbv zeta.
  pose proof (NoDup_partition (cache st) hexCodes JsMap.empty [] (NoDup_nil _)) as H.
  assert (F : forall l, NoDup (JsMap.keys (fallbackAll l
                (fst (partition (cache st) hexCodes JsMap.empty []))))).
  { intros l. apply NoDup_fold_set; [|exact H]. intros acc x. apply NoDup_set. }
  destruct (List.length (uncachedOf st hexCodes) =? 0)%nat; [exact H|].
  destruct (no_credential (GEMINI_API_KEY env)); [apply F|].
  match goal with |- context [fetch env ?rq] =>
    destruct (fetch env rq) as [|[] [|text]] end; cbn [results]; try apply F.
  apply NoDup_fold_set; [|exact H]. intros acc x. apply NoDup_set.
Qed.

(** The three sources of [getResult], in their order. *)
Lemma getResult_valid (aiResults0 : Recipes) (st : State) (hex : string) :
  isValidHex hex = true ->
  getResult toUpperCase_js aiResults0 st hex
  = match JsMap.get (normalizeHex hex) aiResults0 with
    | Some e => e
    | None =>
        match JsMap.get (normalizeHex hex) (cache st) with
        | Some e => e
        | None => heuristicFallback (normalizeHex hex)
        end
    end.
Proof.
  intros Hv. unfold getResult, getCachedResult, heuristicFallback. cbv zeta.
  now rewrite (accessKey_valid hex Hv), getPrintConversions_normalizeHex.
Qed.

End GetResult.

(** X12: for a valid colour, in whatever spelling, [getResult] looks
    [aiResults] up under the key the service files the colour under
    ([normalizeHex]), then the in-memory cache, and else returns the
    heuristic recipe tagged ['heuristic']; so it returns a recipe for
    every valid colour. *)
Theorem getResult_of_valid
  (toUpperCase_js : string -> string) (aiResults0 : Recipes) (st : State)
  (hex : string) :
  (forall s, Accessor.is_ascii s = true -> toUpperCase_js s = toUpperCase s) ->
  isValidHex hex = true ->
  Accessor.accessKey toUpperCase_js hex = normalizeHex hex /\
  Accessor.getResult toUpperCase_js aiResults0 st hex
  = match JsMap.get (normalizeHex hex) aiResults0 with
    | Some e => e
    | None =>
        match JsMap.get (normalizeHex hex) (cache st) with
        | Some e => e
        | None => heuristicFallback (normalizeHex hex)
        end
    end.
Proof.
  intros Hu Hv. split.
  - now apply accessKey_valid.
  - now apply getResult_valid.
Qed.

Lemma getResult_of_valid_witness :
  Accessor.accessKey toUpperCase "c0ffee" = "#C0FFEE" /\
  Accessor.getResult toUpperCase JsMap.empty fresh "c0ffee"
  = heuristicFallback "#C0FFEE".
Proof.
  exact (getResult_of_valid toUpperCase JsMap.empty fresh "c0ffee"
           (fun s _ => eq_refl) eq_refl).
Defined.

(** X13: the hook and the service compose.  When the fetch of the current
    run is fulfilled with the mapping [fetchAiCmykBatch] returned, then for
    every valid colour that has an entry in that mapping, [getResult] returns
    that entry. *)
Theorem getResult_returns_fetched_entry
  (toUpperCase_js : string -> string) (JSON_parse : string -> Parsed)
  (env : Env) (st : State) (hexCodes : list string) (h : Hook) (run : nat)
  (hex : string) (e : AiPrintResult) :
  (forall s, Accessor.is_ascii s = true -> toUpperCase_js s = toUpperCase s) ->
  is_cancelled run h = false -> isValidHex hex = true ->
  let out := fetchAiCmykBatch JSON_parse env st hexCodes in
  let h' := step h (Resolved run (results out)) in
  JsMap.get (normalizeHex hex) (results out) = Some e ->
  isLoading h' = false /\
  Accessor.getResult toUpperCase_js (aiResults h') (state out) hex = e.
Proof.
  intros Hu Hc Hv. cbv zeta. intros He. cbn [step]. rewrite Hc.
  cbn [isLoading aiResults]. split; [reflexivity|].
  rewrite (getResult_valid toUpperCase_js Hu _ _ hex Hv).
  now rewrite (get_set_all_same _ _ e _ _ (NoDup_results JSON_parse env st hexCodes) He).
Qed.

Lemma getResult_returns_fetched_entry_witness :
  let out := fetchAiCmykBatch parse answering fresh ["ff0000"] in
  let h' := step (run_events [Render first_set]) (Resolved 0 (results out)) in
  isLoading h' = false /\
  Accessor.getResult toUpperCase (aiResults h') (state out) "ff0000"
  = snd (aiResultOf red_item).
Proof.
  apply (getResult_returns_fetched_entry toUpperCase parse answering fresh
           ["ff0000"] (run_events [Render first_set]) 0 "ff0000"
           (snd (aiResultOf red_item)) (fun s _ => eq_refl));
    vm_compute; reflexivity.
Defined.

(* ================================================================== *)
(** ** App.tsx: what is stored, what is selected, what is painted *)

Section AddColors.

Variable trim_js : string -> string.

Lemma selectNew_firstn (newRecords : list App.ColorRecord) (selected : list string) :
  App.selectNew newRecords selected
  = (selected ++ firstn (12 - List.length selected) (map App.id newRecords))%list.
Proof.
  unfold App.selectNew. revert selected.
  induction newRecords as [|record l IH]; cbn [fold_left map]; intros selected.
  - now rewrite firstn_nil, app_nil_r.
  - destruct (Nat.ltb_spec (List.length selected) 12) as [L|G].
    + rewrite IH, length_app, <- app_assoc. cbn [List.length app].
      replace (12 - List.length selected)%nat
        with (S (12 - (List.length selected + 1)))%nat by lia.
      reflexivity.
    + rewrite IH. replace (12 - List.length selected)%nat with 0%nat by lia.
      reflexivity.
Qed.

Lemma validLines_valid inputValue line :
  In line (App.validLines trim_js inputValue) -> isValidHex line = true.
Proof.
  unfold App.validLines. intros H. apply filter_In in H as [_ H].
  now apply andb_true_iff in H as [_ H].
Qed.

Lemma valid_normal_form line :
  isValidHex line = true ->
  upper_hex_form 3 (normalizeHex line) \/ upper_hex_form 6 (normalizeHex line).
Proof.
  intros Hv. destruct (valid_digits line Hv) as [[Hl|Hl] _];
    [left|right]; now apply normalizeHex_form.
Qed.

Lemma newRecords_hex fresh_id lines record :
  In record (App.newRecordsOf fresh_id lines) ->
  exists line, In line lines /\ App.hex record = normalizeHex line.
Proof.
  unfold App.newRecordsOf. intros H.
  apply in_map_iff in H as ([n line] & <- & H). apply in_combine_r in H.
  now exists line.
Qed.

End AddColors.

(** X14: [handleAddColors] creates and deletes no collection and leaves
    every collection other than the active one as it is.  In the active
    collection the new records are put before the old ones; each of them
    holds a colour in normal form ('#' and three or six digits among
    [0-9A-F]), the [normalizeHex] of a line of the input that [isValidHex]
    accepts.  The ids of the new records are appended to the selection, in
    their order, as long as the selection has fewer than 12 entries; so a
    selection of at most 12 stays at most 12, and nothing is deselected. *)
Theorem handleAddColors_adds_normalized_colours
  (trim_js : string -> string) (fresh_id : nat -> string)
  (inputValue activeCollectionId : string)
  (activeCollection : option App.Collection) (prev : list App.Collection) :
  let next := App.handleAddColors trim_js fresh_id inputValue activeCollectionId
                                  activeCollection prev in
  let added := App.newRecordsOf fresh_id (App.validLines trim_js inputValue) in
  (forall record, In record added ->
     (upper_hex_form 3 (App.hex record) \/ upper_hex_form 6 (App.hex record)) /\
     exists line, isValidHex line = true /\ App.hex record = normalizeHex line) /\
  List.length next = List.length prev /\
  forall n col, nth_error prev n = Some col ->
    exists col',
      nth_error next n = Some col' /\
      App.col_id col' = App.col_id col /\ App.name col' = App.name col /\
      (col' = col \/
       App.col_id col = activeCollectionId /\
       App.colors col' = (added ++ App.colors col)%list /\
       App.selectedIds col'
       = (App.selectedIds col
          ++ firstn (12 - List.length (App.selectedIds col)) (map App.id added))%list) /\
      (List.length (App.selectedIds col) <= 12 ->
       List.length (App.selectedIds col') <= 12)%nat.
Proof.
  cbv zeta. split; [|split].
  - intros record H. apply newRecords_hex in H as (line & Hl & E).
    apply validLines_valid in Hl. rewrite E. split; [now apply valid_normal_form|].
    now exists line.
  - unfold App.handleAddColors. cbv zeta.
    destruct (_ && _)%bool; [apply length_map|reflexivity].
  - intros n col Hn. unfold App.handleAddColors. cbv zeta.
    destruct (_ && _)%bool.
    + rewrite nth_error_map, Hn. cbn [option_map].
      destruct (String.eqb_spec (App.col_id col) activeCollectionId) as [E|N];
        cbn [negb].
      * eexists. split; [reflexivity|]. cbn [App.col_id App.name App.colors App.selectedIds].
        split; [reflexivity|]. split; [reflexivity|].
        rewrite selectNew_firstn. split.
        -- right. repeat split. exact E.
        -- intros L. rewrite length_app, length_firstn. lia.
      * exists col. repeat split; auto.
    + exists col. repeat split; auto.
Qed.

Section PdfFill.

Local Open Scope Z_scope.

Lemma parseInt16_digit d :
  is_hex_digit d = true ->
  parseInt16 (String d EmptyString) = Number.of_Z (digit_value d).
Proof.
  intros H. destruct (hex_value_digit d H) as (v & E & B).
  unfold digit_value. rewrite E.
  unfold parseInt16. cbn [skip_spaces].
  rewrite (hex_digit_not_space d H).
  rewrite (hex_digit_not d "-" H eq_refl), (hex_digit_not d "+" H eq_refl).
  cbn [digits16]. rewrite E.
  replace (16 * 0 + v) with v by lia.
  destruct (Z.eqb_spec v 0) as [->|N]; reflexivity.
Qed.

Lemma of_Z_not_nan n : 0 <= n < 2 ^ 53 -> Number.of_Z n <> NaN.
Proof.
  intros Hn. destruct n as [|p|p]; [discriminate| |lia].
  rewrite of_Z_pos by lia. discriminate.
Qed.

End PdfFill.

(** X15: the fill colour of [exportToPdf] and the colours the app stores.
    For a six-digit colour that [handleAddColors] stores, the channels
    [exportToPdf] passes to [setFillColor] are those of [hexToRgb].  For a
    three-digit colour, which is stored unexpanded, they are not: red is
    read from the first two digits, green from the third alone, and blue
    is [NaN]. *)
Theorem pdf_fill_of_stored_colour (line : string) :
  isValidHex line = true ->
  let stored := normalizeHex line in
  match list_ascii_of_string (strip_hash line) with
  | [d1; d2; d3] =>
      App.pdfFill stored
      = {| r := Number.of_Z (byte_value d1 d2);
           g := Number.of_Z (digit_value d3);
           b := NaN |} /\
      b (hexToRgb stored) = Number.of_Z (byte_value d3 d3) /\
      App.pdfFill stored <> hexToRgb stored
  | _ => App.pdfFill stored = hexToRgb stored
  end.
Proof.
  intros Hv. cbv zeta. destruct (valid_digits line Hv) as [Hl Hd].
  pose proof (hexToRgb_normalizeHex_eq line Hv) as Hn.
  destruct (hexToRgb_digits line (strip_hash line)
              (remove_first_hash_valid line Hv) Hl Hd) as [Hrgb Hb].
  rewrite (normalizeHex_of_valid line Hv) in *.
  destruct (strip_hash line) as [|c1 [|c2 [|c3 [|c4 [|c5 [|c6 [|c7 rest]]]]]]];
    destruct Hl as [Hl|Hl]; try discriminate Hl; cbn in Hd;
    repeat (let H := fresh "H" in apply andb_true_iff in Hd as [H Hd]).
  - cbn [list_ascii_of_string].
    assert (E : App.pdfFill (String "#" (toUpperCase (String c1 (String c2 (String c3 EmptyString)))))
                = {| r := Number.of_Z (byte_value c1 c2);
                     g := Number.of_Z (digit_value c3); b := NaN |}).
    { unfold App.pdfFill, App.slice. cbn [toUpperCase Nat.sub String.substring].
      rewrite parseInt16_byte, parseInt16_digit by (now rewrite upper_char_hex).
      unfold byte_value. now rewrite !digit_value_upper. }
    split; [exact E|]. rewrite Hn, Hrgb. split; [reflexivity|].
    rewrite E. unfold channel_values. cbn [list_ascii_of_string rgb_of].
    intros [= _ _ Eb]. symmetry in Eb. revert Eb. apply of_Z_not_nan.
    pose proof (byte_value_range c3 c3 H1 H1). lia.
  - cbn [list_ascii_of_string]. unfold App.pdfFill, App.slice, hexToRgb, substring.
    cbn [toUpperCase remove_first_hash]. rewrite Ascii.eqb_refl.
    cbn [String.length Nat.eqb Nat.sub String.substring]. reflexivity.
Qed.

Lemma pdf_fill_of_stored_colour_witness :
  (App.pdfFill "#1AF"
   = {| r := Number.of_Z 26; g := Number.of_Z 15; b := NaN |} /\
   b (hexToRgb "#1AF") = Number.of_Z 255 /\
   App.pdfFill "#1AF" <> hexToRgb "#1AF") /\
  App.pdfFill "#C0FFEE" = hexToRgb "#C0FFEE".
Proof.
  split.
  - exact (pdf_fill_of_stored_colour "1af" eq_refl).
  - exact (pdf_fill_of_stored_colour "c0ffee" eq_refl).
Defined.

(* ================================================================== *)
(** ** Integer arithmetic on numbers is exact below 2^53 *)

Section ExactIntegers.

Local Open Scope Z_scope.

Lemma iter_pos_iter (A : Type) (f : A -> A) (n : positive) (x : A) :
  iter_pos f n x = Pos.iter f x n.
Proof.
  revert x. induction n as [n IH|n IH|]; intros x; cbn [iter_pos Pos.iter].
  - now rewrite !IH, !Pos.iter_swap.
  - now rewrite !IH.
  - reflexivity.
Qed.

(** Shifting out the zero bits that a shift to the left put in. *)
Lemma shr_exact (q n : positive) :
  Pos.iter shr_1 {| shr_m := Zpos (Pos.iter xO q n); shr_r := false; shr_s := false |} n
  = {| shr_m := Zpos q; shr_r := false; shr_s := false |}.
Proof.
  induction n as [|n IH] using Pos.peano_ind.
  - reflexivity.
  - rewrite (Pos.iter_succ n _ xO q), Pos.iter_succ_r. cbn [shr_1 orb]. exact IH.
Qed.

Lemma pow2_lt_inv (x y : Z) : 0 <= y -> 2 ^ x < 2 ^ y -> x < y.
Proof. intros Hy H. apply (Z.pow_lt_mono_r_iff 2); [lia|lia|exact H]. Qed.

Lemma mantissa_bounds p :
  Zpos p < 2 ^ 53 ->
  2 ^ 52 <= Zpos (int_mantissa p) < 2 ^ 53 /\ -52 <= int_exponent p <= 0.
Proof.
  intros Hp. pose proof (digits2_le_53 p Hp) as Hd.
  pose proof (int_mantissa_digits p Hd) as Hm.
  pose proof (digits2_bounds (int_mantissa p)) as B. rewrite Hm in B.
  change (53 - 1) with 52 in B. unfold int_exponent. lia.
Qed.

(** A mantissa that is [p] shifted to the left, with the exponent that
    makes up for it, rounds to the number [p]. *)
Lemma round_aux_scaled s m p k :
  Zpos p < 2 ^ 53 -> 0 <= k <= 1074 -> Zpos m = Zpos p * 2 ^ k ->
  2 ^ 52 <= Zpos m ->
  binary_round_aux prec emax s (Zpos m) (- k) loc_Exact
  = S754_finite s (int_mantissa p) (int_exponent p).
Proof.
  intros Hp Hk Hm H52.
  pose proof (digits2_le_53 p Hp) as Hd.
  pose proof (digits2_bounds p) as [_ Up].
  pose proof (int_mantissa_digits p Hd) as Hq.
  pose proof (int_mantissa_value p Hd) as Vq.
  assert (Hn : 53 - Zpos (digits2_pos p) <= k).
  { assert (2 ^ 52 < 2 ^ (Zpos (digits2_pos p) + k)).
    { rewrite Z.pow_add_r by lia.
      assert (0 < 2 ^ k) by (apply Z.pow_pos_nonneg; lia). nia. }
    apply pow2_lt_inv in H; lia. }
  assert (Vm : Zpos m = Zpos (int_mantissa p) * 2 ^ (k - (53 - Zpos (digits2_pos p)))).
  { rewrite Vq, <- Z.mul_assoc, <- Z.pow_add_r by lia. rewrite Hm. f_equal. f_equal. lia. }
  destruct (k - (53 - Zpos (digits2_pos p))) as [|n|n] eqn:En; try lia.
  - assert (m = int_mantissa p) by lia. subst m.
    replace (- k) with (int_exponent p) by (unfold int_exponent; lia).
    apply round_aux_canonical; [exact Hq|unfold int_exponent; lia].
  - assert (m = Pos.iter xO (int_mantissa p) n).
    { apply Pos2Z.inj. now rewrite iter_xO_value. }
    subst m.
    unfold binary_round_aux, shr_fexp, fexp, emin, prec, emax, Zdigits2.
    rewrite iter_xO_digits, Pos2Z.inj_add, Hq.
    replace (Z.max (53 + Zpos n + - k - 53) (3 - 1024 - 53) - - k) with (Zpos n) by lia.
    cbn [shr shr_record_of_loc]. rewrite iter_pos_iter, shr_exact.
    cbn [loc_of_shr_record shr_m round_nearest_even Zdigits2]. rewrite Hq.
    replace (Z.max (53 + (- k + Zpos n) - 53) (3 - 1024 - 53) - (- k + Zpos n))
      with 0 by lia.
    cbn [shr shr_m].
    destruct (Z.leb_spec (- k + Zpos n) (1024 - 53)); [|lia].
    f_equal. unfold int_exponent. lia.
Qed.

Lemma binary_round_scaled s m p k :
  Zpos p < 2 ^ 53 -> 0 <= k <= 1074 -> Zpos m = Zpos p * 2 ^ k ->
  2 ^ 52 <= Zpos m ->
  binary_round prec emax s m (- k)
  = S754_finite s (int_mantissa p) (int_exponent p).
Proof.
  intros Hp Hk Hm H52.
  pose proof (digits2_bounds m) as [_ Um].
  assert (Hd : 52 < Zpos (digits2_pos m)) by (apply pow2_lt_inv; lia).
  unfold binary_round, shl_align, fexp, emin, prec, emax.
  destruct (Z.max (Zpos (digits2_pos m) + - k - 53) (3 - 1024 - 53) - - k) eqn:E;
    try lia; now apply round_aux_scaled.
Qed.

Lemma shl_align_value m e e' :
  e' <= e -> Zpos (fst (shl_align m e e')) = Zpos m * 2 ^ (e - e').
Proof.
  intros H. unfold shl_align. destruct (e' - e) as [|d|d] eqn:E; try lia; cbn [fst].
  - replace (e - e') with 0 by lia. lia.
  - rewrite iter_xO_value. f_equal. f_equal. lia.
Qed.

Lemma scaled_value p e :
  Zpos p < 2 ^ 53 -> e <= int_exponent p ->
  Zpos (int_mantissa p) * 2 ^ (int_exponent p - e) = Zpos p * 2 ^ (- e).
Proof.
  intros Hp He. pose proof (digits2_le_53 p Hp) as Hd.
  rewrite (int_mantissa_value p Hd), <- Z.mul_assoc, <- Z.pow_add_r
    by (unfold int_exponent in *; lia).
  f_equal. f_equal. unfold int_exponent. lia.
Qed.

(** The sum of two non-negative integers, when it is below 2^53. *)
Lemma add_of_Z a b :
  0 <= a -> 0 <= b -> a + b < 2 ^ 53 ->
  Number.add (Number.of_Z a) (Number.of_Z b) = Number.of_Z (a + b).
Proof.
  intros Ha Hb Hs. destruct a as [|pa|pa], b as [|pb|pb]; try lia.
  - reflexivity.
  - cbn [Z.add]. rewrite of_Z_pos by lia. reflexivity.
  - rewrite Z.add_0_r, of_Z_pos by lia. reflexivity.
  - cbn [Z.add]. rewrite !of_Z_pos by lia.
    destruct (mantissa_bounds pa ltac:(lia)) as [Ba Ea].
    destruct (mantissa_bounds pb ltac:(lia)) as [Bb Eb].
    unfold Number.add, SFadd. cbv zeta. cbn [cond_Zopp Z.add binary_normalize].
    set (ez := Z.min (int_exponent pa) (int_exponent pb)).
    assert (Hez : ez <= int_exponent pa /\ ez <= int_exponent pb /\ -52 <= ez) by lia.
    pose proof (shl_align_value (int_mantissa pa) (int_exponent pa) ez ltac:(lia)) as Va.
    pose proof (shl_align_value (int_mantissa pb) (int_exponent pb) ez ltac:(lia)) as Vb.
    assert (Pa : 0 < 2 ^ (int_exponent pa - ez)) by (apply Z.pow_pos_nonneg; lia).
    assert (Ga : 2 ^ 52 <= Zpos (fst (shl_align (int_mantissa pa) (int_exponent pa) ez)))
      by (rewrite Va; nia).
    rewrite scaled_value in Va, Vb by lia.
    replace ez with (- - ez) at 3 by lia.
    apply binary_round_scaled; lia.
Qed.

(** The product of two non-negative integers, when it is below 2^53. *)
Lemma mul_of_Z a b :
  0 <= a < 2 ^ 53 -> 0 <= b < 2 ^ 53 -> a * b < 2 ^ 53 ->
  Number.mul (Number.of_Z a) (Number.of_Z b) = Number.of_Z (a * b).
Proof.
  intros Ha Hb Hs. destruct a as [|pa|pa], b as [|pb|pb]; try lia.
  - reflexivity.
  - cbn [Z.mul]. rewrite of_Z_pos by lia. reflexivity.
  - cbn [Z.mul]. rewrite of_Z_pos by lia. reflexivity.
  - cbn [Z.mul] in *. rewrite !of_Z_pos by lia.
    destruct (mantissa_bounds pa ltac:(lia)) as [Ba Ea].
    destruct (mantissa_bounds pb ltac:(lia)) as [Bb Eb].
    unfold Number.mul, SFmul. cbn [xorb].
    replace (int_exponent pa + int_exponent pb)
      with (- - (int_exponent pa + int_exponent pb)) by lia.
    apply round_aux_scaled; try lia.
    rewrite !Pos2Z.inj_mul.
    rewrite (int_mantissa_value pa), (int_mantissa_value pb)
      by (apply digits2_le_53; lia).
    unfold int_exponent in *.
    replace (- (Zpos (digits2_pos pa) - 53 + (Zpos (digits2_pos pb) - 53)))
      with ((53 - Zpos (digits2_pos pa)) + (53 - Zpos (digits2_pos pb))) by lia.
    rewrite Z.pow_add_r by lia. ring.
Qed.

End ExactIntegers.

(* ================================================================== *)
(** ** [getContrastType]: the brightness threshold *)

Section ContrastThreshold.

Import PrimFloat FloatOps.
Local Open Scope Z_scope.

(** [s / 1000 >= 128] on the kernel's primitive floats. *)
Definition dark_prim (i : Uint63.int) : bool :=
  PrimFloat.leb 128%float (PrimFloat.div (PrimFloat.of_uint63 i) 1000%float).

Definition int_128000 : Uint63.int := Eval vm_compute in Uint63.of_Z 128000.

(** Whether [dark_prim] is the comparison of integers on [fuel]
    consecutive numerators from [i] on. *)
Fixpoint agrees_from (fuel : nat) (i : Uint63.int) : bool :=
  match fuel with
  | O => true
  | S fuel' =>
      Bool.eqb (dark_prim i) (PrimInt63.leb int_128000 i)
      && agrees_from fuel' (Uint63.succ i)
  end.

Lemma threshold_table_true :
  forallb (fun q => agrees_from 1000 (Uint63.of_Z (1000 * q))) range256 = true.
Proof. vm_compute. reflexivity. Qed.

Lemma leb_uint63 (i : Uint63.int) :
  PrimInt63.leb int_128000 i = (128000 <=? Uint63.to_Z i).
Proof.
  pose proof (Uint63.leb_spec int_128000 i) as H.
  change (Uint63.to_Z int_128000) with 128000 in H.
  destruct (PrimInt63.leb int_128000 i), (Z.leb_spec 128000 (Uint63.to_Z i));
    try reflexivity.
  - pose proof (proj1 H eq_refl). lia.
  - pose proof (proj2 H ltac:(lia)). discriminate.
Qed.

Lemma agrees_from_sound (fuel : nat) (i : Uint63.int) (j : Z) :
  agrees_from fuel i = true ->
  Uint63.to_Z i + Z.of_nat fuel < 2 ^ 63 ->
  Uint63.to_Z i <= j < Uint63.to_Z i + Z.of_nat fuel ->
  dark_prim (Uint63.of_Z j) = (128000 <=? j).
Proof.
  revert i. induction fuel as [|fuel IH]; intros i H Hw Hj; [lia|].
  cbn [agrees_from] in H. apply andb_true_iff in H as [H1 H2].
  apply Bool.eqb_prop in H1.
  destruct (Z.eq_dec j (Uint63.to_Z i)) as [->|N].
  - rewrite Uint63.of_to_Z, H1. apply leb_uint63.
  - assert (S : Uint63.to_Z (Uint63.succ i) = Uint63.to_Z i + 1).
    { rewrite Uint63.succ_spec. apply Z.mod_small.
      pose proof (Uint63.to_Z_bounded i). change Uint63.wB with (2 ^ 63) in *. lia. }
    apply (IH (Uint63.succ i) H2); rewrite S; lia.
Qed.

(** The comparison [yiq >= 128] of [getContrastType], for every
    numerator it can meet. *)
Lemma contrast_division (s : Z) :
  0 <= s < 256000 ->
  Number.geb (Number.div (Number.of_Z s) (Number.of_Z 1000)) (Number.of_Z 128)
  = (128000 <=? s).
Proof.
  intros Hs. pose proof threshold_table_true as T.
  rewrite forallb_forall in T.
  assert (Q : 0 <= s / 1000 < 256)
    by (split; [apply Z.div_pos; lia|apply Z.div_lt_upper_bound; lia]).
  specialize (T (s / 1000) (in_range256 _ Q)).
  assert (W : Uint63.to_Z (Uint63.of_Z (1000 * (s / 1000))) = 1000 * (s / 1000)).
  { rewrite Uint63.of_Z_spec. apply Z.mod_small.
    change Uint63.wB with (2 ^ 63).
    lia. }
  pose proof (Z.mul_div_le s 1000 ltac:(lia)) as L.
  pose proof (Z.mul_succ_div_gt s 1000 ltac:(lia)) as U.
  pose proof (agrees_from_sound 1000 _ s T) as A. rewrite W in A.
  specialize (A ltac:(lia) ltac:(lia)). rewrite <- A.
  unfold dark_prim, Number.geb, Number.leb, Number.div.
  rewrite FloatAxioms.leb_spec, FloatAxioms.div_spec, FloatAxioms.of_uint63_spec,
    Uint63.of_Z_spec.
  rewrite Z.mod_small by (change Uint63.wB with (2 ^ 63); lia).
  reflexivity.
Qed.

(** The numerator [r * 299 + g * 587 + b * 114] is computed exactly. *)
Lemma yiq_numerator vr vg vb :
  0 <= vr < 256 -> 0 <= vg < 256 -> 0 <= vb < 256 ->
  Number.add (Number.add (Number.mul (Number.of_Z vr) (Number.of_Z 299))
                         (Number.mul (Number.of_Z vg) (Number.of_Z 587)))
             (Number.mul (Number.of_Z vb) (Number.of_Z 114))
  = Number.of_Z (299 * vr + 587 * vg + 114 * vb).
Proof.
  intros Hr Hg Hb.
  assert (P : 2 ^ 53 = 9007199254740992) by reflexivity.
  rewrite !mul_of_Z by (rewrite P; lia).
  rewrite !add_of_Z by (rewrite ?P; lia).
  f_equal. lia.
Qed.

Lemma getContrastType_valid hex :
  isValidHex hex = true ->
  Contrast.getContrastType hex
  = let '(vr, vg, vb) := channel_values (strip_hash hex) in
    if 128000 <=? 299 * vr + 587 * vg + 114 * vb
    then Contrast.DARK else Contrast.LIGHT.
Proof.
  intros Hv. unfold Contrast.getContrastType. rewrite Hv. cbn [negb]. cbv zeta.
  destruct (valid_digits hex Hv) as [Hl Hd].
  destruct (hexToRgb_digits hex (strip_hash hex)
              (remove_first_hash_valid hex Hv) Hl Hd) as [-> Hb].
  destruct (channel_values (strip_hash hex)) as [[vr vg] vb].
  cbn [rgb_of r g b in_bytes] in *. destruct Hb as (Hr & Hg & Hb).
  rewrite (yiq_numerator vr vg vb Hr Hg Hb), contrast_division by lia.
  reflexivity.
Qed.

End ContrastThreshold.

(** X16: [getContrastType] returns [DARK] for every string that is no
    valid colour; for a valid colour with channels R, G, B it returns
    [DARK] exactly when 299 R + 587 G + 114 B >= 128000, and [LIGHT]
    otherwise: the products, the sums, the division by 1000 and the
    comparison with 128 lose nothing. *)
Theorem getContrastType_threshold (hex : string) :
  Contrast.getContrastType hex
  = if isValidHex hex then
      let '(vr, vg, vb) := channel_values (strip_hash hex) in
      if (128000 <=? 299 * vr + 587 * vg + 114 * vb)%Z
      then Contrast.DARK else Contrast.LIGHT
    else Contrast.DARK.
Proof.
  destruct (isValidHex hex) eqn:Hv.
  - now apply getContrastType_valid.
  - unfold Contrast.getContrastType. now rewrite Hv.
Qed.

(* ================================================================== *)
(** ** What a remote answer can write *)

Section PayloadEntries.

Variable JSON_parse : string -> Parsed.

Lemma parseLoop_keep after res key e :
  JsMap.get key res = Some e ->
  (forall item, In (Item item) after -> fst (aiResultOf item) <> key) ->
  JsMap.get key (fst (parseLoop after res)) = Some e.
Proof.
  revert res. induction after as [|[item|] l IH]; cbn [parseLoop]; intros res G H;
    try exact G.
  pose proof (H item (or_introl eq_refl)) as N.
  destruct (aiResultOf item) as [normalized r0]. cbn [fst] in N.
  apply IH; [|intros; apply H; now right].
  rewrite get_set_other by congruence. exact G.
Qed.

Lemma parseLoop_get before item after res :
  (forall el, In el before -> el <> Malformed) ->
  (forall item', In (Item item') after ->
     fst (aiResultOf item') <> fst (aiResultOf item)) ->
  JsMap.get (fst (aiResultOf item))
            (fst (parseLoop (before ++ Item item :: after) res))
  = Some (snd (aiResultOf item)).
Proof.
  intros Hb Ha. revert res.
  induction before as [|[item0|] l IH]; cbn [app parseLoop]; intros res.
  - destruct (aiResultOf item) as [normalized r0] eqn:E. cbn [fst snd] in *.
    apply parseLoop_keep; [apply get_set_same|exact Ha].
  - destruct (aiResultOf item0) as [normalized r0].
    apply IH. intros; apply Hb; now right.
  - exfalso. now apply (Hb Malformed (or_introl eq_refl)).
Qed.

Lemma fillMissing_get_keep key e requested res :
  JsMap.get key res = Some e -> JsMap.get key (fillMissing requested res) = Some e.
Proof.
  unfold fillMissing. revert res.
  induction requested as [|hex l IH]; cbn; intros res G; [exact G|].
  apply IH. destruct (JsMap.has hex res) eqn:E; cbn [negb]; [exact G|].
  rewrite get_set_other; [exact G|]. intros ->.
  apply has_false_get in E. congruence.
Qed.

Lemma NoDup_parseLoop elements res :
  NoDup (JsMap.keys res) -> NoDup (JsMap.keys (fst (parseLoop elements res))).
Proof.
  revert res. induction elements as [|[item|] l IH]; cbn [parseLoop]; intros res H;
    try exact H.
  destruct (aiResultOf item) as [normalized r0]. apply IH. now apply NoDup_set.
Qed.

Lemma NoDup_parseAiResponse text requested :
  NoDup (JsMap.keys (parseAiResponse JSON_parse text requested)).
Proof.
  assert (F : forall res, NoDup (JsMap.keys res) ->
                NoDup (JsMap.keys (fillMissing requested res))).
  { intros res H. apply NoDup_fold_set; [|exact H].
    intros acc x Ha. destruct (negb (JsMap.has x acc)); [now apply NoDup_set|exact Ha]. }
  unfold parseAiResponse.
  destruct (JSON_parse (clean text)) as [| |elements]; try (apply F; constructor).
  pose proof (NoDup_parseLoop elements JsMap.empty (NoDup_nil _)) as H.
  destruct (parseLoop elements JsMap.empty) as [res thrown]. cbn [fst] in H.
  destruct thrown; [now apply F|exact H].
Qed.

Lemma parseAiResponse_get text requested before item after :
  JSON_parse (clean text) = Elements (before ++ Item item :: after) ->
  (forall el, In el before -> el <> Malformed) ->
  (forall item', In (Item item') after ->
     fst (aiResultOf item') <> fst (aiResultOf item)) ->
  JsMap.get (fst (aiResultOf item)) (parseAiResponse JSON_parse text requested)
  = Some (snd (aiResultOf item)).
Proof.
  intros P Hb Ha. unfold parseAiResponse. rewrite P.
  pose proof (parseLoop_get before item after JsMap.empty Hb Ha) as G.
  destruct (parseLoop (before ++ Item item :: after) JsMap.empty) as [res thrown].
  cbn [fst] in G. destruct thrown; [now apply fillMissing_get_keep|exact G].
Qed.

End PayloadEntries.

(** X17: an element of a remote answer is filed under the [normalizeHex]
    of its own [hex], whether that colour was requested or not.  When the
    response is ok and the loop reaches the element (no element before it
    makes the loop throw) and no later element names the same colour, then
    the returned mapping and the in-memory cache hold its recipe under
    that key; when its [hex] is no valid colour the key is [#FFFFFF]. *)
Theorem payload_entry_is_filed_under_its_own_hex
  (JSON_parse : string -> Parsed) (env : Env) (st : State)
  (hexCodes : list string) (text : string)
  (before : list Element) (item : AiItem) (after : list Element) :
  no_credential (GEMINI_API_KEY env) = false ->
  uncachedOf st hexCodes <> [] ->
  (forall request, fetch env request = Response true (BodyText text)) ->
  JSON_parse (clean text) = Elements (before ++ Item item :: after) ->
  (forall el, In el before -> el <> Malformed) ->
  (forall item', In (Item item') after ->
     normalizeHex (item_hex item') <> normalizeHex (item_hex item)) ->
  let out := fetchAiCmykBatch JSON_parse env st hexCodes in
  let key := normalizeHex (item_hex item) in
  JsMap.get key (results out) = Some (snd (aiResultOf item)) /\
  JsMap.get key (cache (state out)) = Some (snd (aiResultOf item)) /\
  (isValidHex (item_hex item) = false -> key = "#FFFFFF").
Proof.
  intros Hk Hu Hf P Hb Ha. cbv zeta. rewrite fetch_unfold. cbv zeta.
  destruct (List.length (uncachedOf st hexCodes) =? 0)%nat eqn:E0;
    [apply length_zero_nil in E0; contradiction|].
  rewrite Hk, Hf. cbn [results state]. rewrite cache_persistCache.
  cbn [with_cache cache].
  pose proof (parseAiResponse_get JSON_parse text (uncachedOf st hexCodes)
                before item after P Hb Ha) as G.
  pose proof (NoDup_parseAiResponse JSON_parse text (uncachedOf st hexCodes)) as N.
  change (fst (aiResultOf item)) with (normalizeHex (item_hex item)) in G.
  split; [now apply get_set_all_same|]. split; [now apply get_set_all_same|].
  apply normalizeHex_of_invalid.
Qed.

Lemma payload_entry_is_filed_under_its_own_hex_witness :
  let out := fetchAiCmykBatch parse answering fresh ["#00FF00"] in
  JsMap.get "#FF0000" (results out) = Some (snd (aiResultOf red_item)) /\
  JsMap.get "#FF0000" (cache (state out)) = Some (snd (aiResultOf red_item)) /\
  (isValidHex "#ff0000" = false -> "#FF0000" = "#FFFFFF").
Proof.
  apply (payload_entry_is_filed_under_its_own_hex parse answering fresh
           ["#00FF00"] answer_text [] red_item []).
  - reflexivity.
  - discriminate.
  - reflexivity.
  - vm_compute. reflexivity.
  - intros el [].
  - intros item' [].
Defined.

(* ================================================================== *)
(** ** [parseAiResponse]: the code fence around an answer *)

Section CodeFence.

(** Whether three backticks occur in [s]. *)
Fixpoint has_fence (s : string) : bool :=
  match s with
  | EmptyString => false
  | String _ rest => String.prefix "```" s || has_fence rest
  end.

(** A line feed and the closing fence. *)
Definition closing : string := nl ++ "```".

Lemma prefix_fence_json t :
  String.prefix "```" t = false -> String.prefix "```jso" t = false.
Proof.
  destruct t as [|c1 [|c2 [|c3 t]]]; cbn [String.prefix];
    repeat match goal with
           | |- context [ascii_dec ?x ?y] => destruct (ascii_dec x y)
           end; intros H; try reflexivity; destruct t; discriminate H.
Qed.

Lemma fence_not_across ch s :
  String.prefix "```" (String ch s) = false ->
  String.prefix "```" (String ch s ++ closing) = false.
Proof.
  unfold closing, nl.
  destruct s as [|c2 [|c3 t]]; cbn [String.prefix append];
    repeat match goal with
           | |- context [ascii_dec ?x ?y] => destruct (ascii_dec x y)
           end; intros H; try reflexivity; try discriminate;
    destruct t; discriminate H.
Qed.

Lemma pass_json_closing s :
  has_fence s = false ->
  remove_matches match_json_fence 0 (s ++ closing) = (s ++ closing)%string.
Proof.
  induction s as [|ch s IH]; [intros _; vm_compute; reflexivity|].
  cbn [has_fence]. intros H. apply orb_false_iff in H as [H1 H2].
  pose proof (prefix_fence_json _ (fence_not_across ch s H1)) as E.
  cbn [append] in *. cbn [remove_matches].
  unfold match_json_fence at 1. rewrite E. now rewrite IH.
Qed.

Lemma pass_fence_closing s :
  has_fence s = false ->
  remove_matches match_fence 0 (s ++ closing) = (s ++ nl)%string.
Proof.
  induction s as [|ch s IH]; [intros _; vm_compute; reflexivity|].
  cbn [has_fence]. intros H. apply orb_false_iff in H as [H1 H2].
  pose proof (fence_not_across ch s H1) as E.
  cbn [append] in *. cbn [remove_matches].
  unfold match_fence at 1. rewrite E. now rewrite IH.
Qed.

Lemma pass_json_plain s :
  has_fence s = false -> remove_matches match_json_fence 0 s = s.
Proof.
  induction s as [|ch s IH]; [reflexivity|].
  cbn [has_fence]. intros H. apply orb_false_iff in H as [H1 H2].
  cbn [remove_matches]. unfold match_json_fence at 1.
  rewrite (prefix_fence_json _ H1). now rewrite IH.
Qed.

Lemma pass_fence_plain s :
  has_fence s = false -> remove_matches match_fence 0 s = s.
Proof.
  induction s as [|ch s IH]; [reflexivity|].
  cbn [has_fence]. intros H. apply orb_false_iff in H as [H1 H2].
  cbn [remove_matches]. unfold match_fence at 1. rewrite H1. now rewrite IH.
Qed.

Lemma trim_end_nl t : trim_end (t ++ nl) = trim_end t.
Proof.
  induction t as [|ch t IH]; [reflexivity|].
  cbn [append trim_end]. now rewrite IH.
Qed.

Lemma trim_nl s : trim (s ++ nl) = trim s.
Proof.
  unfold trim. induction s as [|ch s IH]; [reflexivity|].
  cbn [append skip_spaces]. destruct (is_space ch); [exact IH|].
  apply (trim_end_nl (String ch s)).
Qed.

End CodeFence.

(** X18: [parseAiResponse] decodes an answer inside a code fence as it
    decodes the bare answer.  For a text without three backticks in a row,
    the text handed to [JSON.parse] is the trimmed text, whether it comes
    bare, between [```json] and [```] on lines of their own, or between
    [```] and [```]. *)
Theorem clean_ignores_code_fence (body : string) :
  has_fence body = false ->
  clean body = trim body /\
  clean ("```json" ++ nl ++ body ++ closing) = trim body /\
  clean ("```" ++ nl ++ body ++ closing) = trim body.
Proof.
  intros H. unfold clean. split; [|split].
  - now rewrite pass_json_plain, pass_fence_plain.
  - change (remove_matches match_json_fence 0 ("```json" ++ nl ++ body ++ closing))
      with (remove_matches match_json_fence 0 (body ++ closing)).
    rewrite pass_json_closing, pass_fence_closing by exact H. apply trim_nl.
  - change (remove_matches match_json_fence 0 ("```" ++ nl ++ body ++ closing))
      with (String "`" (String "`" (String "`" (String (ascii_of_nat 10)
              (remove_matches match_json_fence 0 (body ++ closing)))))).
    rewrite pass_json_closing by exact H.
    change (remove_matches match_fence 0
              (String "`" (String "`" (String "`" (String (ascii_of_nat 10)
                 (body ++ closing))))))
      with (String (ascii_of_nat 10) (remove_matches match_fence 0 (body ++ closing))).
    rewrite pass_fence_closing by exact H.
    change (trim (String (ascii_of_nat 10) (body ++ nl))) with (trim (body ++ nl)).
    apply trim_nl.
Qed.

Lemma clean_ignores_code_fence_witness :
  clean answer_json = trim answer_json /\
  clean ("```json" ++ nl ++ answer_json ++ closing) = trim answer_json /\
  clean ("```" ++ nl ++ answer_json ++ closing) = trim answer_json.
Proof.
  apply (clean_ignores_code_fence answer_json). vm_compute. reflexivity.
Defined.

(* ================================================================== *)
(** ** App.tsx: when the Add button is enabled *)

Section AddButton.

Variable trim_js : string -> string.

Lemma hasValidInput_lines (lines : list string) :
  existsb (fun line => isValidHex (trim_js line)) lines
  = (0 <? List.length
            (filter (fun line => negb (String.eqb line EmptyString) && isValidHex line)
                    (map trim_js lines)))%nat.
Proof.
  induction lines as [|line l IH]; [reflexivity|].
  cbn [existsb map filter]. destruct (isValidHex (trim_js line)) eqn:E.
  - destruct (String.eqb_spec (trim_js line) EmptyString) as [Z|_].
    + rewrite Z in E. discriminate E.
    + reflexivity.
  - rewrite andb_false_r. exact IH.
Qed.

Lemma newRecords_length fresh_id lines :
  List.length (App.newRecordsOf fresh_id lines) = List.length lines.
Proof.
  unfold App.newRecordsOf. rewrite length_map, length_combine, length_seq. lia.
Qed.

End AddButton.

(** X19: the Add button, which is disabled when [hasValidInput] is
    false, is enabled exactly when [handleAddColors] finds a line to add.
    When it is disabled the handler would leave the collections as they
    are; when it is enabled and there is an active collection, the
    collection with the active id gains one colour for every valid line. *)
Theorem add_button_enabled_iff_colours_are_added
  (trim_js : string -> string) (fresh_id : nat -> string)
  (inputValue activeCollectionId : string)
  (activeCollection : option App.Collection) (prev : list App.Collection) :
  let next := App.handleAddColors trim_js fresh_id inputValue activeCollectionId
                                  activeCollection prev in
  let lines := App.validLines trim_js inputValue in
  App.hasValidInput trim_js inputValue = (0 <? List.length lines)%nat /\
  (App.hasValidInput trim_js inputValue = false -> next = prev) /\
  (App.hasValidInput trim_js inputValue = true -> activeCollection <> None ->
   forall n col, nth_error prev n = Some col ->
     App.col_id col = activeCollectionId ->
     exists col',
       nth_error next n = Some col' /\
       List.length (App.colors col')
       = (List.length lines + List.length (App.colors col))%nat).
Proof.
  cbv zeta.
  assert (E : App.hasValidInput trim_js inputValue
              = (0 <? List.length (App.validLines trim_js inputValue))%nat)
    by apply hasValidInput_lines.
  split; [exact E|]. rewrite E. unfold App.handleAddColors. cbv zeta. split.
  - intros ->. reflexivity.
  - intros -> Ha n col Hn Hid.
    destruct activeCollection as [active|]; [|congruence]. cbn [andb].
    rewrite nth_error_map, Hn. cbn [option_map].
    rewrite Hid, String.eqb_refl. cbn [negb].
    eexists. split; [reflexivity|]. cbn [App.colors].
    now rewrite length_app, newRecords_length.
Qed.

Lemma add_button_enabled_iff_colours_are_added_witness :
  let prev := [{| App.col_id := "a"; App.name := "Set";
                  App.colors := []; App.selectedIds := [] |}] in
  let input := "abc" ++ nl ++ "  #112233 " ++ nl ++ "zzz" in
  App.hasValidInput trim input = true /\
  List.length (App.validLines trim input) = 2%nat /\
  map App.hex (flat_map App.colors
     (App.handleAddColors trim (fun _ => "id") input "a" (hd_error prev) prev))
  = ["#ABC"; "#112233"] /\
  App.handleAddColors trim (fun _ => "id") "zzz" "a" (hd_error prev) prev = prev.
Proof.
  cbv zeta.
  split; [reflexivity|]. split; [reflexivity|]. split; [reflexivity|].
  apply (add_button_enabled_iff_colours_are_added trim (fun _ => "id") "zzz" "a").
  reflexivity.
Defined.

(* ================================================================== *)
(** ** The hook: what the dependency [hexKey] tells apart *)

Section HexKey.

Definition comma_free (s : string) : Prop :=
  s <> EmptyString /\
  forallb (fun ch => negb (Ascii.eqb ch ",")) (list_ascii_of_string s) = true.

(** What follows an element in a joined string. *)
Definition joined_tail (rest : list string) : string :=
  match rest with
  | [] => EmptyString
  | _ :: _ => String "," (String.concat "," rest)
  end.

Lemma append_empty s : (s ++ EmptyString)%string = s.
Proof. induction s as [|ch s IH]; cbn; [reflexivity|now rewrite IH]. Qed.

Lemma concat_cons x rest :
  String.concat "," (x :: rest) = (x ++ joined_tail rest)%string.
Proof. destruct rest; cbn [String.concat joined_tail]; [now rewrite append_empty|reflexivity]. Qed.

Lemma joined_tail_shape rest :
  joined_tail rest = EmptyString \/ exists t, joined_tail rest = String "," t.
Proof. destruct rest; [now left|right; eexists; reflexivity]. Qed.

Lemma append_comma_inj x1 t1 x2 t2 :
  forallb (fun ch => negb (Ascii.eqb ch ",")) (list_ascii_of_string x1) = true ->
  forallb (fun ch => negb (Ascii.eqb ch ",")) (list_ascii_of_string x2) = true ->
  (t1 = EmptyString \/ exists t, t1 = String "," t) ->
  (t2 = EmptyString \/ exists t, t2 = String "," t) ->
  (x1 ++ t1)%string = (x2 ++ t2)%string -> x1 = x2 /\ t1 = t2.
Proof.
  revert x2. induction x1 as [|c1 x1 IH]; intros [|c2 x2] H1 H2 T1 T2 E;
    cbn [append list_ascii_of_string forallb] in *.
  - now split.
  - apply andb_true_iff in H2 as [N _].
    destruct T1 as [->|(t & ->)]; [discriminate E|].
    injection E as <- _. discriminate N.
  - apply andb_true_iff in H1 as [N _].
    destruct T2 as [->|(t & ->)]; [discriminate E|].
    injection E as -> _. discriminate N.
  - apply andb_true_iff in H1 as [_ H1]. apply andb_true_iff in H2 as [_ H2].
    injection E as -> E. destruct (IH x2 H1 H2 T1 T2 E) as [-> ->]. now split.
Qed.

Lemma concat_comma_inj l1 l2 :
  (forall s, In s l1 -> comma_free s) -> (forall s, In s l2 -> comma_free s) ->
  String.concat "," l1 = String.concat "," l2 -> l1 = l2.
Proof.
  revert l2. induction l1 as [|x1 r1 IH]; intros [|x2 r2] H1 H2 E.
  - reflexivity.
  - exfalso. rewrite concat_cons in E. destruct (H2 x2 (or_introl eq_refl)) as [N _].
    destruct x2; [congruence|discriminate E].
  - exfalso. rewrite concat_cons in E. destruct (H1 x1 (or_introl eq_refl)) as [N _].
    destruct x1; [congruence|discriminate E].
  - rewrite !concat_cons in E.
    destruct (append_comma_inj x1 _ x2 _
                (proj2 (H1 x1 (or_introl eq_refl))) (proj2 (H2 x2 (or_introl eq_refl)))
                (joined_tail_shape r1) (joined_tail_shape r2) E) as [-> T].
    f_equal. destruct r1 as [|y1 r1], r2 as [|y2 r2]; try discriminate T;
      [reflexivity|].
    injection T as T. apply IH; [intros; apply H1; now right
                                |intros; apply H2; now right|exact T].
Qed.

Lemma normal_form_comma_free s : normalizeHex s = s -> comma_free s.
Proof.
  intros E. destruct (normalized_shape s) as (digits & Hs & _ & Hd).
  rewrite E in Hs. subst s. split; [discriminate|].
  cbn [list_ascii_of_string forallb]. apply andb_true_iff. split; [reflexivity|].
  clear E. induction digits as [|ch digits IH]; [reflexivity|].
  cbn [list_ascii_of_string forallb] in *. apply andb_true_iff in Hd as [H1 H2].
  rewrite (hex_digit_not ch "," H1 eq_refl). now apply IH.
Qed.

End HexKey.

(** X20: for colours in normal form (as [handleAddColors] stores them)
    the dependency [hexKey] identifies the list of hexes: a render with
    another colour list leaves the hook as it is, without running the
    effect, exactly when the two lists hold the same hexes in the same
    order. *)
Theorem effect_reruns_iff_hexes_change
  (h : Hook) (colors1 colors2 : list ColorRecord) :
  hexKey h = Some (String.concat "," (map hex colors1)) ->
  unmounted h = false ->
  (forall c, In c (colors1 ++ colors2) -> normalizeHex (hex c) = hex c) ->
  step h (Render colors2) = h <-> map hex colors1 = map hex colors2.
Proof.
  intros Hk Hu Hn. cbn [step]. rewrite Hu, Hk. cbn [orb same_key].
  assert (F : forall colors s,
            (forall c, In c colors -> normalizeHex (hex c) = hex c) ->
            In s (map hex colors) -> comma_free s).
  { intros colors s H Hs. apply in_map_iff in Hs as (c & <- & Hc).
    apply normal_form_comma_free. now apply H. }
  destruct (String.eqb_spec (String.concat "," (map hex colors1))
                            (String.concat "," (map hex colors2))) as [E|N].
  - split; [intros _|reflexivity].
    apply concat_comma_inj; [| |exact E]; intros s Hs.
    + apply (F colors1); [|exact Hs]. intros c Hc. apply Hn, in_or_app. now left.
    + apply (F colors2); [|exact Hs]. intros c Hc. apply Hn, in_or_app. now right.
  - split.
    + intros H. exfalso. apply N.
      assert (K : hexKey (run_effect (String.concat "," (map hex colors2)) colors2 h)
                  = hexKey h) by now rewrite H.
      rewrite Hk in K. unfold run_effect in K.
      destruct colors2 as [|c cs]; cbn [hexKey] in K; injection K as K;
        symmetry; exact K.
    + intros E. exfalso. apply N. now rewrite E.
Qed.

Lemma effect_reruns_iff_hexes_change_witness :
  step (run_events [Render first_set]) (Render second_set) = run_events [Render first_set]
  <-> map hex first_set = map hex second_set.
Proof.
  apply (effect_reruns_iff_hexes_change (run_events [Render first_set])
           first_set second_set); [reflexivity|reflexivity|].
  intros c [<-|[<-|[]]]; reflexivity.
Defined.

(* ================================================================== *)
(** ** Which inputs get no entry *)

Section Coverage.

Variable JSON_parse : string -> Parsed.

Lemma get_None_not_key (V : Type) (key : string) (mp : JsMap.t V) :
  JsMap.get key mp = None -> ~ In key (JsMap.keys mp).
Proof.
  intros G Hin. apply In_keys_has in Hin. unfold JsMap.has in Hin.
  rewrite G in Hin. discriminate Hin.
Qed.

Lemma keys_set_all_src (V : Type) (key : string) (src dst : JsMap.t V) :
  In key (JsMap.keys src) -> In key (JsMap.keys (JsMap.set_all src dst)).
Proof.
  revert dst. induction src as [|[k v] l IH]; intros dst H; [contradiction|].
  change (JsMap.set_all ((k, v) :: l) dst) with (JsMap.set_all l (JsMap.set k v dst)).
  destruct H as [<-|H]; [|now apply IH].
  apply keys_set_all_keep. apply In_keys_set_same.
Qed.

Lemma parseLoop_keys_keep elements res key :
  In key (JsMap.keys res) -> In key (JsMap.keys (fst (parseLoop elements res))).
Proof.
  revert res. induction elements as [|[item|] l IH]; cbn [parseLoop]; intros res H;
    try exact H.
  destruct (aiResultOf item) as [normalized r0]. apply IH. now apply In_keys_set.
Qed.

(** A loop that does not throw has met no malformed element and has
    stored every element. *)
Lemma parseLoop_complete elements res :
  snd (parseLoop elements res) = false ->
  ~ In Malformed elements /\
  forall item, In (Item item) elements ->
    In (fst (aiResultOf item)) (JsMap.keys (fst (parseLoop elements res))).
Proof.
  revert res. induction elements as [|[item|] l IH]; cbn [parseLoop]; intros res H.
  - split; [intros []|intros ? []].
  - pose proof (parseLoop_keys_keep l (JsMap.set (fst (aiResultOf item))
                  (snd (aiResultOf item)) res) (fst (aiResultOf item))
                  (In_keys_set_same _ _ _ _)) as K.
    destruct (aiResultOf item) as [normalized r0] eqn:E. cbn [fst snd] in K.
    destruct (IH _ H) as [Hm Hk]. split.
    + intros [M|M]; [discriminate M|contradiction].
    + intros item' [[= <-]|Hi]; [now rewrite E|now apply Hk].
  - discriminate H.
Qed.

End Coverage.

(** X21: every input colour has an entry in the returned mapping, with
    one exception.  When an input has none, there is a credential, the
    request was answered with an ok response whose text decoded to an
    array, the loop over the array met no malformed element, and no
    element of the array names the colour. *)
Theorem input_without_entry_was_omitted_by_the_answer
  (JSON_parse : string -> Parsed) (env : Env) (st : State)
  (hexCodes : list string) (hex : string) :
  In hex hexCodes ->
  let out := fetchAiCmykBatch JSON_parse env st hexCodes in
  JsMap.get (normalizeHex hex) (results out) = None ->
  no_credential (GEMINI_API_KEY env) = false /\
  exists request text elements,
    requests out = [request] /\
    fetch env request = Response true (BodyText text) /\
    JSON_parse (clean text) = Elements elements /\
    ~ In Malformed elements /\
    forall item, In (Item item) elements ->
      normalizeHex (item_hex item) <> normalizeHex hex.
Proof.
  intros Hin. cbv zeta. rewrite fetch_unfold. cbv zeta.
  set (results0 := fst (partition (cache st) hexCodes JsMap.empty [])).
  set (uncached := uncachedOf st hexCodes).
  assert (Hfb : JsMap.get (normalizeHex hex) (fallbackAll uncached results0) <> None).
  { destruct (cached_or_uncached st hexCodes hex Hin) as [U|(e & G)].
    - now rewrite (fallbackAll_get _ _ _ U).
    - destruct (in_dec string_dec (normalizeHex hex) uncached) as [U|U].
      + now rewrite (fallbackAll_get _ _ _ U).
      + rewrite (fallbackAll_other _ _ _ U).
        unfold results0. now rewrite (partition_results_get _ _ _ _ _ e Hin G). }
  destruct (List.length uncached =? 0)%nat eqn:E0.
  { apply length_zero_nil in E0. cbn [results]. intros G. exfalso.
    rewrite E0 in Hfb. now apply Hfb. }
  destruct (no_credential (GEMINI_API_KEY env)); [intros G; now elim Hfb|].
  match goal with |- context [fetch env ?rq] =>
    set (request := rq); destruct (fetch env request) as [|[] [|text]] eqn:F end;
    cbn [results requests]; try (intros G; now elim Hfb).
  intros G. split; [reflexivity|]. exists request, text.
  apply get_None_not_key in G.
  assert (Hp : ~ In (normalizeHex hex)
                    (JsMap.keys (parseAiResponse JSON_parse text uncached)))
    by (intros K; apply G; now apply keys_set_all_src).
  assert (Hr : ~ In (normalizeHex hex) (JsMap.keys results0))
    by (intros K; apply G; now apply keys_set_all_keep).
  assert (U : In (normalizeHex hex) uncached).
  { destruct (cached_or_uncached st hexCodes hex Hin) as [U|(e & Ge)]; [exact U|].
    exfalso. apply Hr. apply has_In_keys. unfold JsMap.has, results0.
    now rewrite (partition_results_get _ _ _ _ _ e Hin Ge). }
  unfold parseAiResponse in Hp.
  destruct (JSON_parse (clean text)) as [| |elements] eqn:P;
    try (exfalso; apply Hp; now apply fillMissing_keys).
  exists elements. split; [reflexivity|]. split; [exact F|]. split; [reflexivity|].
  pose proof (parseLoop_complete elements JsMap.empty) as C.
  destruct (parseLoop elements JsMap.empty) as [res thrown]. cbn [fst snd] in C.
  destruct thrown; [exfalso; apply Hp; now apply fillMissing_keys|].
  destruct (C eq_refl) as [Hm Hk]. split; [exact Hm|].
  intros item Hi E. apply Hp. rewrite <- E. now apply Hk.
Qed.

Lemma input_without_entry_was_omitted_by_the_answer_witness :
  let out := fetchAiCmykBatch parse answering fresh ["#FF0000"; "#00FF00"] in
  no_credential (GEMINI_API_KEY answering) = false /\
  exists request text elements,
    requests out = [request] /\
    fetch answering request = Response true (BodyText text) /\
    parse (clean text) = Elements elements /\
    ~ In Malformed elements /\
    forall item, In (Item item) elements ->
      normalizeHex (item_hex item) <> normalizeHex "#00FF00".
Proof.
  apply (input_without_entry_was_omitted_by_the_answer parse answering fresh
           ["#FF0000"; "#00FF00"] "#00FF00").
  - right. left. reflexivity.
  - vm_compute. reflexivity.
Defined.
